(** * SAE_Graphes : graphes valués, Dijkstra et métriques de réseau

    Shallow embedding of [graphe.py] (class [GrapheValue]), [algos.py]
    (class [AlgoDijkstra]) and [reseau.py] (class [ReseauSocial]).

    Conventions of the embedding.
    - A weight is an exact rational or the sentinel [math.inf]: the
      theorems hold of sums that neither round nor overflow.  Where a
      claim depends on the rounding or the overflow of Python's floats,
      the module [Binaire64] runs the same loop on IEEE 754 binary64
      values.
    - The valuation matrix is a list of rows, as Python sees it through
      [len] and indexing.
    - A Python exception is an explicit outcome ([Leve]); a [while] loop
      is run with a bound on its number of iterations, and exceeding the
      bound is a third outcome ([Epuise]) that the theorems rule out.
    - An index supplied by the caller is a [Z] and follows Python's
      rule for negative indices; an index produced by [range] is a [nat].
      The traversals and the component of a vertex are embedded for both:
      [descendants] for the calls that the class makes on indices of
      [range], [descendants_z] for the call of a caller, and likewise
      for [ascendants], [cfc_sommet] and [cc_sommet].
    - The order in which Python iterates a set is not fixed by the
      members of the set: for the component that [plus_grosse_cc]
      iterates it is a parameter of the embedding.  The set [unvisited]
      of [calculPCCSommet], built from [range(n)] and only shrunk, is
      iterated in increasing order. *)

From Stdlib Require Import QArith Lqa.
From Stdlib Require Floats.SpecFloat.
From stdpp Require Import gmap list sorting.

Local Open Scope nat_scope.

(** ** Weights *)

Inductive poids : Type :=
| Fini (q : Q)
| Infini.

(** [w != math.inf] is [negb (est_inf w)]. *)
Definition est_inf (w : poids) : bool :=
  match w with Infini => true | Fini _ => false end.

(** Float addition with an infinite operand. *)
Definition plus_p (a b : poids) : poids :=
  match a, b with
  | Fini x, Fini y => Fini (x + y)%Q
  | _, _ => Infini
  end.

(** [a < b] on floats. *)
Definition ltb_p (a b : poids) : bool :=
  match a, b with
  | Fini x, Fini y => negb (Qle_bool y x)
  | Fini _, Infini => true
  | Infini, _ => false
  end.

(** The order [a <= b], used in statements only. *)
Definition le_p (a b : poids) : Prop :=
  match a, b with
  | Fini x, Fini y => (x <= y)%Q
  | _, Infini => True
  | Infini, Fini _ => False
  end.

(** ** Outcomes of a call *)

Inductive exception : Type :=
  IndexError | ValueError | KeyError | ZeroDivisionError.

Inductive resultat (A : Type) : Type :=
| Ok (a : A)
| Leve (e : exception)
| Epuise.
Arguments Ok {A} a.
Arguments Leve {A} e.
Arguments Epuise {A}.

Global Instance resultat_ret : MRet resultat := λ A a, Ok a.
Global Instance resultat_bind : MBind resultat := λ A B f m,
  match m with
  | Ok a => f a
  | Leve e => Leve e
  | Epuise => Epuise
  end.

(** [for x in l: a = corps(a, x)] *)
Fixpoint pour {A B : Type} (l : list B) (corps : A → B → resultat A) (a : A)
  : resultat A :=
  match l with
  | [] => Ok a
  | x :: l' => a' ← corps a x; pour l' corps a'
  end.

(** ** Indexing *)

(** [l[i]] for an index coming from [range]. *)
Definition lire {A : Type} (l : list A) (i : nat) : resultat A :=
  match l !! i with
  | Some x => Ok x
  | None => Leve IndexError
  end.

(** Python's normalisation of a caller-supplied index against a length. *)
Definition indice (n : nat) (s : Z) : resultat nat :=
  if decide (0 ≤ s < Z.of_nat n)%Z then Ok (Z.to_nat s)
  else if decide (- Z.of_nat n ≤ s < 0)%Z then Ok (Z.to_nat (Z.of_nat n + s))
  else Leve IndexError.

(** [l[s]] for a caller-supplied index. *)
Definition lire_z {A : Type} (l : list A) (s : Z) : resultat A :=
  i ← indice (length l) s; lire l i.

(** ** graphe.py : [GrapheValue] *)

Record GrapheValue : Type := { matrice : list (list poids) }.

Definition nb_sommets (g : GrapheValue) : nat := length (matrice g).

(** Number of entries of a row that are not [math.inf]. *)
Definition nb_finis (ligne : list poids) : nat :=
  length (filter (λ w, est_inf w = false) ligne).

(** [nb_aretes]: both loops range over the actual lengths, so no read can
    fail; the result is the true division of the count by 2. *)
Definition nb_entrees_finies (m : list (list poids)) : nat :=
  foldl (λ nb ligne, nb + nb_finis ligne) 0 m.

Definition nb_aretes (g : GrapheValue) : Q :=
  (inject_Z (Z.of_nat (nb_entrees_finies (matrice g))) / 2)%Q.

(** [degre_sommet]: [self.matrice[s]] is read before the loop. *)
Definition degre_sommet (g : GrapheValue) (s : Z) : resultat nat :=
  ligne ← lire_z (matrice g) s; Ok (nb_finis ligne).

(** [degres_sommets] *)
Definition degres_sommets (g : GrapheValue) : resultat (list nat) :=
  pour (seq 0 (nb_sommets g))
       (λ lst i, d ← degre_sommet g (Z.of_nat i); Ok (lst ++ [d])) [].

(** [successeurs]: [self.matrice[s][i]] is read inside the loop only. *)
Definition successeurs (g : GrapheValue) (s : Z) : resultat (list nat) :=
  pour (seq 0 (nb_sommets g))
       (λ succs i,
          ligne ← lire_z (matrice g) s;
          w ← lire ligne i;
          Ok (if est_inf w then succs else succs ++ [i])) [].

(** [predecesseurs]: [self.matrice[i][s]]. *)
Definition predecesseurs (g : GrapheValue) (s : Z) : resultat (list nat) :=
  pour (seq 0 (nb_sommets g))
       (λ preds i,
          ligne ← lire (matrice g) i;
          w ← lire_z ligne s;
          Ok (if est_inf w then preds else preds ++ [i])) [].

(** [descendants] and [ascendants] are the same breadth-first loop over two
    neighbour functions.  [enfiler] is the body of the inner [for]:
    [succs[i]] for [i] in [range(len(succs))] is the iteration over [succs]. *)
Definition enfiler (fv : list nat * gset nat) (x : nat) : list nat * gset nat :=
  if decide (x ∈ fv.2) then fv else (fv.1 ++ [x], fv.2 ∪ {[x]}).

Fixpoint parcours (fuel : nat) (voisins : nat → resultat (list nat))
    (file : list nat) (vus : gset nat) : resultat (gset nat) :=
  match file with
  | [] => Ok vus
  | scour :: reste =>
      match fuel with
      | 0 => Epuise
      | S fuel' =>
          vs ← voisins scour;
          let fv := foldl enfiler (reste, vus) vs in
          parcours fuel' voisins fv.1 fv.2
      end
  end.

(** The traversals as [cfc_graphe] and [cc_graphe] start them, through
    [cfc_sommet], on indices of [range]: their argument is a [nat]
    ([descendants_z] below takes the index of a caller).  A vertex enters
    the queue at most once, so the loop runs at most [n + 1] times. *)
Definition descendants (g : GrapheValue) (s : nat) : resultat (gset nat) :=
  parcours (S (nb_sommets g)) (λ x, successeurs g (Z.of_nat x)) [s] ∅.

Definition ascendants (g : GrapheValue) (s : nat) : resultat (gset nat) :=
  parcours (S (nb_sommets g)) (λ x, predecesseurs g (Z.of_nat x)) [s] ∅.

Definition cfc_sommet (m : list (list poids)) (s : nat) : resultat (gset nat) :=
  let graphe := {| matrice := m |} in
  d ← descendants graphe s;
  a ← ascendants graphe s;
  Ok (d ∩ a ∪ {[s]}).

(** [lst.count(x)] *)
Definition compter (l : list (gset nat)) (c : gset nat) : nat :=
  length (filter (λ x, x = c) l).

(** The comprehension [[f(s) for s in range(n) if [f(t) for t in
    range(s)].count(f(s)) < 1]], shared by [cfc_graphe] and [cc_graphe]. *)
Definition sans_doublons (n : nat) (f : nat → resultat (gset nat))
  : resultat (list (gset nat)) :=
  pour (seq 0 n)
       (λ res s,
          avant ← pour (seq 0 s) (λ l s_bis, c ← f s_bis; Ok (l ++ [c])) [];
          c ← f s;
          if decide (compter avant c < 1) then c' ← f s; Ok (res ++ [c'])
          else Ok res) [].

Definition cfc_graphe (g : GrapheValue) : resultat (list (gset nat)) :=
  sans_doublons (length (matrice g)) (cfc_sommet (matrice g)).

Definition graphe_vide (size : nat) : list (list poids) :=
  replicate size (replicate size Infini).

(** [m[i][j] = w] *)
Definition ecrire (m : list (list poids)) (i j : nat) (w : poids)
  : resultat (list (list poids)) :=
  ligne ← lire m i;
  _ ← lire ligne j;
  Ok (<[i := <[j := w]> ligne]> m).

Definition graphe_symetrique (g : GrapheValue) : resultat GrapheValue :=
  let n := nb_sommets g in
  sym ← pour (seq 0 n)
         (λ sym i,
            pour (seq 0 n)
                 (λ sym j,
                    ligne ← lire (matrice g) i;
                    w ← lire ligne j;
                    if est_inf w then Ok sym
                    else sym' ← ecrire sym i j w; ecrire sym' j i w) sym)
         (graphe_vide n);
  Ok {| matrice := sym |}.

Definition cc_sommet (g : GrapheValue) (s : nat) : resultat (gset nat) :=
  sym ← graphe_symetrique g; cfc_sommet (matrice sym) s.

Definition cc_graphe (g : GrapheValue) : resultat (list (gset nat)) :=
  sans_doublons (nb_sommets g) (cc_sommet g).

Definition est_connexe (g : GrapheValue) : resultat bool :=
  ccs ← cc_graphe g; Ok (bool_decide (length ccs = 1)).

(** [max(composantes, key=len)]: the first component of maximal size. *)
Definition max_len (l : list (gset nat)) : resultat (gset nat) :=
  match l with
  | [] => Leve ValueError
  | c :: l' => Ok (foldl (λ best x, if decide (size best < size x) then x else best) c l')
  end.

(** [{old: new for new, old in enumerate(l)}] *)
Definition dict_enumerate (l : list nat) : gmap nat nat :=
  foldl (λ d no, <[no.2 := no.1]> d) ∅ (zip (seq 0 (length l)) l).

(** [d[k]] *)
Definition chercher (d : gmap nat nat) (k : nat) : resultat nat :=
  match d !! k with
  | Some v => Ok v
  | None => Leve KeyError
  end.

(** Body of [for succ in self.successeurs(old_index)] in [plus_grosse_cc]. *)
Definition copier_arete (g : GrapheValue) (plus_grosse : gset nat)
    (index_map : gmap nat nat) (old_index new_index : nat)
    (mat : list (list poids)) (succ : nat) : resultat (list (list poids)) :=
  if decide (succ ∈ plus_grosse) then
    ligne ← lire (matrice g) old_index;
    w ← lire ligne succ;
    k ← chercher index_map succ;
    ecrire mat new_index k w
  else Ok mat.

(** Body of [for old_index in plus_grosse]. *)
Definition copier_sommet (g : GrapheValue) (plus_grosse : gset nat)
    (index_map : gmap nat nat) (mat : list (list poids)) (old_index : nat)
  : resultat (list (list poids)) :=
  new_index ← chercher index_map old_index;
  succs ← successeurs g (Z.of_nat old_index);
  pour succs (copier_arete g plus_grosse index_map old_index new_index) mat.

(** [plus_grosse_cc].  The set [plus_grosse] is iterated twice without
    being modified in between, by [enumerate] and by the [for] loop, so
    both times in the same order.  Python does not fix the order in which
    a set is iterated (in CPython it depends on the hash table behind the
    set, hence on how the set was built), so this order is a parameter
    [ordre] of the embedding, of which [ordre_iteration] states what every
    iteration guarantees. *)
Definition plus_grosse_cc (ordre : gset nat → list nat) (g : GrapheValue)
  : resultat GrapheValue :=
  composantes ← cc_graphe g;
  plus_grosse ← max_len composantes;
  let n := size plus_grosse in
  let index_map := dict_enumerate (ordre plus_grosse) in
  mat ← pour (ordre plus_grosse) (copier_sommet g plus_grosse index_map)
         (graphe_vide n);
  Ok {| matrice := mat |}.

(** Iterating a set yields each of its members once. *)
Definition ordre_iteration (ordre : gset nat → list nat) : Prop :=
  ∀ c, NoDup (ordre c) ∧ ∀ x, x ∈ ordre c ↔ x ∈ c.

(** The increasing order, which CPython follows on a set of integers
    smaller than the size of its hash table, such as [{0, 1, 2}]. *)
Definition croissant (c : gset nat) : list nat := merge_sort (≤) (elements c).

(** An order that is not increasing: CPython iterates the set [{1, 8, 9}]
    that [cc_sommet] builds as [8, 1, 9], the integer 8 falling in the
    first slot of a table of 8 slots. *)
Definition ordre_189 (c : gset nat) : list nat :=
  if decide (c = {[1; 8; 9]}) then [8; 1; 9] else croissant c.

(** ** The traversals, called with an index of the caller

    [descendants], [ascendants], [cfc_sommet] and [cc_sommet] are public
    methods: a caller may pass them any Python integer [s].  That integer
    enters the queue, and [cfc_sommet] adds it to its result, as it is
    given; every other member of the queue and of the sets comes from
    [range].  The sets are here sets of Python integers. *)
Definition enfiler_z (fv : list Z * gset Z) (x : nat) : list Z * gset Z :=
  if decide (Z.of_nat x ∈ fv.2) then fv
  else (fv.1 ++ [Z.of_nat x], fv.2 ∪ {[Z.of_nat x]}).

Fixpoint parcours_z (fuel : nat) (voisins : Z → resultat (list nat))
    (file : list Z) (vus : gset Z) : resultat (gset Z) :=
  match file with
  | [] => Ok vus
  | scour :: reste =>
      match fuel with
      | 0 => Epuise
      | S fuel' =>
          vs ← voisins scour;
          let fv := foldl enfiler_z (reste, vus) vs in
          parcours_z fuel' voisins fv.1 fv.2
      end
  end.

Definition descendants_z (g : GrapheValue) (s : Z) : resultat (gset Z) :=
  parcours_z (S (nb_sommets g)) (successeurs g) [s] ∅.

Definition ascendants_z (g : GrapheValue) (s : Z) : resultat (gset Z) :=
  parcours_z (S (nb_sommets g)) (predecesseurs g) [s] ∅.

Definition cfc_sommet_z (m : list (list poids)) (s : Z) : resultat (gset Z) :=
  let graphe := {| matrice := m |} in
  d ← descendants_z graphe s;
  a ← ascendants_z graphe s;
  Ok (d ∩ a ∪ {[s]}).

Definition cc_sommet_z (g : GrapheValue) (s : Z) : resultat (gset Z) :=
  sym ← graphe_symetrique g; cfc_sommet_z (matrice sym) s.

(** The Python integers of a set of [range] indices. *)
Definition vers_Z (c : gset nat) : gset Z := set_map Z.of_nat c.

(** ** algos.py : [AlgoDijkstra] *)

(** State of the [while] loop of [calculPCCSommet].  [unvisited] is kept
    in increasing order, the order in which CPython iterates a set of
    small non-negative integers built from [range(n)]. *)
Record etat : Type := {
  distances : list poids;
  preds : list (option nat);
  unvisited : list nat
}.

(** [min(l, key=lambda node: distances[node])], after its first element:
    the running minimum is replaced on a strictly smaller key only. *)
Fixpoint min_cle (d : list poids) (meilleur : nat) (cle : poids) (l : list nat)
  : resultat nat :=
  match l with
  | [] => Ok meilleur
  | x :: l' =>
      kx ← lire d x;
      if ltb_p kx cle then min_cle d x kx l' else min_cle d meilleur cle l'
  end.

Definition min_unvisited (d : list poids) (unv : list nat) : resultat nat :=
  match unv with
  | [] => Leve ValueError
  | x :: l => kx ← lire d x; min_cle d x kx l
  end.

(** [unvisited.remove(current)] *)
Definition retirer (current : nat) (unv : list nat) : list nat :=
  filter (λ x, x ≠ current) unv.

(** Body of [for neighbour in range(n)]. *)
Definition relacher (g : GrapheValue) (current : nat)
    (dp : list poids * list (option nat)) (neighbour : nat)
  : resultat (list poids * list (option nat)) :=
  ligne ← lire (matrice g) current;
  w ← lire ligne neighbour;
  if est_inf w then Ok dp
  else
    dc ← lire dp.1 current;
    let alt_distance := plus_p dc w in
    dn ← lire dp.1 neighbour;
    if ltb_p alt_distance dn
    then Ok (<[neighbour := alt_distance]> dp.1, <[neighbour := Some current]> dp.2)
    else Ok dp.

(** Body of [while unvisited]. *)
Definition iteration (g : GrapheValue) (st : etat) : resultat etat :=
  current ← min_unvisited (distances st) (unvisited st);
  dp ← pour (seq 0 (nb_sommets g)) (relacher g current) (distances st, preds st);
  Ok {| distances := dp.1; preds := dp.2;
        unvisited := retirer current (unvisited st) |}.

Fixpoint boucle (fuel : nat) (g : GrapheValue) (st : etat) : resultat etat :=
  match unvisited st with
  | [] => Ok st
  | _ :: _ =>
      match fuel with
      | 0 => Epuise
      | S fuel' => st' ← iteration g st; boucle fuel' g st'
      end
  end.

(** State before the loop, [i] being the normalised source index. *)
Definition etat_initial (n i : nat) : etat :=
  {| distances := <[i := Fini 0]> (replicate n Infini);
     preds := replicate n None;
     unvisited := seq 0 n |}.

Definition calculPCCSommet (g : GrapheValue) (s : Z)
  : resultat (list poids * list (option nat)) :=
  let n := nb_sommets g in
  i ← indice n s;
  st ← boucle n g (etat_initial n i);
  Ok (distances st, preds st).

Definition calculPCCTousSommets (g : GrapheValue)
  : resultat (list (list poids) * list (list (option nat))) :=
  pour (seq 0 (nb_sommets g))
       (λ acc s,
          dp ← calculPCCSommet g (Z.of_nat s);
          Ok (acc.1 ++ [dp.1], acc.2 ++ [dp.2])) ([], []).

(** ** reseau.py : [ReseauSocial] over [AlgoDijkstra] *)

(** [max(a, b)]: [b] only when it is strictly greater. *)
Definition max_p (a b : poids) : poids := if ltb_p a b then b else a.

(** [max(l)] *)
Definition max_liste (l : list poids) : resultat poids :=
  match l with
  | [] => Leve ValueError
  | x :: l' => Ok (foldl max_p x l')
  end.

Definition reseau_degre_sommet (g : GrapheValue) (s : Z) : resultat nat :=
  lst ← pour (seq 0 (nb_sommets g))
        (λ lst i,
           ligne ← lire_z (matrice g) s;
           w ← lire ligne i;
           Ok (if est_inf w then lst else lst ++ [i])) [];
  Ok (length lst).

Definition diametre (g : GrapheValue) : resultat poids :=
  pour (seq 0 (nb_sommets g))
       (λ max_distance s,
          dp ← calculPCCSommet g (Z.of_nat s);
          m ← max_liste dp.1;
          Ok (max_p max_distance m)) (Fini 0).

(** [sum(distances) / (n - 1)], the division of Python numbers, which
    raises on a zero divisor.  With weights that are not negative, a sum
    of distances that meets a zero divisor is the integer [0]: the
    division is Python's, also when the matrix is a numpy array. *)
Definition diviser (a : poids) (k : nat) : resultat poids :=
  match k, a with
  | 0, _ => Leve ZeroDivisionError
  | _, Fini x => Ok (Fini (x / inject_Z (Z.of_nat k))%Q)
  | _, Infini => Ok Infini
  end.

Definition proximite_sommet (g : GrapheValue) (s : Z) : resultat poids :=
  dp ← calculPCCSommet g s;
  diviser (foldl plus_p (Fini 0) dp.1) (nb_sommets g - 1).

(** ** algos.py on binary64 floats

    Python's numbers are IEEE 754 binary64 floats, whose sums round and
    overflow.  This module is [calculPCCSommet] again, on binary64 values
    computed by the Standard Library's [SpecFloat] (precision 53, maximal
    exponent 1024); it evaluates the code on weights where the exact and
    the rounded arithmetic differ. *)
Module Binaire64.

Definition flottant : Type := SpecFloat.spec_float.

(** [math.inf], and the [0] stored in [distances[s]]. *)
Definition inf : flottant := SpecFloat.S754_infinity false.
Definition zero : flottant := SpecFloat.S754_zero false.

(** [a + b] and [a < b] on floats. *)
Definition plus (a b : flottant) : flottant := SpecFloat.SFadd 53 1024 a b.
Definition ltb (a b : flottant) : bool := SpecFloat.SFltb a b.

(** [w != math.inf] is [negb (est_inf w)]. *)
Definition est_inf (w : flottant) : bool := SpecFloat.SFeqb w inf.

Record GrapheValue : Type := { matrice : list (list flottant) }.

Definition nb_sommets (g : GrapheValue) : nat := length (matrice g).

Record etat : Type := {
  distances : list flottant;
  preds : list (option nat);
  unvisited : list nat
}.

Fixpoint min_cle (d : list flottant) (meilleur : nat) (cle : flottant) (l : list nat)
  : resultat nat :=
  match l with
  | [] => Ok meilleur
  | x :: l' =>
      kx ← lire d x;
      if ltb kx cle then min_cle d x kx l' else min_cle d meilleur cle l'
  end.

Definition min_unvisited (d : list flottant) (unv : list nat) : resultat nat :=
  match unv with
  | [] => Leve ValueError
  | x :: l => kx ← lire d x; min_cle d x kx l
  end.

Definition relacher (g : GrapheValue) (current : nat)
    (dp : list flottant * list (option nat)) (neighbour : nat)
  : resultat (list flottant * list (option nat)) :=
  ligne ← lire (matrice g) current;
  w ← lire ligne neighbour;
  if est_inf w then Ok dp
  else
    dc ← lire dp.1 current;
    let alt_distance := plus dc w in
    dn ← lire dp.1 neighbour;
    if ltb alt_distance dn
    then Ok (<[neighbour := alt_distance]> dp.1, <[neighbour := Some current]> dp.2)
    else Ok dp.

Definition iteration (g : GrapheValue) (st : etat) : resultat etat :=
  current ← min_unvisited (distances st) (unvisited st);
  dp ← pour (seq 0 (nb_sommets g)) (relacher g current) (distances st, preds st);
  Ok {| distances := dp.1; preds := dp.2;
        unvisited := retirer current (unvisited st) |}.

Fixpoint boucle (fuel : nat) (g : GrapheValue) (st : etat) : resultat etat :=
  match unvisited st with
  | [] => Ok st
  | _ :: _ =>
      match fuel with
      | 0 => Epuise
      | S fuel' => st' ← iteration g st; boucle fuel' g st'
      end
  end.

Definition etat_initial (n i : nat) : etat :=
  {| distances := <[i := zero]> (replicate n inf);
     preds := replicate n None;
     unvisited := seq 0 n |}.

Definition calculPCCSommet (g : GrapheValue) (s : Z)
  : resultat (list flottant * list (option nat)) :=
  let n := nb_sommets g in
  i ← indice n s;
  st ← boucle n g (etat_initial n i);
  Ok (distances st, preds st).

(** The float [1e308], that is [0x1.1ccf385ebc8a0p+1023]. *)
Definition f1e308 : flottant := SpecFloat.S754_finite false 0x11ccf385ebc8a0 971.

(** The path [0 - 1 - 2] whose two edges weigh [1e308]. *)
Definition chemin_lourd : GrapheValue :=
  {| matrice := [[inf; f1e308; inf]; [f1e308; inf; f1e308]; [inf; f1e308; inf]] |}.

(** The floats [1 + 2^-52], [2^-53] and [2^-52]. *)
Definition un_plus_ulp : flottant := SpecFloat.S754_finite false 4503599627370497 (-52).
Definition demi_ulp : flottant := SpecFloat.S754_finite false 4503599627370496 (-105).
Definition ulp : flottant := SpecFloat.S754_finite false 4503599627370496 (-104).

(** The path [0 - 1 - 2 - 3] whose edges weigh [1 + 2^-52], [2^-53] and
    [2^-52], in both directions. *)
Definition chemin_arrondi : GrapheValue :=
  {| matrice := [[inf; un_plus_ulp; inf; inf];
                 [un_plus_ulp; inf; demi_ulp; inf];
                 [inf; demi_ulp; inf; ulp];
                 [inf; inf; ulp; inf]] |}.

End Binaire64.

(** The float nearest to a rational weight, and the binary64 matrix of a
    graph with rational weights. *)
Definition binaire64_de_Z (z : Z) : Binaire64.flottant :=
  SpecFloat.binary_normalize 53 1024 z 0 false.

Definition binaire64_de_poids (w : poids) : Binaire64.flottant :=
  match w with
  | Fini q => SpecFloat.SFdiv 53 1024 (binaire64_de_Z (Qnum q))
                (binaire64_de_Z (Zpos (Qden q)))
  | Infini => Binaire64.inf
  end.

Definition binaire64_de_graphe (g : GrapheValue) : Binaire64.GrapheValue :=
  {| Binaire64.matrice := map (map binaire64_de_poids) (matrice g) |}.

(** ** Notions used by the statements *)

(** Entry [(i, j)] of a matrix, [Infini] where the matrix has no such cell. *)
Definition entree (m : list (list poids)) (i j : nat) : poids :=
  match m !! i with
  | Some ligne => default Infini (ligne !! j)
  | None => Infini
  end.

(** The data-model invariant: [n] rows of [n] entries. *)
Definition carree (g : GrapheValue) : Prop :=
  Forall (λ ligne, length ligne = nb_sommets g) (matrice g).

(** [a == b] on floats. *)
Definition eq_p (a b : poids) : Prop :=
  match a, b with
  | Fini x, Fini y => (x == y)%Q
  | Infini, Infini => True
  | _, _ => False
  end.

Global Instance le_p_dec (a b : poids) : Decision (le_p a b).
Proof.
  destruct a as [x|], b as [y|]; cbn;
    [ destruct (Qlt_le_dec y x); [right; lra | left; lra]
    | left; exact I | right; tauto | left; exact I ].
Defined.

Global Instance eq_p_dec (a b : poids) : Decision (eq_p a b).
Proof.
  destruct a as [x|], b as [y|]; cbn;
    [ apply Qeq_dec | right; tauto | right; tauto | left; exact I ].
Defined.

(** Every weight that is not absent is non-negative. *)
Definition poids_positifs (g : GrapheValue) : Prop :=
  Forall (Forall (le_p (Fini 0))) (matrice g).

(** There is an edge from [a] to [b]. *)
Definition arete (g : GrapheValue) (a b : nat) : Prop :=
  ∃ q, entree (matrice g) a b = Fini q.

(** [v] is reachable from [s] along edges. *)
Definition accessible (g : GrapheValue) : nat → nat → Prop := rtc (arete g).

(** Following the predecessor pointers from [v]: the vertices met, the
    last one found first, are pushed in front of [acc]. *)
Fixpoint remonter (p : list (option nat)) (fuel : nat) (v : nat) (acc : list nat)
  : option (list nat) :=
  match p !! v with
  | Some None => Some (v :: acc)
  | Some (Some u) =>
      match fuel with
      | 0 => None
      | S fuel' => remonter p fuel' u (v :: acc)
      end
  | None => None
  end.

(** Every step of the walk [a, l] is an edge of the graph. *)
Fixpoint chemin_dans (g : GrapheValue) (a : nat) (l : list nat) : Prop :=
  match l with
  | [] => True
  | b :: l' => arete g a b ∧ chemin_dans g b l'
  end.

(** Weights of the walk [a, l] added from its origin on, starting from [acc]. *)
Fixpoint poids_chemin (g : GrapheValue) (acc : poids) (a : nat) (l : list nat)
  : poids :=
  match l with
  | [] => acc
  | b :: l' => poids_chemin g (plus_p acc (entree (matrice g) a b)) b l'
  end.

(** Ten vertices, of which 1, 8 and 9 are joined by the edges [1 - 8] of
    weight 2 and [8 - 9] of weight 3. *)
Definition graphe_189 : GrapheValue :=
  {| matrice :=
       (λ i, (λ j, if decide ((i, j) ∈ [(1, 8); (8, 1)]) then Fini 2
                   else if decide ((i, j) ∈ [(8, 9); (9, 8)]) then Fini 3
                   else Infini) <$> seq 0 10) <$> seq 0 10 |}.

(** The seven-vertex network of the [__main__] blocks of algos.py and
    reseau.py. *)
Definition un : poids := Fini 1.
Definition oo : poids := Infini.
Definition reseau7 : GrapheValue :=
  {| matrice :=
       [ [oo; un; oo; un; oo; oo; oo];
         [un; oo; un; un; oo; oo; oo];
         [oo; un; oo; un; un; oo; oo];
         [un; un; un; oo; un; oo; oo];
         [oo; oo; un; un; oo; un; oo];
         [oo; oo; oo; oo; un; oo; un];
         [oo; oo; oo; oo; oo; un; oo] ] |}.

(** The four-vertex graph [m3] of graphe.py, vertex 3 isolated. *)
Definition graphe_m3 : GrapheValue :=
  {| matrice :=
       [ [oo; Fini 3; Fini 5; oo];
         [Fini 3; oo; Fini 8; oo];
         [Fini 5; Fini 8; oo; oo];
         [oo; oo; oo; oo] ] |}.

(** [k] executions of the body of the [while] loop. *)
Fixpoint iterer (k : nat) (g : GrapheValue) (st : etat) : resultat etat :=
  match k with
  | 0 => Ok st
  | S k' => st' ← iteration g st; iterer k' g st'
  end.

(** Shape of a loop state of [calculPCCSommet] on a graph of [n] vertices. *)
Definition etat_ok (n : nat) (st : etat) : Prop :=
  length (distances st) = n ∧ length (preds st) = n ∧
  (∀ x, x ∈ unvisited st → x < n) ∧ NoDup (unvisited st).

(** Finite tentative distances are carried by walks from the source, and a
    predecessor is only recorded together with a finite distance. *)
Definition inv_accessible (g : GrapheValue) (s : nat)
    (dp : list poids * list (option nat)) : Prop :=
  length dp.1 = nb_sommets g ∧ length dp.2 = nb_sommets g ∧
  (∀ v x, dp.1 !! v = Some (Fini x) → accessible g s v) ∧
  (∀ v u, dp.2 !! v = Some (Some u) → ∃ x, dp.1 !! v = Some (Fini x)).

(** The pointers of the vertices of [vis], a list of vertices in the
    reverse of the order of their selection, lead to vertices selected
    earlier. *)
Inductive bien_fonde (p : list (option nat)) : list nat → Prop :=
| bf_nil : bien_fonde p []
| bf_cons c vis :
    bien_fonde p vis →
    (∀ u, p !! c = Some (Some u) → u ∈ vis) →
    bien_fonde p (c :: vis).

(** Invariant of [calculPCCSommet] for non-negative weights; [vis] lists
    the vertices already selected, [unv] is the unvisited set. *)
Record inv_dijkstra (g : GrapheValue) (s : nat) (vis unv : list nat)
    (dp : list poids * list (option nat)) : Prop := {
  inv_len_d : length dp.1 = nb_sommets g;
  inv_len_p : length dp.2 = nb_sommets g;
  inv_couvre : ∀ x, x < nb_sommets g → x ∈ vis ∨ x ∈ unv;
  inv_disjoint : ∀ x, x ∈ vis → x ∉ unv;
  inv_taille : length vis + length unv = nb_sommets g;
  inv_borne : ∀ x, x ∈ unv → x < nb_sommets g;
  inv_nodup : NoDup unv;
  inv_ordre : ∀ u v du dv, u ∈ vis → v ∈ unv →
    dp.1 !! u = Some du → dp.1 !! v = Some dv → le_p du dv;
  inv_pred : ∀ v u, dp.2 !! v = Some (Some u) →
    u ∈ vis ∧ ∃ du q, dp.1 !! u = Some (Fini du) ∧
      entree (matrice g) u v = Fini q ∧ dp.1 !! v = Some (Fini (du + q)%Q);
  inv_source_d : dp.1 !! s = Some (Fini 0);
  inv_source_p : dp.2 !! s = Some None;
  inv_positif : ∀ v x, dp.1 !! v = Some (Fini x) → (0 <= x)%Q;
  inv_atteint : ∀ v x, dp.1 !! v = Some (Fini x) → v ≠ s →
    ∃ u, dp.2 !! v = Some (Some u);
  inv_bien_fonde : bien_fonde dp.2 vis
}.

(** During the relaxations from [c], no selected vertex is farther than [c]. *)
Definition plus_loin (vis : list nat) (c : nat) (d : list poids) : Prop :=
  ∀ u du dc, u ∈ vis → d !! u = Some du → d !! c = Some dc → le_p du dc.

(** The diameter as the glossary words it: the largest of the finite
    entries of the distance matrix [D]. *)
Definition diametre_fini (D : list (list poids)) : poids :=
  foldl max_p (Fini 0) (filter (λ w, est_inf w = false) (concat D)).

(** A matrix of [k] rows of [k] entries. *)
Definition dims (k : nat) (m : list (list poids)) : Prop :=
  length m = k ∧ Forall (λ ligne, length ligne = k) m.

(** State of a [k × k] matrix that starts as [graphe_vide k] and is filled
    cell by cell towards the values [cible], up to the relation [R]: a
    cell is still [math.inf] or holds its target, and the cells of [S] hold
    their target. *)
Definition rempli (k : nat) (R : relation poids) (cible : nat → nat → poids)
    (S : nat → nat → Prop) (m : list (list poids)) : Prop :=
  dims k m ∧
  ∀ a b, a < k → b < k →
    (entree m a b = Infini ∨ R (entree m a b) (cible a b)) ∧
    (S a b → R (entree m a b) (cible a b)).

(** [matrice[i][j]] and [matrice[j][i]] related by [R], for all vertices
    [i], [j]; [symetrique] is the case of Python's [==]. *)
Definition symetrique_pour (R : relation poids) (g : GrapheValue) : Prop :=
  Forall (λ i, Forall (λ j, R (entree (matrice g) i j) (entree (matrice g) j i))
                      (seq 0 (nb_sommets g)))
         (seq 0 (nb_sommets g)).

Definition symetrique (g : GrapheValue) : Prop := symetrique_pour eq_p g.

(** The matrix whose edges are those of a list of unordered pairs, all of
    weight 1. *)
Definition matrice_aretes (n : nat) (aretes : list (nat * nat)) : list (list poids) :=
  (λ i, (λ j, if decide ((i, j) ∈ aretes ∨ (j, i) ∈ aretes) then Fini 1 else Infini)
          <$> seq 0 n) <$> seq 0 n.

(** Target of the copy done by [plus_grosse_cc]: the weight between the
    original vertices numbered [a] and [b] in [ordre]. *)
Definition cible_cc (g : GrapheValue) (ordre : list nat) (a b : nat) : poids :=
  match ordre !! a, ordre !! b with
  | Some oa, Some ob => entree (matrice g) oa ob
  | _, _ => Infini
  end.

(** ** reseau.py : the other metrics *)

(** [densite]: both operands of the last division are floats; it raises
    when [total_nodes * (total_nodes - 1) / 2] is zero. *)
Definition densite (g : GrapheValue) : resultat Q :=
  let total_edges := nb_aretes g in
  let total_nodes := Z.of_nat (nb_sommets g) in
  let max_edges := (inject_Z (total_nodes * (total_nodes - 1)) / 2)%Q in
  if Qeq_bool max_edges 0 then Leve ZeroDivisionError
  else Ok (total_edges / max_edges)%Q.

(** [degre_moyen]: the sum of the degrees computed by the class itself,
    divided by the number of vertices. *)
Definition degre_moyen (g : GrapheValue) : resultat Q :=
  total ← pour (seq 0 (nb_sommets g))
          (λ total i, d ← reseau_degre_sommet g (Z.of_nat i); Ok (total + d)) 0;
  if decide (nb_sommets g = 0) then Leve ZeroDivisionError
  else Ok (inject_Z (Z.of_nat total) / inject_Z (Z.of_nat (nb_sommets g)))%Q.

(** [sum(distances)] *)
Definition somme (d : list poids) : poids := foldl plus_p (Fini 0) d.

Definition longueur_moyenne (g : GrapheValue) : resultat poids :=
  total_distance ← pour (seq 0 (nb_sommets g))
    (λ total_distance s,
       dp ← calculPCCSommet g (Z.of_nat s);
       Ok (plus_p total_distance (somme dp.1))) (Fini 0);
  diviser total_distance (nb_sommets g * (nb_sommets g - 1)).

(** [sum] over a list of integers. *)
Definition somme_nat (l : list nat) : nat := foldl Nat.add 0 l.

(** The edge from [u] to [v], if there is one, cannot improve the
    tentative distance of [v]. *)
Definition detendue (g : GrapheValue) (d : list poids) (u v : nat) : Prop :=
  ∀ du dv q, d !! u = Some du → d !! v = Some dv →
    entree (matrice g) u v = Fini q → le_p dv (plus_p du (Fini q)).

(** [y] is one of the neighbours that the function [voisins] returns for [x]. *)
Definition voisin (voisins : nat → resultat (list nat)) (x y : nat) : Prop :=
  ∃ l, voisins x = Ok l ∧ y ∈ l.

(** Invariant of a traversal started at [s]: the vertices seen are reached
    from [s] by at least one step, the queue holds [s] or vertices seen,
    and a vertex that has left the queue has all its neighbours seen. *)
Definition inv_parcours (voisins : nat → resultat (list nat)) (s : nat)
    (file : list nat) (vus : gset nat) : Prop :=
  (∀ x, x ∈ vus → tc (voisin voisins) s x) ∧
  (∀ x, x ∈ file → x = s ∨ x ∈ vus) ∧
  (∀ x, x = s ∨ x ∈ vus → x ∈ file ∨ ∀ y, voisin voisins x y → y ∈ vus).

(** State of the matrix that [graphe_symetrique] fills: it is symmetric,
    a cell is still [math.inf] or holds the weight of one of the two
    directions, and the cells of [S] whose weight is given hold a weight. *)
Definition inv_symetrique (g : GrapheValue) (S : nat → nat → Prop)
    (sym : list (list poids)) : Prop :=
  dims (nb_sommets g) sym ∧
  ∀ a b,
    entree sym a b = entree sym b a ∧
    (entree sym a b = Infini ∨ entree sym a b = entree (matrice g) a b
     ∨ entree sym a b = entree (matrice g) b a) ∧
    (S a b → entree (matrice g) a b ≠ Infini → entree sym a b ≠ Infini).

(** The only exception that an outcome can be is [IndexError]. *)
Definition seule_IndexError {A : Type} (r : resultat A) : Prop :=
  ∀ e, r = Leve e → e = IndexError.

(** * Properties *)

(** ** The outcome monad and the [for] loop *)

Lemma bind_Ok_inv {A B : Type} (m : resultat A) (f : A → resultat B) (b : B) :
  m ≫= f = Ok b → ∃ a, m = Ok a ∧ f a = Ok b.
Proof. destruct m as [a| |]; cbn; [eauto | discriminate | discriminate]. Qed.

Lemma bind_Ok {A B : Type} (a : A) (f : A → resultat B) : Ok a ≫= f = f a.
Proof. reflexivity. Qed.

Lemma lire_Ok {A : Type} (l : list A) (i : nat) (x : A) :
  lire l i = Ok x ↔ l !! i = Some x.
Proof. unfold lire. destruct (l !! i); split; congruence. Qed.

Lemma lire_lt {A : Type} (l : list A) (i : nat) :
  i < length l → ∃ x, lire l i = Ok x ∧ l !! i = Some x.
Proof.
  intros Hi. destruct (lookup_lt_is_Some_2 l i Hi) as [x Hx].
  exists x. by rewrite lire_Ok.
Qed.

(** Invariant rule for [for]: the invariant may depend on the part of the
    list already consumed. *)
Lemma pour_prefixe_inv {A B : Type} (I : list B → A → Prop)
    (l : list B) (f : A → B → resultat A) (a a' : A) :
  I [] a →
  (∀ l1 x l2 b b', l = l1 ++ x :: l2 → I l1 b → f b x = Ok b' → I (l1 ++ [x]) b') →
  pour l f a = Ok a' → I l a'.
Proof.
  intros H0 Hstep.
  enough (∀ l2 l1 b, l = l1 ++ l2 → I l1 b → pour l2 f b = Ok a' → I l a') as Haux
    by (apply (Haux l [] a); done).
  induction l2 as [|x l2 IH]; intros l1 b Hl Hb Hrun; cbn in Hrun.
  - injection Hrun as <-. by rewrite Hl, app_nil_r.
  - apply bind_Ok_inv in Hrun as (b' & Hf & Hrun).
    apply (IH (l1 ++ [x]) b'); [by rewrite <- app_assoc | by eapply Hstep | done].
Qed.

(** The same with the proof that no step raises. *)
Lemma pour_prefixe_ok {A B : Type} (I : list B → A → Prop)
    (l : list B) (f : A → B → resultat A) (a : A) :
  I [] a →
  (∀ l1 x l2 b, l = l1 ++ x :: l2 → I l1 b → ∃ b', f b x = Ok b' ∧ I (l1 ++ [x]) b') →
  ∃ a', pour l f a = Ok a' ∧ I l a'.
Proof.
  intros H0 Hstep.
  enough (∀ l2 l1 b, l = l1 ++ l2 → I l1 b → ∃ a', pour l2 f b = Ok a' ∧ I l a') as Haux
    by (apply (Haux l [] a); done).
  induction l2 as [|x l2 IH]; intros l1 b Hl Hb; cbn.
  - exists b. by rewrite Hl, app_nil_r.
  - destruct (Hstep l1 x l2 b Hl Hb) as (b' & -> & Hb'). cbn.
    apply (IH (l1 ++ [x]) b'); [by rewrite <- app_assoc | done].
Qed.

Lemma pour_inv {A B : Type} (I : A → Prop)
    (l : list B) (f : A → B → resultat A) (a a' : A) :
  I a →
  (∀ x b b', x ∈ l → I b → f b x = Ok b' → I b') →
  pour l f a = Ok a' → I a'.
Proof.
  intros H0 Hstep. apply (pour_prefixe_inv (λ _, I)); [done|].
  intros l1 x l2 b b' -> Hb Hf. eapply Hstep; [|done..].
  apply elem_of_app. right. apply list_elem_of_here.
Qed.

Lemma pour_ok {A B : Type} (I : A → Prop)
    (l : list B) (f : A → B → resultat A) (a : A) :
  I a →
  (∀ x b, x ∈ l → I b → ∃ b', f b x = Ok b' ∧ I b') →
  ∃ a', pour l f a = Ok a' ∧ I a'.
Proof.
  intros H0 Hstep. apply (pour_prefixe_ok (λ _, I)); [done|].
  intros l1 x l2 b -> Hb. apply Hstep; [|done].
  apply elem_of_app. right. apply list_elem_of_here.
Qed.

(** ** Order on weights *)

Lemma ltb_p_true (a b : poids) : ltb_p a b = true → le_p a b ∧ ¬ le_p b a.
Proof.
  destruct a as [x|], b as [y|]; cbn; try done.
  - rewrite negb_true_iff. intros H.
    assert (¬ (y <= x)%Q) by (rewrite <- Qle_bool_iff; congruence).
    split; [lra | done].
  - intros _. split; [done | tauto].
Qed.

Lemma ltb_p_false (a b : poids) : ltb_p a b = false → le_p b a.
Proof.
  destruct a as [x|], b as [y|]; cbn; try done.
  rewrite negb_false_iff. by rewrite Qle_bool_iff.
Qed.

Lemma le_p_refl (a : poids) : le_p a a.
Proof. destruct a; cbn; [lra | done]. Qed.

Lemma le_p_trans (a b c : poids) : le_p a b → le_p b c → le_p a c.
Proof. destruct a, b, c; cbn; try done; lra. Qed.

Lemma ltb_p_fini (a b : poids) : ltb_p a b = true → ∃ x, a = Fini x.
Proof. destruct a; [eauto | done]. Qed.

(** ** Dijkstra: the steps of the loop *)

Lemma entree_lire (m : list (list poids)) (i j : nat) (ligne : list poids) (w : poids) :
  lire m i = Ok ligne → lire ligne j = Ok w → entree m i j = w.
Proof. rewrite !lire_Ok. unfold entree. by intros -> ->. Qed.

(** What one relaxation does, when it does not raise. *)
Lemma relacher_cas (g : GrapheValue) (c j : nat) (dp dp' : list poids * list (option nat)) :
  relacher g c dp j = Ok dp' →
  dp' = dp ∨
  ∃ q dc dn, entree (matrice g) c j = Fini q ∧ dp.1 !! c = Some dc ∧
    dp.1 !! j = Some dn ∧ ltb_p (plus_p dc (Fini q)) dn = true ∧
    dp' = (<[j := plus_p dc (Fini q)]> dp.1, <[j := Some c]> dp.2).
Proof.
  unfold relacher. intros H.
  apply bind_Ok_inv in H as (ligne & Hl & H).
  apply bind_Ok_inv in H as (w & Hw & H).
  pose proof (entree_lire _ _ _ _ _ Hl Hw) as He.
  destruct w as [q|]; cbn in H; [|left; congruence].
  apply bind_Ok_inv in H as (dc & Hdc & H).
  apply bind_Ok_inv in H as (dn & Hdn & H).
  apply lire_Ok in Hdc, Hdn.
  destruct (ltb_p (plus_p dc (Fini q)) dn) eqn:Hlt; [|left; congruence].
  right. exists q, dc, dn. repeat split; try done. congruence.
Qed.

Lemma relacher_longueurs (g : GrapheValue) (c j : nat) (dp dp' : list poids * list (option nat)) :
  relacher g c dp j = Ok dp' →
  length dp'.1 = length dp.1 ∧ length dp'.2 = length dp.2.
Proof.
  intros H. apply relacher_cas in H as [->|(q & dc & dn & _ & _ & _ & _ & ->)]; [done|].
  cbn. by rewrite !length_insert.
Qed.

Lemma min_cle_dans (d : list poids) (l : list nat) (best c : nat) (cle : poids) :
  min_cle d best cle l = Ok c → c = best ∨ c ∈ l.
Proof.
  revert best cle. induction l as [|x l IH]; intros best cle H; cbn in H.
  - left. congruence.
  - apply bind_Ok_inv in H as (kx & _ & H).
    destruct (ltb_p kx cle); apply IH in H as [->|H];
      (by left) || (right; by constructor).
Qed.

Lemma min_unvisited_dans (d : list poids) (unv : list nat) (c : nat) :
  min_unvisited d unv = Ok c → c ∈ unv.
Proof.
  destruct unv as [|x l]; [done|]. cbn. intros H.
  apply bind_Ok_inv in H as (kx & _ & H).
  apply min_cle_dans in H as [->|H]; by constructor.
Qed.

Lemma min_cle_ok (d : list poids) (l : list nat) (best : nat) (cle : poids) :
  d !! best = Some cle →
  (∀ x, x ∈ l → x < length d) →
  ∃ c kc, min_cle d best cle l = Ok c ∧ d !! c = Some kc ∧ le_p kc cle ∧
    ∀ x, x ∈ l → ∃ kx, d !! x = Some kx ∧ le_p kc kx.
Proof.
  revert best cle. induction l as [|x l IH]; intros best cle Hb Hl; cbn.
  - exists best, cle. repeat split; [done | apply le_p_refl |].
    intros x Hx. by apply elem_of_nil in Hx.
  - destruct (lire_lt d x) as (kx & -> & Hkx); [apply Hl; by constructor|]. cbn.
    assert (∀ y, y ∈ l → y < length d) as Hl' by (intros y Hy; apply Hl; by constructor).
    destruct (ltb_p kx cle) eqn:Hlt.
    + destruct (IH x kx Hkx Hl') as (c & kc & -> & Hc & Hle & Hall).
      exists c, kc. repeat split; [done| |].
      * apply ltb_p_true in Hlt as [Hlt _]. by eapply le_p_trans.
      * intros y [->|Hy]%elem_of_cons; [eauto | by apply Hall].
    + destruct (IH best cle Hb Hl') as (c & kc & -> & Hc & Hle & Hall).
      exists c, kc. repeat split; [done..|].
      intros y [->|Hy]%elem_of_cons; [|by apply Hall].
      exists kx. split; [done|]. apply ltb_p_false in Hlt. by eapply le_p_trans.
Qed.

(** The selected vertex is unvisited and of minimal tentative distance. *)
Lemma min_unvisited_ok (d : list poids) (unv : list nat) :
  unv ≠ [] →
  (∀ x, x ∈ unv → x < length d) →
  ∃ c kc, min_unvisited d unv = Ok c ∧ c ∈ unv ∧ d !! c = Some kc ∧
    ∀ x, x ∈ unv → ∃ kx, d !! x = Some kx ∧ le_p kc kx.
Proof.
  destruct unv as [|x l]; [done|]. intros _ Hl. cbn.
  destruct (lire_lt d x) as (kx & Hr & Hkx); [apply Hl; by constructor|].
  rewrite Hr. cbn.
  destruct (min_cle_ok d l x kx Hkx) as (c & kc & Hm & Hc & Hle & Hall).
  { intros y Hy. apply Hl. by constructor. }
  exists c, kc. repeat split; [done| |done|].
  - apply min_cle_dans in Hm as [->|Hm]; by constructor.
  - intros y [->|Hy]%elem_of_cons; [eauto | by apply Hall].
Qed.

Lemma elem_of_retirer (c x : nat) (unv : list nat) :
  x ∈ retirer c unv ↔ x ∈ unv ∧ x ≠ c.
Proof. unfold retirer. rewrite list_elem_of_filter. tauto. Qed.

Lemma NoDup_retirer (c : nat) (unv : list nat) : NoDup unv → NoDup (retirer c unv).
Proof. apply NoDup_filter. Qed.

Lemma retirer_absent (c : nat) (unv : list nat) : c ∉ unv → retirer c unv = unv.
Proof.
  unfold retirer. induction unv as [|x l IH]; intros Hc; [done|].
  rewrite filter_cons. apply not_elem_of_cons in Hc as [Hne Hc].
  rewrite decide_True by congruence. f_equal. by apply IH.
Qed.

(** [remove] takes exactly one vertex out of the set. *)
Lemma length_retirer (c : nat) (unv : list nat) :
  NoDup unv → c ∈ unv → length (retirer c unv) + 1 = length unv.
Proof.
  unfold retirer. induction unv as [|x l IH]; intros Hnd Hc.
  - by apply elem_of_nil in Hc.
  - apply NoDup_cons in Hnd as [Hx Hnd]. rewrite filter_cons.
    destruct (decide (x = c)) as [->|Hne].
    + rewrite decide_False by tauto.
      fold (retirer c l). rewrite retirer_absent by done. cbn. lia.
    + rewrite decide_True by done. cbn.
      apply elem_of_cons in Hc as [->|Hc]; [done|].
      specialize (IH Hnd Hc). lia.
Qed.

(** ** Dijkstra: termination *)

Section Termination.

Variable g : GrapheValue.
Hypothesis Hcarree : carree g.

Local Abbreviation n := (nb_sommets g).

Lemma lire_ligne (i : nat) :
  i < n → ∃ ligne, lire (matrice g) i = Ok ligne ∧ length ligne = n.
Proof using Hcarree.
  intros Hi. destruct (lire_lt (matrice g) i Hi) as (ligne & Hr & Hl).
  exists ligne. split; [done|].
  unfold carree in Hcarree. rewrite Forall_lookup in Hcarree. by eapply Hcarree.
Qed.

Lemma lire_entree (i j : nat) :
  i < n → j < n →
  ∃ ligne, lire (matrice g) i = Ok ligne ∧ lire ligne j = Ok (entree (matrice g) i j).
Proof using Hcarree.
  intros Hi Hj. destruct (lire_ligne i Hi) as (ligne & Hr & Hlen).
  exists ligne. split; [done|].
  destruct (lire_lt ligne j) as (w & Hw & _); [lia|].
  by rewrite (entree_lire _ _ _ _ _ Hr Hw).
Qed.

Lemma relacher_ok (c j : nat) (dp : list poids * list (option nat)) :
  c < n → j < n → length dp.1 = n →
  ∃ dp', relacher g c dp j = Ok dp'.
Proof using Hcarree.
  intros Hc Hj Hd. unfold relacher.
  destruct (lire_entree c j Hc Hj) as (ligne & Hl & Hw).
  rewrite Hl, bind_Ok, Hw, bind_Ok.
  destruct (lire_lt dp.1 c) as (dc & Hdc & _); [lia|].
  destruct (lire_lt dp.1 j) as (dn & Hdn & _); [lia|].
  destruct (entree (matrice g) c j) as [q|]; cbn; [|eauto].
  rewrite Hdc, bind_Ok, Hdn, bind_Ok.
  destruct (ltb_p _ dn); eauto.
Qed.

(** One turn of the loop on a non-empty set: it does not raise, and
    takes one vertex out of [unvisited]. *)
Lemma iteration_ok (st : etat) :
  etat_ok n st → unvisited st ≠ [] →
  ∃ c st', iteration g st = Ok st' ∧ etat_ok n st' ∧ c ∈ unvisited st ∧
    unvisited st' = retirer c (unvisited st).
Proof using Hcarree.
  intros (Hd & Hp & Hlt & Hnd) Hne. unfold iteration.
  destruct (min_unvisited_ok (distances st) (unvisited st) Hne)
    as (c & kc & -> & Hc & _); [by rewrite Hd|]. cbn.
  destruct (pour_ok (λ dp, length dp.1 = n ∧ length dp.2 = n)
              (seq 0 n) (relacher g c) (distances st, preds st))
    as (dp & -> & Hd' & Hp'); [done| |].
  { intros j b Hj [Hb1 Hb2]. apply elem_of_seq in Hj.
    destruct (relacher_ok c j b) as (b' & Hb'); [by apply Hlt | lia | done |].
    exists b'. split; [done|].
    apply relacher_longueurs in Hb' as [-> ->]. done. }
  cbn. eexists c, _. split; [done|]. split; [|done].
  repeat split; cbn; [done | done | | by apply NoDup_retirer].
  intros x [Hx _]%elem_of_retirer. by apply Hlt.
Qed.

Lemma iterer_ok (k : nat) (st : etat) :
  etat_ok n st → k ≤ length (unvisited st) →
  ∃ st', iterer k g st = Ok st' ∧ etat_ok n st' ∧
    length (unvisited st') + k = length (unvisited st).
Proof using Hcarree.
  revert st. induction k as [|k IH]; intros st Hok Hk; cbn.
  - exists st. split; [done|]. split; [done | lia].
  - destruct (iteration_ok st Hok) as (c & st1 & -> & Hok1 & Hc & Hunv).
    { intros Hnil. rewrite Hnil in Hk. cbn in Hk. lia. }
    cbn. pose proof (length_retirer c (unvisited st)) as Hlen.
    rewrite <- Hunv in Hlen. destruct Hok as (_ & _ & _ & Hnd).
    specialize (Hlen Hnd Hc).
    destruct (IH st1 Hok1) as (st' & -> & Hok' & Hlen'); [lia|].
    exists st'. split; [done|]. split; [done | lia].
Qed.

(** With a bound at least the size of [unvisited], the [while] loop
    stops by itself after that many turns. *)
Lemma boucle_iterer (fuel : nat) (st : etat) :
  etat_ok n st → length (unvisited st) ≤ fuel →
  ∃ st', boucle fuel g st = Ok st' ∧
    iterer (length (unvisited st)) g st = Ok st' ∧
    etat_ok n st' ∧ unvisited st' = [].
Proof using Hcarree.
  revert st. induction fuel as [|fuel IH]; intros st Hok Hlen.
  - destruct (unvisited st) eqn:Hunv; [|cbn in Hlen; lia].
    exists st. cbn. by rewrite Hunv.
  - destruct (unvisited st) as [|x l] eqn:Hunv.
    { exists st. cbn. by rewrite Hunv. }
    destruct (iteration_ok st Hok) as (c & st1 & Hit & Hok1 & Hc & Hunv1);
      [by rewrite Hunv|].
    pose proof (length_retirer c (unvisited st)) as Hl.
    rewrite <- Hunv1 in Hl. destruct Hok as (_ & _ & _ & Hnd).
    specialize (Hl Hnd Hc). rewrite Hunv in Hl. cbn in Hl, Hlen.
    destruct (IH st1 Hok1) as (st' & Hb & Hi & Hok' & Hnil); [lia|].
    exists st'. cbn [boucle iterer length]. rewrite Hunv, Hit. cbn.
    assert (length (unvisited st1) = length l) as Heq by lia.
    rewrite <- Heq. done.
Qed.

Lemma etat_initial_ok (s : nat) : etat_ok n (etat_initial n s).
Proof.
  repeat split; cbn.
  - by rewrite length_insert, length_replicate.
  - by rewrite length_replicate.
  - intros x Hx%elem_of_seq. lia.
  - apply NoDup_seq.
Qed.

End Termination.

Lemma indice_nat (n s : nat) : s < n → indice n (Z.of_nat s) = Ok s.
Proof.
  intros Hs. unfold indice. rewrite decide_True by lia. by rewrite Nat2Z.id.
Qed.

Lemma indice_Ok (n : nat) (s : Z) (i : nat) : indice n s = Ok i → i < n.
Proof.
  unfold indice. repeat case_decide; intros [= <-]; lia.
Qed.

(** C10. On a square matrix and for a source in range, the loop of
    [calculPCCSommet] runs exactly [n] times: after [k <= n] turns there
    remain [n - k] unvisited vertices, each of the first [n] turns finds
    the set non-empty and removes one vertex from it, the set is empty
    after the [n]-th, and the call returns two vectors of length [n]. *)
Theorem calculPCCSommet_termine (g : GrapheValue) (s : nat) :
  carree g → s < nb_sommets g →
  let n := nb_sommets g in
  (∀ k, k ≤ n →
     ∃ st, iterer k g (etat_initial n s) = Ok st ∧ length (unvisited st) = n - k) ∧
  (∀ k st, k < n → iterer k g (etat_initial n s) = Ok st →
     ∃ c st', c ∈ unvisited st ∧ iteration g st = Ok st' ∧
       unvisited st' = retirer c (unvisited st) ∧
       length (unvisited st') + 1 = length (unvisited st)) ∧
  ∃ st, iterer n g (etat_initial n s) = Ok st ∧ unvisited st = [] ∧
    calculPCCSommet g (Z.of_nat s) = Ok (distances st, preds st) ∧
    length (distances st) = n ∧ length (preds st) = n.
Proof.
  intros Hc Hs n.
  pose proof (etat_initial_ok g s) as H0. fold n in H0.
  assert (length (unvisited (etat_initial n s)) = n) as Hn
    by (cbn; apply length_seq).
  assert (∀ k, k ≤ n → ∃ st, iterer k g (etat_initial n s) = Ok st ∧
            etat_ok n st ∧ length (unvisited st) = n - k) as Hk.
  { intros k Hk. destruct (iterer_ok g Hc k _ H0) as (st & Hst & Hok & Hlen);
      [fold n; lia|].
    exists st. split; [done|]. split; [done|]. fold n in Hlen. lia. }
  split; [|split].
  - intros k Hkn. destruct (Hk k Hkn) as (st & Hst & _ & Hlen). eauto.
  - intros k st Hkn Hst. destruct (Hk k) as (st0 & Hst0 & Hok & Hlen); [lia|].
    assert (st0 = st) as -> by congruence.
    destruct (iteration_ok g Hc st Hok) as (c & st' & Hit & _ & Hcin & Hunv).
    { intros Hnil. rewrite Hnil in Hlen. cbn in Hlen. lia. }
    exists c, st'. repeat split; [done..|].
    rewrite Hunv. apply length_retirer; [apply Hok | done].
  - destruct (boucle_iterer g Hc n _ H0) as (st & Hb & Hi & Hok & Hnil); [lia|].
    rewrite Hn in Hi. exists st. repeat split; [done | done | | apply Hok | apply Hok].
    unfold calculPCCSommet. fold n. rewrite (indice_nat n s Hs). cbn.
    by rewrite Hb.
Qed.

Lemma carree_reseau7 : carree reseau7.
Proof. apply (bool_decide_unpack _). vm_compute. exact I. Defined.

Lemma carree_m3 : carree graphe_m3.
Proof. apply (bool_decide_unpack _). vm_compute. exact I. Defined.

Lemma calculPCCSommet_termine_witness :
  carree reseau7 ∧ 0 < nb_sommets reseau7 ∧
  ∃ st, iterer 7 reseau7 (etat_initial 7 0) = Ok st ∧ unvisited st = [] ∧
    calculPCCSommet reseau7 0 = Ok (distances st, preds st) ∧
    length (distances st) = 7 ∧ length (preds st) = 7.
Proof.
  split; [exact carree_reseau7|]. split; [cbn; apply Nat.lt_0_succ|].
  apply (calculPCCSommet_termine reseau7 0 carree_reseau7).
  cbn. apply Nat.lt_0_succ.
Defined.

(** ** Dijkstra: invariants of the loop *)

Lemma iteration_inv (g : GrapheValue) (st st' : etat) :
  iteration g st = Ok st' →
  ∃ c, min_unvisited (distances st) (unvisited st) = Ok c ∧
    pour (seq 0 (nb_sommets g)) (relacher g c) (distances st, preds st)
      = Ok (distances st', preds st') ∧
    unvisited st' = retirer c (unvisited st).
Proof.
  unfold iteration. intros H.
  apply bind_Ok_inv in H as (c & Hc & H).
  apply bind_Ok_inv in H as ([d p] & Hdp & H).
  injection H as <-. exists c. done.
Qed.

(** Invariant rule for the [while] loop. *)
Lemma boucle_inv (g : GrapheValue) (I : etat → Prop) :
  (∀ st st', I st → iteration g st = Ok st' → I st') →
  ∀ fuel st st', I st → boucle fuel g st = Ok st' → I st' ∧ unvisited st' = [].
Proof.
  intros Hstep. induction fuel as [|fuel IH]; intros st st' Hst Hrun; cbn in Hrun.
  - destruct (unvisited st) eqn:Hu; [|done]. injection Hrun as <-. done.
  - destruct (unvisited st) eqn:Hu; [injection Hrun as <-; done|].
    apply bind_Ok_inv in Hrun as (st1 & Hit & Hrun).
    eapply IH; [|done]. by eapply Hstep.
Qed.

Lemma calculPCCSommet_inv (g : GrapheValue) (s : nat) (d : list poids)
    (p : list (option nat)) :
  calculPCCSommet g (Z.of_nat s) = Ok (d, p) →
  s < nb_sommets g ∧
  ∃ st, boucle (nb_sommets g) g (etat_initial (nb_sommets g) s) = Ok st ∧
    d = distances st ∧ p = preds st.
Proof.
  unfold calculPCCSommet. intros H.
  apply bind_Ok_inv in H as (i & Hi & H).
  apply bind_Ok_inv in H as (st & Hst & H).
  injection H as <- <-.
  assert (i = s) as ->.
  { unfold indice in Hi. repeat case_decide; try lia; [|done].
    injection Hi as <-. by rewrite Nat2Z.id. }
  split; [by eapply indice_Ok | eauto].
Qed.

Lemma relacher_accessible (g : GrapheValue) (s c j : nat)
    (dp dp' : list poids * list (option nat)) :
  inv_accessible g s dp → relacher g c dp j = Ok dp' → inv_accessible g s dp'.
Proof.
  intros (Hd & Hp & Hacc & Hpred) H.
  apply relacher_cas in H as [->|(q & dc & dn & He & Hdc & Hdn & Hlt & ->)]; [done|].
  destruct (ltb_p_fini _ _ Hlt) as [x Hx].
  assert (j < length dp.1) as Hj by (by eapply lookup_lt_Some).
  assert (∃ xc, dc = Fini xc) as [xc ->] by (destruct dc; [eauto | done]).
  repeat split; cbn.
  - by rewrite length_insert.
  - by rewrite length_insert.
  - intros v y Hv. destruct (decide (v = j)) as [->|Hne].
    + eapply rtc_r; [by eapply Hacc | by exists q].
    + rewrite list_lookup_insert_ne in Hv by done. by eapply Hacc.
  - intros v u Hv. destruct (decide (v = j)) as [->|Hne].
    + rewrite list_lookup_insert_eq by done. eauto.
    + rewrite list_lookup_insert_ne in Hv by done.
      rewrite list_lookup_insert_ne by done. by eapply Hpred.
Qed.

Lemma etat_initial_accessible (g : GrapheValue) (s : nat) :
  inv_accessible g s (distances (etat_initial (nb_sommets g) s),
                      preds (etat_initial (nb_sommets g) s)).
Proof.
  repeat split; cbn.
  - by rewrite length_insert, length_replicate.
  - by rewrite length_replicate.
  - intros v x Hv. destruct (decide (v = s)) as [->|Hne]; [apply rtc_refl|].
    rewrite list_lookup_insert_ne in Hv by done.
    apply lookup_replicate in Hv as [? _]. done.
  - intros v u Hv. apply lookup_replicate in Hv as [? _]. done.
Qed.

(** C3. In the vectors returned by [calculPCCSommet] for the source [s],
    a vertex that no walk of the graph reaches from [s] keeps the distance
    [math.inf] and the predecessor [None]. *)
Theorem calculPCCSommet_inaccessible (g : GrapheValue) (s : nat)
    (d : list poids) (p : list (option nat)) (v : nat) :
  calculPCCSommet g (Z.of_nat s) = Ok (d, p) →
  v < nb_sommets g → ¬ accessible g s v →
  d !! v = Some Infini ∧ p !! v = Some None.
Proof.
  intros H Hv Hna. apply calculPCCSommet_inv in H as (Hs & st & Hb & -> & ->).
  apply (boucle_inv g (λ st, inv_accessible g s (distances st, preds st))) in Hb
    as [(Hd & Hp & Hacc & Hpred) _]; [| |apply etat_initial_accessible].
  - cbn in *.
    destruct (lookup_lt_is_Some_2 (distances st) v) as [w Hw]; [lia|].
    destruct (lookup_lt_is_Some_2 (preds st) v) as [o Ho]; [lia|].
    assert (w = Infini) as ->.
    { destruct w as [x|]; [|done]. destruct Hna. by eapply Hacc. }
    split; [done|]. destruct o as [u|]; [|done].
    destruct (Hpred v u Ho) as [x Hx]. congruence.
  - intros st0 st1 Hinv Hit. apply iteration_inv in Hit as (c & _ & Hrel & _).
    revert Hrel. apply (pour_inv (inv_accessible g s)); [done|].
    intros j b b' _ Hb0 Hr. by eapply relacher_accessible.
Qed.

Lemma m3_sommet_isole : ¬ accessible graphe_m3 0 3.
Proof.
  intros [?|(y & _ & q & Hq)]%rtc_inv_r; [done|].
  do 4 (destruct y as [|y]; [done|]). done.
Qed.

Lemma calculPCCSommet_inaccessible_witness :
  ∃ d p, calculPCCSommet graphe_m3 0 = Ok (d, p) ∧
    d !! 3 = Some Infini ∧ p !! 3 = Some None.
Proof.
  eexists _, _. split; [vm_compute; reflexivity|].
  apply (calculPCCSommet_inaccessible graphe_m3 0 _ _ 3).
  - vm_compute. reflexivity.
  - cbn. repeat constructor.
  - exact m3_sommet_isole.
Defined.

(** ** Dijkstra: the predecessor pointers retrace shortest walks *)

Lemma poids_positifs_entree (g : GrapheValue) (i j : nat) (q : Q) :
  poids_positifs g → entree (matrice g) i j = Fini q → (0 <= q)%Q.
Proof.
  unfold poids_positifs, entree. intros Hpos He.
  destruct (matrice g !! i) as [ligne|] eqn:Hi; [|done].
  destruct (ligne !! j) as [w|] eqn:Hj; [|done]. cbn in He. subst w.
  rewrite Forall_lookup in Hpos. specialize (Hpos i ligne Hi).
  rewrite Forall_lookup in Hpos. exact (Hpos j _ Hj).
Qed.

Lemma bien_fonde_insert (p : list (option nat)) (vis : list nat) (j : nat) (o : option nat) :
  j ∉ vis → bien_fonde p vis → bien_fonde (<[j := o]> p) vis.
Proof.
  intros Hj Hbf. induction Hbf as [|c vis Hbf IH Hc]; [constructor|].
  apply not_elem_of_cons in Hj as [Hne Hj]. constructor; [by apply IH|].
  intros u Hu. rewrite list_lookup_insert_ne in Hu by done. by apply Hc.
Qed.

Section Relaxation.

Variables (g : GrapheValue) (s : nat).
Hypothesis Hpos : poids_positifs g.

(** A relaxation from the selected vertex [c] only improves unvisited
    vertices, and keeps the invariant. *)
Lemma relacher_inv_dijkstra (vis unv : list nat) (c j : nat)
    (dp dp' : list poids * list (option nat)) :
  c ∈ vis →
  inv_dijkstra g s vis unv dp → plus_loin vis c dp.1 →
  relacher g c dp j = Ok dp' →
  inv_dijkstra g s vis unv dp' ∧ plus_loin vis c dp'.1.
Proof using Hpos.
  intros Hc Hinv Hloin H.
  apply relacher_cas in H as [->|(q & dc & dn & He & Hdc & Hdn & Hlt & ->)]; [done|].
  destruct (ltb_p_fini _ _ Hlt) as [x Hx].
  assert (∃ xc, dc = Fini xc) as [xc ->] by (destruct dc; [eauto | done]).
  clear x Hx.
  pose proof (poids_positifs_entree g c j q Hpos He) as Hq.
  pose proof (inv_positif _ _ _ _ _ Hinv c xc Hdc) as Hxc.
  apply ltb_p_true in Hlt as [_ Hlt].
  assert (j < length dp.1) as Hj by (by eapply lookup_lt_Some).
  assert (j ∉ vis) as Hjvis.
  { intros Hjv. apply Hlt. eapply le_p_trans; [by eapply (Hloin j)|].
    cbn. lra. }
  assert (j ∈ unv) as Hjunv.
  { destruct (inv_couvre _ _ _ _ _ Hinv j); [|done..].
    by rewrite <- (inv_len_d _ _ _ _ _ Hinv). }
  assert (c ≠ j) as Hcj by congruence.
  assert (j ≠ s) as Hjs.
  { intros ->. apply Hlt. rewrite (inv_source_d _ _ _ _ _ Hinv) in Hdn.
    injection Hdn as <-. cbn. lra. }
  assert (∀ u, u ∈ vis → u ≠ j) as Hvis by congruence.
  split.
  - destruct Hinv. constructor; cbn in *.
    + by rewrite length_insert.
    + by rewrite length_insert.
    + done.
    + done.
    + done.
    + done.
    + done.
    + intros u v du dv Hu Hv Hdu Hdv.
      rewrite list_lookup_insert_ne in Hdu by (symmetry; by apply Hvis).
      destruct (decide (v = j)) as [->|Hne].
      * rewrite list_lookup_insert_eq in Hdv by done. injection Hdv as <-.
        eapply le_p_trans; [by eapply (Hloin u)|]. cbn. lra.
      * rewrite list_lookup_insert_ne in Hdv by done. by eapply inv_ordre0.
    + intros v u Hv. destruct (decide (v = j)) as [->|Hne].
      * rewrite list_lookup_insert_eq in Hv by lia. injection Hv as <-.
        split; [done|]. exists xc, q.
        rewrite list_lookup_insert_ne by done.
        by rewrite list_lookup_insert_eq by done.
      * rewrite list_lookup_insert_ne in Hv by done.
        destruct (inv_pred0 v u Hv) as (Hu & du & q' & Hdu & Hq' & Hdv).
        split; [done|]. exists du, q'.
        rewrite !list_lookup_insert_ne by (done || (symmetry; by apply Hvis)).
        done.
    + by rewrite list_lookup_insert_ne.
    + by rewrite list_lookup_insert_ne.
    + intros v y Hv. destruct (decide (v = j)) as [->|Hne].
      * rewrite list_lookup_insert_eq in Hv by done. injection Hv as <-. lra.
      * rewrite list_lookup_insert_ne in Hv by done. by eapply inv_positif0.
    + intros v y Hv Hvs. destruct (decide (v = j)) as [->|Hne].
      * exists c. by rewrite list_lookup_insert_eq by lia.
      * rewrite list_lookup_insert_ne in Hv by done.
        rewrite list_lookup_insert_ne by done. by eapply inv_atteint0.
    + by apply bien_fonde_insert.
  - intros u du dc' Hu Hdu Hdc'. cbn in Hdu, Hdc'.
    rewrite list_lookup_insert_ne in Hdu by (symmetry; by apply Hvis).
    rewrite list_lookup_insert_ne in Hdc' by done.
    by eapply (Hloin u).
Qed.

End Relaxation.

Section Selection.

Variables (g : GrapheValue) (s : nat).
Hypothesis Hpos : poids_positifs g.

(** One turn of the loop moves the selected vertex from [unvisited] to
    the front of [vis]. *)
Lemma iteration_inv_dijkstra (vis : list nat) (st st' : etat) :
  inv_dijkstra g s vis (unvisited st) (distances st, preds st) →
  iteration g st = Ok st' →
  ∃ c, inv_dijkstra g s (c :: vis) (unvisited st') (distances st', preds st').
Proof using Hpos.
  intros Hinv Hit. apply iteration_inv in Hit as (c & Hmin & Hrel & Hunv).
  exists c. rewrite Hunv.
  pose proof (min_unvisited_dans _ _ _ Hmin) as Hc.
  destruct (min_unvisited_ok (distances st) (unvisited st))
    as (c' & kc & Hmin' & _ & Hkc & Hall).
  { intros Hnil. rewrite Hnil in Hc. by apply elem_of_nil in Hc. }
  { intros x Hx. pose proof (inv_len_d _ _ _ _ _ Hinv) as Hlen. cbn in Hlen.
    rewrite Hlen. by apply (inv_borne _ _ _ _ _ Hinv). }
  assert (c' = c) as -> by congruence.
  enough (inv_dijkstra g s (c :: vis) (retirer c (unvisited st))
            (distances st', preds st') ∧ plus_loin (c :: vis) c (distances st'))
    as [? _] by done.
  revert Hrel.
  apply (pour_inv (λ dp, inv_dijkstra g s (c :: vis) (retirer c (unvisited st)) dp
                         ∧ plus_loin (c :: vis) c dp.1)).
  - split.
    + pose proof (length_retirer c _ (inv_nodup _ _ _ _ _ Hinv) Hc) as Hlen.
      destruct Hinv. constructor; cbn in *; try done.
      * intros x Hx. destruct (decide (x = c)) as [->|Hne]; [left; by constructor|].
        destruct (inv_couvre0 x Hx); [left; by constructor|].
        right. by apply elem_of_retirer.
      * intros x [->|Hx]%elem_of_cons [Hx' Hne]%elem_of_retirer; [done|].
        by eapply inv_disjoint0.
      * lia.
      * intros x [Hx _]%elem_of_retirer. by apply inv_borne0.
      * by apply NoDup_retirer.
      * intros u v du dv [->|Hu]%elem_of_cons [Hv Hne]%elem_of_retirer Hdu Hdv.
        -- destruct (Hall v Hv) as (kx & Hkx & Hle). congruence.
        -- by eapply inv_ordre0.
      * intros v u Hv. destruct (inv_pred0 v u Hv) as [Hu Hrest].
        split; [by constructor | done].
      * constructor; [done|]. intros u Hu. by apply (inv_pred0 c u Hu).
    + intros u du dc [->|Hu]%elem_of_cons Hdu Hdc; cbn in *.
      * assert (du = dc) as -> by congruence. apply le_p_refl.
      * by eapply (inv_ordre _ _ _ _ _ Hinv u c).
  - intros j b b' _ [Hb Hloin] Hr.
    eapply relacher_inv_dijkstra; [done | by constructor | done..].
Qed.

Lemma etat_initial_inv_dijkstra :
  s < nb_sommets g →
  inv_dijkstra g s [] (seq 0 (nb_sommets g))
    (distances (etat_initial (nb_sommets g) s),
     preds (etat_initial (nb_sommets g) s)).
Proof.
  intros Hs.
  assert (∀ v w, <[s:=Fini 0]> (replicate (nb_sommets g) Infini) !! v = Some w →
            v ≠ s → w = Infini) as Hautre.
  { intros v w Hv Hne. rewrite list_lookup_insert_ne in Hv by done.
    by apply lookup_replicate in Hv as [? _]. }
  constructor; cbn.
  - by rewrite length_insert, length_replicate.
  - by rewrite length_replicate.
  - intros x Hx. right. apply elem_of_seq. lia.
  - intros x Hx. by apply elem_of_nil in Hx.
  - by rewrite length_seq.
  - intros x Hx%elem_of_seq. lia.
  - apply NoDup_seq.
  - intros u v du dv Hu. by apply elem_of_nil in Hu.
  - intros v u Hv. by apply lookup_replicate in Hv as [? _].
  - apply list_lookup_insert_eq. by rewrite length_replicate.
  - by apply lookup_replicate.
  - intros v x Hv. destruct (decide (v = s)) as [->|Hne].
    + rewrite list_lookup_insert_eq in Hv by (by rewrite length_replicate).
      injection Hv as <-. lra.
    + by specialize (Hautre v _ Hv Hne).
  - intros v x Hv Hne. by specialize (Hautre v _ Hv Hne).
  - constructor.
Qed.

End Selection.

Lemma chemin_dans_snoc (g : GrapheValue) (a u c : nat) (l : list nat) :
  chemin_dans g a l → last (a :: l) = Some u → arete g u c →
  chemin_dans g a (l ++ [c]).
Proof.
  revert a. induction l as [|b l IH]; intros a Hl Hlast Hedge; cbn in *.
  - injection Hlast as ->. done.
  - destruct Hl as [Hab Hl]. split; [done|]. apply IH; [done| |done].
    by destruct l.
Qed.

Lemma poids_chemin_snoc (g : GrapheValue) (acc : poids) (a u c : nat) (l : list nat) :
  last (a :: l) = Some u →
  poids_chemin g acc a (l ++ [c])
  = plus_p (poids_chemin g acc a l) (entree (matrice g) u c).
Proof.
  revert a acc. induction l as [|b l IH]; intros a acc Hlast; cbn in *.
  - injection Hlast as ->. done.
  - apply IH. by destruct l.
Qed.

(** Walking back from a selected vertex of finite distance reaches the
    source within [length vis] steps, along edges of the graph whose
    weights add up to that distance. *)
Lemma remonter_bien_fonde (g : GrapheValue) (s : nat) (d : list poids)
    (p : list (option nat)) (vis : list nat) :
  bien_fonde p vis →
  (∀ v u, p !! v = Some (Some u) →
     ∃ du q, d !! u = Some (Fini du) ∧ entree (matrice g) u v = Fini q ∧
       d !! v = Some (Fini (du + q)%Q)) →
  d !! s = Some (Fini 0) → p !! s = Some None →
  (∀ v x, d !! v = Some (Fini x) → v ≠ s → ∃ u, p !! v = Some (Some u)) →
  ∀ v x, v ∈ vis → d !! v = Some (Fini x) →
  ∃ l, (∀ fuel acc, length vis ≤ fuel → remonter p fuel v acc = Some (s :: l ++ acc)) ∧
    last (s :: l) = Some v ∧ chemin_dans g s l ∧
    poids_chemin g (Fini 0) s l = Fini x.
Proof.
  intros Hbf Hpred Hsd Hsp Hatt.
  induction Hbf as [|c vis Hbf IH Hc]; intros v x Hv Hdv.
  { by apply elem_of_nil in Hv. }
  destruct (decide (v = s)) as [->|Hvs].
  { exists []. repeat split.
    - intros [|fuel] acc _; cbn; by rewrite Hsp.
    - cbn. congruence. }
  destruct (decide (v = c)) as [->|Hvc].
  - destruct (Hatt c x Hdv Hvs) as [u Hu].
    destruct (Hpred c u Hu) as (du & q & Hdu & Hq & Hdc).
    destruct (IH u du (Hc u Hu) Hdu) as (l & Hrem & Hlast & Hch & Hw).
    exists (l ++ [c]). repeat split.
    + intros [|fuel] acc Hfuel; cbn in Hfuel; [lia|]. cbn. rewrite Hu.
      rewrite Hrem by lia. by rewrite <- app_assoc.
    + by rewrite app_comm_cons, last_snoc.
    + eapply chemin_dans_snoc; [done..|]. by exists q.
    + rewrite (poids_chemin_snoc g _ s u c l Hlast), Hw, Hq. cbn. congruence.
  - apply elem_of_cons in Hv as [->|Hv]; [done|].
    destruct (IH v x Hv Hdv) as (l & Hrem & Hrest).
    exists l. split; [|done]. intros fuel acc Hfuel. apply Hrem. cbn in Hfuel. lia.
Qed.

Lemma poids_positifs_reseau7 : poids_positifs reseau7.
Proof. apply (bool_decide_unpack _). vm_compute. exact I. Defined.

(** ** All sources *)

Lemma calculPCCSommet_ok (g : GrapheValue) (s : nat) :
  carree g → s < nb_sommets g →
  ∃ d p, calculPCCSommet g (Z.of_nat s) = Ok (d, p) ∧
    length d = nb_sommets g ∧ length p = nb_sommets g.
Proof.
  intros Hc Hs.
  destruct (boucle_iterer g Hc (nb_sommets g) _ (etat_initial_ok g s))
    as (st & Hb & _ & Hok & _); [cbn; by rewrite length_seq|].
  exists (distances st), (preds st). split; [|split; apply Hok].
  unfold calculPCCSommet. by rewrite (indice_nat _ s Hs), bind_Ok, Hb.
Qed.

(** C4. [calculPCCTousSommets] returns on every square matrix, and
    whenever it returns, row [s] of its distance matrix and row [s] of
    its predecessor matrix are the two vectors that [calculPCCSommet]
    returns for the source [s]. *)
Theorem calculPCCTousSommets_lignes (g : GrapheValue) :
  (carree g → ∃ D P, calculPCCTousSommets g = Ok (D, P)) ∧
  (∀ D P, calculPCCTousSommets g = Ok (D, P) →
     length D = nb_sommets g ∧ length P = nb_sommets g ∧
     ∀ s, s < nb_sommets g →
       ∃ d p, calculPCCSommet g (Z.of_nat s) = Ok (d, p) ∧
         D !! s = Some d ∧ P !! s = Some p).
Proof.
  split.
  - intros Hc. unfold calculPCCTousSommets.
    destruct (pour_ok (λ _, True) (seq 0 (nb_sommets g))
                (λ acc s, dp ← calculPCCSommet g (Z.of_nat s);
                          Ok (acc.1 ++ [dp.1], acc.2 ++ [dp.2])) ([], []))
      as ([D P] & H & _); [done| |eauto].
    intros s acc Hs%elem_of_seq _.
    destruct (calculPCCSommet_ok g s Hc) as (d & p & -> & _); [lia|].
    cbn. eauto.
  - intros D P H. unfold calculPCCTousSommets in H.
    apply (pour_prefixe_inv (λ l1 acc,
             length acc.1 = length l1 ∧ length acc.2 = length l1 ∧
             ∀ k s, l1 !! k = Some s →
               ∃ d p, calculPCCSommet g (Z.of_nat s) = Ok (d, p) ∧
                 acc.1 !! k = Some d ∧ acc.2 !! k = Some p)) in H.
    + destruct H as (HD & HP & Hrows). cbn in *. rewrite length_seq in HD, HP.
      repeat split; [done..|]. intros s Hs. apply Hrows. by apply lookup_seq.
    + cbn. repeat split; [done..|]. intros k s Hk. by rewrite lookup_nil in Hk.
    + intros l1 s l2 acc acc' _ (H1 & H2 & Hrows) Hstep.
      apply bind_Ok_inv in Hstep as ([d p] & Hcalc & Hacc). injection Hacc as <-.
      cbn. rewrite !length_app, H1, H2. repeat split; [done..|].
      intros k s' Hk. destruct (decide (k < length l1)) as [Hlt|Hge].
      * rewrite lookup_app_l in Hk by done.
        destruct (Hrows k s' Hk) as (d' & p' & ? & ? & ?). exists d', p'.
        rewrite !lookup_app_l by lia. done.
      * rewrite lookup_app_r in Hk by lia.
        apply list_lookup_singleton_Some in Hk as [Hk0 <-].
        exists d, p. rewrite !lookup_app_r by lia.
        replace (k - length acc.1) with 0 by lia.
        replace (k - length acc.2) with 0 by lia. done.
Qed.

Lemma calculPCCTousSommets_lignes_witness :
  ∃ D P, calculPCCTousSommets reseau7 = Ok (D, P) ∧
    length D = 7 ∧ length P = 7 ∧
    ∀ s, s < 7 →
      ∃ d p, calculPCCSommet reseau7 (Z.of_nat s) = Ok (d, p) ∧
        D !! s = Some d ∧ P !! s = Some p.
Proof.
  destruct (calculPCCTousSommets_lignes reseau7) as [Htot Hrows].
  destruct (Htot carree_reseau7) as (D & P & H).
  exists D, P. split; [exact H|]. exact (Hrows D P H).
Defined.

(** ** reseau.py : the diameter *)

Lemma max_p_cas (a b : poids) :
  le_p a (max_p a b) ∧ le_p b (max_p a b) ∧ (max_p a b = a ∨ max_p a b = b).
Proof.
  unfold max_p. destruct (ltb_p a b) eqn:Hlt.
  - apply ltb_p_true in Hlt as [Hle _]. repeat split; [done | apply le_p_refl | by right].
  - apply ltb_p_false in Hlt. repeat split; [apply le_p_refl | done | by left].
Qed.

Lemma foldl_max_p (l : list poids) (x : poids) :
  foldl max_p x l ∈ x :: l ∧ ∀ w, w ∈ x :: l → le_p w (foldl max_p x l).
Proof.
  revert x. induction l as [|y l IH]; intros x; cbn.
  - split; [by constructor|]. intros w ->%list_elem_of_singleton. apply le_p_refl.
  - destruct (IH (max_p x y)) as [Hin Hmax].
    destruct (max_p_cas x y) as (Hx & Hy & Hcas). split.
    + apply elem_of_cons in Hin as [->|Hin].
      * destruct Hcas as [->| ->]; [by constructor | constructor; by constructor].
      * do 2 constructor. done.
    + intros w [->|[->|Hw]%elem_of_cons]%elem_of_cons.
      * eapply le_p_trans; [done|]. apply Hmax. by constructor.
      * eapply le_p_trans; [done|]. apply Hmax. by constructor.
      * apply Hmax. by constructor.
Qed.

Lemma max_liste_Ok (l : list poids) (m : poids) :
  max_liste l = Ok m → m ∈ l ∧ ∀ w, w ∈ l → le_p w m.
Proof.
  destruct l as [|x l]; [done|]. cbn. intros [= <-]. apply foldl_max_p.
Qed.

(** C5, as the code has it. [diametre] returns on every square matrix;
    what it returns is the largest of 0 and of all the entries of the
    distance matrix, [math.inf] included: it is an upper bound of every
    entry, it is 0 or one of the entries, and it is [math.inf] exactly
    when some vertex is at distance [math.inf] from some source. *)
Theorem diametre_max (g : GrapheValue) :
  (carree g → ∃ m, diametre g = Ok m) ∧
  (∀ m, diametre g = Ok m →
     le_p (Fini 0) m ∧
     (∀ s d p w, s < nb_sommets g → calculPCCSommet g (Z.of_nat s) = Ok (d, p) →
        w ∈ d → le_p w m) ∧
     (m = Fini 0 ∨
      ∃ s d p, s < nb_sommets g ∧ calculPCCSommet g (Z.of_nat s) = Ok (d, p) ∧ m ∈ d) ∧
     (m = Infini ↔
      ∃ s d p, s < nb_sommets g ∧ calculPCCSommet g (Z.of_nat s) = Ok (d, p) ∧
        Infini ∈ d)).
Proof.
  split.
  - intros Hc. unfold diametre.
    destruct (pour_ok (λ _, True) (seq 0 (nb_sommets g))
                (λ max_distance s, dp ← calculPCCSommet g (Z.of_nat s);
                   m ← max_liste dp.1; Ok (max_p max_distance m)) (Fini 0))
      as (m & H & _); [done| |eauto].
    intros s acc Hs%elem_of_seq _.
    destruct (calculPCCSommet_ok g s Hc) as (d & p & -> & Hd & _); [lia|].
    cbn. destruct d as [|x d]; [cbn in Hd; lia|]. cbn. eauto.
  - intros m H. unfold diametre in H.
    apply (pour_prefixe_inv (λ l1 acc,
             le_p (Fini 0) acc ∧
             (∀ s d p w, s ∈ l1 → calculPCCSommet g (Z.of_nat s) = Ok (d, p) →
                w ∈ d → le_p w acc) ∧
             (acc = Fini 0 ∨
              ∃ s d p, s ∈ l1 ∧ calculPCCSommet g (Z.of_nat s) = Ok (d, p) ∧ acc ∈ d))) in H.
    + destruct H as (H0 & Hmaj & Hatteint).
      assert (∀ s, s ∈ seq 0 (nb_sommets g) ↔ s < nb_sommets g) as Hseq
        by (intros s; rewrite elem_of_seq; lia).
      repeat split.
      * done.
      * intros s d p w Hs. apply Hmaj. by apply Hseq.
      * destruct Hatteint as [->|(s & d & p & Hs & Hcalc & Hin)]; [by left|].
        right. exists s, d, p. by rewrite <- Hseq.
      * intros ->. destruct Hatteint as [|(s & d & p & Hs & Hcalc & Hin)]; [done|].
        exists s, d, p. by rewrite <- Hseq.
      * intros (s & d & p & Hs & Hcalc & Hin).
        specialize (Hmaj s d p Infini (proj2 (Hseq s) Hs) Hcalc Hin).
        by destruct m.
    + repeat split; [cbn; lra | | by left].
      intros s d p w Hs. by apply elem_of_nil in Hs.
    + intros l1 s l2 acc acc' _ (H0 & Hmaj & Hatteint) Hstep.
      apply bind_Ok_inv in Hstep as ([d p] & Hcalc & Hstep).
      apply bind_Ok_inv in Hstep as (md & Hmd & Hacc). injection Hacc as <-.
      apply max_liste_Ok in Hmd as [Hmd_in Hmd_max]. cbn in Hmd_in, Hmd_max.
      destruct (max_p_cas acc md) as (Ha & Hb & Hcas). repeat split.
      * by eapply le_p_trans.
      * intros s' d' p' w [Hs'|Hs']%elem_of_app Hcalc' Hw.
        -- eapply le_p_trans; [by eapply Hmaj | done].
        -- apply list_elem_of_singleton in Hs' as ->.
           assert (d' = d) as -> by congruence.
           eapply le_p_trans; [by apply Hmd_max | done].
      * destruct Hcas as [->| ->].
        -- destruct Hatteint as [->|(s' & d' & p' & Hs' & Hcalc' & Hin)]; [by left|].
           right. exists s', d', p'. split; [|done]. apply elem_of_app. by left.
        -- right. exists s, d, p. split; [|done]. apply elem_of_app. right.
           by apply list_elem_of_singleton.
Qed.

Lemma diametre_max_witness :
  ∃ m, diametre graphe_m3 = Ok m ∧ m = Infini.
Proof.
  destruct (diametre_max graphe_m3) as [Htot Hmax].
  destruct (Htot carree_m3) as (m & H).
  exists m. split; [exact H|].
  apply (Hmax m H). exists 0, [Fini 0; Fini 3; Fini 5; Infini], [None; Some 0; Some 0; None].
  split; [cbn; apply Nat.lt_0_succ|]. split; [vm_compute; reflexivity|].
  do 3 apply list_elem_of_further. apply list_elem_of_here.
Defined.

(** The claim C5 fails on the graph [m3] of graphe.py, whose vertex 3 is
    isolated: its largest finite distance is 8, and [diametre] returns
    [math.inf]. *)
Lemma diametre_contre_exemple :
  ∃ D P, calculPCCTousSommets graphe_m3 = Ok (D, P) ∧
    diametre_fini D = Fini 8 ∧
    diametre graphe_m3 = Ok Infini ∧
    diametre graphe_m3 ≠ Ok (diametre_fini D).
Proof.
  eexists _, _. split; [vm_compute; reflexivity|].
  split; [vm_compute; reflexivity|].
  split; [vm_compute; reflexivity|].
  vm_compute. discriminate.
Qed.

(** ** Vertex indices supplied by the caller *)

Lemma lire_z_nat {A : Type} (l : list A) (i : nat) : lire_z l (Z.of_nat i) = lire l i.
Proof.
  unfold lire_z, indice. case_decide.
  - by rewrite Nat2Z.id.
  - rewrite decide_False by lia. cbn. unfold lire.
    rewrite lookup_ge_None_2; [done | lia].
Qed.

Lemma indice_hors (n : nat) (s : Z) :
  (Z.of_nat n ≤ s ∨ s < - Z.of_nat n)%Z → indice n s = Leve IndexError.
Proof. intros Hs. unfold indice. by rewrite !decide_False by lia. Qed.

Lemma indice_negatif (n : nat) (s : Z) :
  (- Z.of_nat n ≤ s < 0)%Z →
  indice n s = Ok (Z.to_nat (Z.of_nat n + s)) ∧
  indice n (Z.of_nat n + s) = Ok (Z.to_nat (Z.of_nat n + s)).
Proof.
  intros Hs. unfold indice. rewrite decide_False by lia.
  by rewrite !decide_True by lia.
Qed.

Lemma lire_z_hors {A : Type} (l : list A) (s : Z) :
  (Z.of_nat (length l) ≤ s ∨ s < - Z.of_nat (length l))%Z →
  lire_z l s = Leve IndexError.
Proof. intros Hs. unfold lire_z. by rewrite indice_hors. Qed.

Lemma lire_z_negatif {A : Type} (l : list A) (s : Z) :
  (- Z.of_nat (length l) ≤ s < 0)%Z →
  lire_z l s = lire_z l (Z.of_nat (length l) + s).
Proof.
  intros Hs. unfold lire_z. destruct (indice_negatif _ s Hs) as [-> ->]. done.
Qed.

Lemma pour_ext {A B : Type} (l : list B) (f f' : A → B → resultat A) (a : A) :
  (∀ b x, x ∈ l → f b x = f' b x) → pour l f a = pour l f' a.
Proof.
  revert a. induction l as [|x l IH]; intros a Hext; cbn; [done|].
  rewrite <- Hext by constructor. destruct (f a x); cbn; [|done..].
  apply IH. intros b y Hy. apply Hext. by constructor.
Qed.

Lemma pour_filtre (P : nat → Prop) `{∀ x, Decision (P x)}
    (l : list nat) (f : list nat → nat → resultat (list nat)) :
  (∀ acc x, x ∈ l → f acc x = Ok (if decide (P x) then acc ++ [x] else acc)) →
  pour l f [] = Ok (filter P l).
Proof.
  intros Hf.
  destruct (pour_prefixe_ok (λ l1 acc, acc = filter P l1) l f []) as (r & -> & ->);
    [done| |done].
  intros l1 x l2 acc -> ->. rewrite Hf by (apply elem_of_app; right; constructor).
  eexists. split; [done|]. rewrite filter_app, filter_cons, filter_nil.
  case_decide; [done | by rewrite app_nil_r].
Qed.

Section Requetes.

Variable g : GrapheValue.
Hypothesis Hcarree : carree g.

(** [successeurs] and [predecesseurs] of a vertex in range. *)
Lemma successeurs_filtre (s : nat) :
  s < nb_sommets g →
  successeurs g (Z.of_nat s)
  = Ok (filter (λ j, est_inf (entree (matrice g) s j) = false) (seq 0 (nb_sommets g))).
Proof using Hcarree.
  intros Hs. unfold successeurs. apply pour_filtre.
  intros acc j Hj%elem_of_seq. rewrite lire_z_nat.
  destruct (lire_entree g Hcarree s j) as (ligne & -> & Hw); [lia..|].
  rewrite bind_Ok, Hw, bind_Ok.
  destruct (entree (matrice g) s j); cbn; by case_decide.
Qed.

Lemma predecesseurs_filtre (s : nat) :
  s < nb_sommets g →
  predecesseurs g (Z.of_nat s)
  = Ok (filter (λ i, est_inf (entree (matrice g) i s) = false) (seq 0 (nb_sommets g))).
Proof using Hcarree.
  intros Hs. unfold predecesseurs. apply pour_filtre.
  intros acc i Hi%elem_of_seq.
  destruct (lire_entree g Hcarree i s) as (ligne & -> & Hw); [lia..|].
  rewrite bind_Ok, lire_z_nat, Hw, bind_Ok.
  destruct (entree (matrice g) i s); cbn; by case_decide.
Qed.

End Requetes.

Lemma pour_leve {A B : Type} (l : list B) (f : A → B → resultat A) (a : A) (e : exception) :
  l ≠ [] → (∀ b x, x ∈ l → f b x = Leve e) → pour l f a = Leve e.
Proof.
  destruct l as [|x l]; [done|]. intros _ Hf. cbn. by rewrite Hf by constructor.
Qed.

Lemma seq_non_vide (n : nat) : 0 < n → seq 0 n ≠ [].
Proof. destruct n; [lia | done]. Qed.


(** ** Filling a matrix cell by cell *)

Lemma entree_insert (m : list (list poids)) (ligne : list poids) (i j a b : nat) (w : poids) :
  m !! i = Some ligne → j < length ligne →
  entree (<[i := <[j := w]> ligne]> m) a b
  = if decide (a = i ∧ b = j) then w else entree m a b.
Proof.
  intros Hi Hj. assert (i < length m) by (by eapply lookup_lt_Some).
  unfold entree. destruct (decide (a = i)) as [->|Hne].
  - rewrite list_lookup_insert_eq by done. rewrite Hi.
    destruct (decide (b = j)) as [->|Hnb].
    + rewrite decide_True by done. by rewrite list_lookup_insert_eq.
    + rewrite decide_False by tauto. by rewrite list_lookup_insert_ne.
  - rewrite decide_False by tauto. by rewrite list_lookup_insert_ne.
Qed.

Lemma ecrire_Ok (m m' : list (list poids)) (i j : nat) (w : poids) :
  ecrire m i j w = Ok m' →
  length m' = length m ∧
  (∀ k, Forall (λ l, length l = k) m → Forall (λ l, length l = k) m') ∧
  ∀ a b, entree m' a b = if decide (a = i ∧ b = j) then w else entree m a b.
Proof.
  unfold ecrire. intros H.
  apply bind_Ok_inv in H as (ligne & Hl%lire_Ok & H).
  apply bind_Ok_inv in H as (w0 & Hw%lire_Ok & H). injection H as <-.
  apply lookup_lt_Some in Hw. repeat split.
  - by rewrite length_insert.
  - intros k Hk. rewrite Forall_lookup in Hk. apply Forall_lookup.
    intros a l Ha. destruct (decide (a = i)) as [->|Hne].
    + rewrite list_lookup_insert_eq in Ha by (by eapply lookup_lt_Some).
      injection Ha as <-. rewrite length_insert. by eapply Hk.
    + rewrite list_lookup_insert_ne in Ha by done. by eapply Hk.
  - intros a b. by apply entree_insert.
Qed.

Lemma ecrire_dims (k : nat) (m : list (list poids)) (i j : nat) (w : poids) :
  dims k m → i < k → j < k → ∃ m', ecrire m i j w = Ok m'.
Proof.
  intros [Hlen Hall] Hi Hj. unfold ecrire.
  destruct (lire_lt m i) as (ligne & -> & Hl); [lia|]. rewrite bind_Ok.
  rewrite Forall_lookup in Hall. specialize (Hall i ligne Hl).
  destruct (lire_lt ligne j) as (w0 & -> & _); [lia|]. cbn. eauto.
Qed.

Lemma dims_graphe_vide (k : nat) : dims k (graphe_vide k).
Proof.
  unfold graphe_vide. split; [by rewrite length_replicate|].
  apply Forall_replicate. by rewrite length_replicate.
Qed.

Lemma entree_graphe_vide (k a b : nat) : entree (graphe_vide k) a b = Infini.
Proof.
  unfold entree, graphe_vide.
  destruct (replicate k (replicate k Infini) !! a) as [l|] eqn:Ha; [|done].
  apply lookup_replicate in Ha as [-> _].
  destruct (replicate k Infini !! b) as [w|] eqn:Hb; [|done].
  by apply lookup_replicate in Hb as [-> _].
Qed.

Lemma entree_hors_dims (k : nat) (m : list (list poids)) (a b : nat) :
  dims k m → ¬ (a < k ∧ b < k) → entree m a b = Infini.
Proof.
  intros [Hlen Hall] Hab. unfold entree.
  destruct (m !! a) as [l|] eqn:Ha; [|done].
  rewrite Forall_lookup in Hall. specialize (Hall a l Ha).
  apply lookup_lt_Some in Ha.
  rewrite lookup_ge_None_2; [done | lia].
Qed.

Section Remplissage.

Variables (k : nat) (R : relation poids) (cible : nat → nat → poids).
Hypothesis R_inf : R Infini Infini.

Lemma rempli_vide : rempli k R cible (λ _ _, False) (graphe_vide k).
Proof.
  split; [apply dims_graphe_vide|]. intros a b _ _.
  split; [left; apply entree_graphe_vide | done].
Qed.

(** Cells whose target is [math.inf] may be counted as filled. *)
Lemma rempli_affaiblir (S S' : nat → nat → Prop) (m : list (list poids)) :
  rempli k R cible S m →
  (∀ a b, a < k → b < k → S' a b → S a b ∨ cible a b = Infini) →
  rempli k R cible S' m.
Proof using R_inf.
  intros [Hd Hm] HS. split; [done|]. intros a b Ha Hb.
  destruct (Hm a b Ha Hb) as [Hcas Hfait]. split; [done|].
  intros [HSab|Hinf]%HS; [by apply Hfait | | done..].
  destruct Hcas as [->|?]; [by rewrite Hinf | done].
Qed.

Lemma rempli_ecrire (S : nat → nat → Prop) (m : list (list poids)) (i j : nat) (w : poids) :
  rempli k R cible S m → i < k → j < k → R w (cible i j) →
  ∃ m', ecrire m i j w = Ok m' ∧
    rempli k R cible (λ a b, S a b ∨ (a = i ∧ b = j)) m'.
Proof.
  intros [Hd Hm] Hi Hj Hw.
  destruct (ecrire_dims k m i j w Hd Hi Hj) as [m' Hm'].
  exists m'. split; [done|].
  apply ecrire_Ok in Hm' as (Hlen & Hall & He). destruct Hd as [Hd1 Hd2].
  split; [split; [lia | by apply Hall]|].
  intros a b Ha Hb. rewrite He. destruct (Hm a b Ha Hb) as [Hcas Hfait].
  case_decide as Hab.
  - destruct Hab as [-> ->]. split; [by right | done].
  - split; [done|]. intros [HS|Hab']; [by apply Hfait | done].
Qed.

Lemma rempli_fin (S : nat → nat → Prop) (m : list (list poids)) :
  rempli k R cible S m →
  (∀ a b, a < k → b < k → S a b) →
  ∀ a b, a < k → b < k → R (entree m a b) (cible a b).
Proof. intros [_ Hm] HS a b Ha Hb. apply Hm; [done..|]. by apply HS. Qed.

End Remplissage.

(** ** [graphe_symetrique] *)

Lemma eq_p_refl (a : poids) : eq_p a a.
Proof. destruct a; cbn; [apply Qeq_refl | done]. Qed.

Lemma symetrique_pour_entree (R : relation poids) (g : GrapheValue) (i j : nat) :
  symetrique_pour R g → i < nb_sommets g → j < nb_sommets g →
  R (entree (matrice g) i j) (entree (matrice g) j i).
Proof.
  unfold symetrique_pour. rewrite Forall_forall. intros H Hi Hj.
  specialize (H i). rewrite Forall_forall in H.
  apply H; apply elem_of_seq; lia.
Qed.

Lemma carree_dims (g : GrapheValue) : carree g ↔ dims (nb_sommets g) (matrice g).
Proof. unfold carree, dims. tauto. Qed.

Lemma matrice_ext (k : nat) (m1 m2 : list (list poids)) :
  dims k m1 → dims k m2 →
  (∀ i j, entree m1 i j = entree m2 i j) → m1 = m2.
Proof.
  intros [Hl1 Ha1] [Hl2 Ha2] He. apply list_eq. intros i.
  destruct (m1 !! i) as [l1|] eqn:H1.
  - destruct (lookup_lt_is_Some_2 m2 i) as [l2 H2];
      [rewrite Hl2, <- Hl1; by eapply lookup_lt_Some|].
    rewrite H2. f_equal. apply list_eq. intros j.
    rewrite Forall_lookup in Ha1, Ha2.
    specialize (Ha1 i l1 H1). specialize (Ha2 i l2 H2).
    specialize (He i j). unfold entree in He. rewrite H1, H2 in He.
    destruct (l1 !! j) as [w1|] eqn:Hj1.
    + destruct (lookup_lt_is_Some_2 l2 j) as [w2 Hj2];
        [rewrite Ha2, <- Ha1; by eapply lookup_lt_Some|].
      rewrite Hj2 in *. cbn in He. congruence.
    + apply lookup_ge_None in Hj1. symmetry. apply lookup_ge_None. lia.
  - apply lookup_ge_None in H1. symmetry. apply lookup_ge_None. lia.
Qed.

(** Whatever the matrix, the graph built by [graphe_symetrique] is square
    and has as many vertices as the receiver. *)
Lemma graphe_symetrique_dims (g h : GrapheValue) :
  graphe_symetrique g = Ok h → dims (nb_sommets g) (matrice h).
Proof.
  unfold graphe_symetrique. intros H.
  apply bind_Ok_inv in H as (sym & H & Hh). injection Hh as <-. cbn.
  revert H. apply (pour_inv (dims (nb_sommets g))); [apply dims_graphe_vide|].
  intros i sym0 sym1 _ Hd. apply (pour_inv (dims (nb_sommets g))); [done|].
  clear sym0 sym1 Hd. intros j sym0 sym1 _ Hd H.
  apply bind_Ok_inv in H as (ligne & _ & H).
  apply bind_Ok_inv in H as (w & _ & H).
  destruct (est_inf w); [by injection H as <-|].
  apply bind_Ok_inv in H as (sym' & H1 & H2).
  apply ecrire_Ok in H1 as (Hl1 & Ha1 & _). apply ecrire_Ok in H2 as (Hl2 & Ha2 & _).
  destruct Hd as [Hd1 Hd2]. split; [lia | by apply Ha2, Ha1].
Qed.

(** On a square matrix that is symmetric up to [R], the matrix built by
    [graphe_symetrique] is the original one up to [R]. *)
Lemma graphe_symetrique_pour (R : relation poids) (g : GrapheValue) :
  Reflexive R → carree g → symetrique_pour R g →
  ∃ h, graphe_symetrique g = Ok h ∧
    ∀ i j, i < nb_sommets g → j < nb_sommets g →
      R (entree (matrice h) i j) (entree (matrice g) i j).
Proof.
  intros Hrefl Hc Hsym. unfold graphe_symetrique.
  set (n := nb_sommets g). set (cible := entree (matrice g)).
  assert (R Infini Infini) as Hinf by done.
  destruct (pour_prefixe_ok (λ l1 sym, rempli n R cible (λ a _, a ∈ l1) sym)
              (seq 0 n)
              (λ sym i, pour (seq 0 n)
                 (λ sym j, ligne ← lire (matrice g) i; w ← lire ligne j;
                    if est_inf w then Ok sym
                    else sym' ← ecrire sym i j w; ecrire sym' j i w) sym)
              (graphe_vide n)) as (sym & -> & Hsym_fin).
  - eapply rempli_affaiblir; [done | apply rempli_vide |].
    intros a b _ _ Ha. by apply elem_of_nil in Ha.
  - intros l1 i l2 sym Hl Hrem.
    assert (i < n) as Hi.
    { assert (i ∈ seq 0 n) as Hin by (rewrite Hl; apply elem_of_app; right; constructor).
      apply elem_of_seq in Hin. lia. }
    destruct (pour_prefixe_ok
                (λ c1 sym, rempli n R cible (λ a b, a ∈ l1 ∨ (a = i ∧ b ∈ c1)) sym)
                (seq 0 n)
                (λ sym j, ligne ← lire (matrice g) i; w ← lire ligne j;
                   if est_inf w then Ok sym
                   else sym' ← ecrire sym i j w; ecrire sym' j i w) sym)
      as (sym1 & Hrun & Hsym1).
    + eapply rempli_affaiblir; [done..|].
      intros a b _ _ [?|[_ Hb]]; [by left | by apply elem_of_nil in Hb].
    + intros c1 j c2 sym0 Hc1 Hrem0.
      assert (j < n) as Hj.
      { assert (j ∈ seq 0 n) as Hin by (rewrite Hc1; apply elem_of_app; right; constructor).
        apply elem_of_seq in Hin. lia. }
      destruct (lire_entree g Hc i j Hi Hj) as (ligne & -> & Hw).
      rewrite bind_Ok, Hw, bind_Ok. fold (cible i j).
      destruct (cible i j) as [q|] eqn:Hcij; cbn.
      * destruct (rempli_ecrire n R cible _ sym0 i j (Fini q) Hrem0 Hi Hj)
          as (sym' & -> & Hrem'); [by rewrite Hcij|].
        rewrite bind_Ok.
        destruct (rempli_ecrire n R cible _ sym' j i (Fini q) Hrem' Hj Hi)
          as (sym'' & -> & Hrem'').
        { rewrite <- Hcij. by apply (symetrique_pour_entree R g i j). }
        exists sym''. split; [done|].
        eapply rempli_affaiblir; [done..|].
        intros a b _ _ [?|[-> [Hb|Hb%list_elem_of_singleton]%elem_of_app]];
          [tauto | tauto | subst; tauto].
      * exists sym0. split; [done|].
        eapply rempli_affaiblir; [done..|].
        intros a b _ _ [?|[-> [Hb|Hb%list_elem_of_singleton]%elem_of_app]];
          [tauto | tauto | subst; tauto].
    + exists sym1. split; [done|].
      eapply rempli_affaiblir; [done..|].
      intros a b _ Hb [Ha|Ha%list_elem_of_singleton]%elem_of_app; [tauto|].
      left. right. split; [done|]. apply elem_of_seq. lia.
  - rewrite bind_Ok. eexists. split; [done|]. cbn.
    intros i j Hi Hj. eapply rempli_fin; [done| |done..].
    intros a b Ha _. apply elem_of_seq. lia.
Qed.

(** C9. On a square matrix with [matrice[i][j] == matrice[j][i]] for all
    [i], [j], [graphe_symetrique] returns a square graph with the same
    number of vertices and, entry for entry, weights [==] to the original
    ones; if the two entries are moreover identical for all [i], [j], the
    graph returned is the original one. *)
Theorem graphe_symetrique_symetrique (g : GrapheValue) :
  carree g → symetrique g →
  ∃ h, graphe_symetrique g = Ok h ∧
    nb_sommets h = nb_sommets g ∧ carree h ∧
    (∀ i j, eq_p (entree (matrice h) i j) (entree (matrice g) i j)) ∧
    (symetrique_pour eq g → h = g).
Proof.
  intros Hc Hsym.
  destruct (graphe_symetrique_pour eq_p g eq_p_refl Hc Hsym) as (h & Hh & Heq).
  pose proof (graphe_symetrique_dims g h Hh) as Hd.
  assert (nb_sommets h = nb_sommets g) as Hn by apply Hd.
  exists h. repeat split; [done | done | | |].
  - apply carree_dims. by rewrite Hn.
  - intros i j. destruct (decide (i < nb_sommets g ∧ j < nb_sommets g)) as [[Hi Hj]|Hij].
    + by apply Heq.
    + rewrite (entree_hors_dims _ _ i j Hd Hij).
      apply carree_dims in Hc. by rewrite (entree_hors_dims _ _ i j Hc Hij).
  - intros Hsym'.
    destruct (graphe_symetrique_pour eq g _ Hc Hsym') as (h' & Hh' & Heq').
    assert (h' = h) as -> by congruence.
    enough (matrice h = matrice g) as Hm
      by (destruct g, h; cbn in Hm; by rewrite Hm).
    apply (matrice_ext (nb_sommets g)); [done | by apply carree_dims in Hc |].
    intros i j. destruct (decide (i < nb_sommets g ∧ j < nb_sommets g)) as [[Hi Hj]|Hij].
    + by apply Heq'.
    + rewrite (entree_hors_dims _ _ i j Hd Hij).
      apply carree_dims in Hc. by rewrite (entree_hors_dims _ _ i j Hc Hij).
Qed.

Lemma symetrique_reseau7 : symetrique reseau7.
Proof. apply (bool_decide_unpack _). vm_compute. exact I. Defined.

Lemma graphe_symetrique_symetrique_witness :
  ∃ h, graphe_symetrique reseau7 = Ok h ∧
    nb_sommets h = 7 ∧ carree h ∧
    (∀ i j, eq_p (entree (matrice h) i j) (entree (matrice reseau7) i j)) ∧
    (symetrique_pour eq reseau7 → h = reseau7).
Proof.
  exact (graphe_symetrique_symetrique reseau7 carree_reseau7 symetrique_reseau7).
Defined.

(** ** Traversals *)

Lemma taille_bornee (n : nat) (X : gset nat) : (∀ x, x ∈ X → x < n) → size X ≤ n.
Proof.
  intros HX. rewrite <- (size_set_seq (C := gset nat) 0 n).
  apply subseteq_size. intros x Hx. apply elem_of_set_seq. specialize (HX x Hx). lia.
Qed.

(** The inner [for] of a traversal: every vertex appended to the queue is
    a new member of the set. *)
Lemma foldl_enfiler (vs : list nat) (fv0 : list nat * gset nat) :
  let fv := foldl enfiler fv0 vs in
  length fv.1 + size fv0.2 = length fv0.1 + size fv.2 ∧
  (∀ x, x ∈ fv.1 → x ∈ fv0.1 ∨ x ∈ vs) ∧
  (∀ x, x ∈ fv.2 → x ∈ fv0.2 ∨ x ∈ vs).
Proof.
  revert fv0. induction vs as [|v vs IH]; intros fv0; cbn.
  - repeat split; [by left | by left].
  - destruct (IH (enfiler fv0 v)) as (Hlen & Hf & Hv).
    unfold enfiler in *. destruct (decide (v ∈ fv0.2)) as [Hin|Hnin]; cbn in *.
    + repeat split; [done | |].
      * intros x [?|?]%Hf; [by left | right; by constructor].
      * intros x [?|?]%Hv; [by left | right; by constructor].
    + rewrite length_app, size_union in Hlen by (by apply disjoint_singleton_r).
      rewrite size_singleton in Hlen.
      cbn in Hlen. repeat split; [lia | |].
      * intros x [[?| ->%list_elem_of_singleton]%elem_of_app|?]%Hf;
          [by left | right; by constructor | right; by constructor].
      * intros x [[?| ->%elem_of_singleton]%elem_of_union|?]%Hv;
          [by left | right; by constructor | right; by constructor].
Qed.

(** With neighbours in range, a bound of [length file + n - size vus]
    turns is enough for the queue to empty. *)
Lemma parcours_ok (n : nat) (voisins : nat → resultat (list nat)) :
  (∀ x, x < n → ∃ l, voisins x = Ok l ∧ ∀ j, j ∈ l → j < n) →
  ∀ fuel file vus,
    (∀ x, x ∈ file → x < n) → (∀ x, x ∈ vus → x < n) →
    length file + n ≤ fuel + size vus →
    ∃ r, parcours fuel voisins file vus = Ok r ∧ ∀ x, x ∈ r → x < n.
Proof.
  intros Hvois. induction fuel as [|fuel IH]; intros file vus Hfile Hvus Hfuel.
  - pose proof (taille_bornee n vus Hvus).
    destruct file; [|cbn in Hfuel; lia]. exists vus. done.
  - destruct file as [|scour reste]; [by exists vus|]. cbn.
    destruct (Hvois scour) as (vs & -> & Hvs); [apply Hfile; by constructor|].
    rewrite bind_Ok.
    destruct (foldl_enfiler vs (reste, vus)) as (Hlen & Hf & Hv). cbn in Hlen, Hf, Hv.
    apply IH.
    + intros x [?|?]%Hf; [apply Hfile; by constructor | by apply Hvs].
    + intros x [?|?]%Hv; [by apply Hvus | by apply Hvs].
    + cbn in Hfuel. lia.
Qed.

Lemma cfc_sommet_ok (m : list (list poids)) (s : nat) :
  dims (length m) m → s < length m →
  ∃ c, cfc_sommet m s = Ok c ∧ s ∈ c ∧ ∀ x, x ∈ c → x < length m.
Proof.
  intros Hd Hs. unfold cfc_sommet, descendants, ascendants.
  set (graphe := {| matrice := m |}).
  assert (carree graphe) as Hc by (by apply carree_dims).
  change (nb_sommets graphe) with (length m).
  destruct (parcours_ok (length m) (λ x, successeurs graphe (Z.of_nat x)))
    with (fuel := S (length m)) (file := [s]) (vus := (∅ : gset nat))
    as (d & -> & Hdb).
  { intros x Hx. rewrite (successeurs_filtre graphe Hc x Hx). eexists. split; [done|].
    intros j [_ Hj%elem_of_seq]%list_elem_of_filter. apply Hj. }
  { by intros x ->%list_elem_of_singleton. }
  { intros x Hx. by apply not_elem_of_empty in Hx. }
  { rewrite size_empty. cbn. lia. }
  destruct (parcours_ok (length m) (λ x, predecesseurs graphe (Z.of_nat x)))
    with (fuel := S (length m)) (file := [s]) (vus := (∅ : gset nat))
    as (a & -> & Hab).
  { intros x Hx. rewrite (predecesseurs_filtre graphe Hc x Hx). eexists. split; [done|].
    intros j [_ Hj%elem_of_seq]%list_elem_of_filter. apply Hj. }
  { by intros x ->%list_elem_of_singleton. }
  { intros x Hx. by apply not_elem_of_empty in Hx. }
  { rewrite size_empty. cbn. lia. }
  rewrite !bind_Ok. eexists. split; [done|]. split; [set_solver|].
  intros x [[Hx _]%elem_of_intersection| ->%elem_of_singleton]%elem_of_union;
    [by apply Hdb | done].
Qed.

(** A component contains its vertex and only vertices of the graph. *)
Lemma cc_sommet_Ok (g : GrapheValue) (s : nat) (c : gset nat) :
  cc_sommet g s = Ok c → s < nb_sommets g →
  s ∈ c ∧ ∀ x, x ∈ c → x < nb_sommets g.
Proof.
  unfold cc_sommet. intros H Hs.
  apply bind_Ok_inv in H as (sym & Hsym & H).
  pose proof (graphe_symetrique_dims g sym Hsym) as Hd.
  assert (length (matrice sym) = nb_sommets g) as Hlen by apply Hd.
  rewrite <- Hlen in Hd, Hs.
  destruct (cfc_sommet_ok (matrice sym) s Hd Hs) as (c' & Hc' & Hin & Hb).
  assert (c' = c) as -> by congruence. by rewrite <- Hlen.
Qed.

Lemma cc_sommet_ok (g : GrapheValue) (s : nat) :
  carree g → s < nb_sommets g → ∃ c, cc_sommet g s = Ok c.
Proof.
  intros Hc Hs. unfold cc_sommet.
  destruct (graphe_symetrique_pour (λ _ _, True) g) as (sym & Hsym & _); [done..| |].
  { unfold symetrique_pour. rewrite Forall_forall. intros i _.
    by rewrite Forall_forall. }
  rewrite Hsym, bind_Ok.
  pose proof (graphe_symetrique_dims g sym Hsym) as Hd.
  assert (length (matrice sym) = nb_sommets g) as Hlen by apply Hd.
  rewrite <- Hlen in Hd, Hs.
  destruct (cfc_sommet_ok (matrice sym) s Hd Hs) as (c & Hc' & _). eauto.
Qed.

(** ** Queries with an index of the caller *)

Lemma enfiler_z_nat (fv : list nat * gset nat) (x : nat) :
  enfiler_z (Z.of_nat <$> fv.1, vers_Z fv.2) x
  = (Z.of_nat <$> (enfiler fv x).1, vers_Z (enfiler fv x).2).
Proof.
  unfold enfiler_z, enfiler, vers_Z. cbn.
  destruct (decide (x ∈ fv.2)) as [Hin|Hnin].
  - rewrite decide_True; [done|]. apply elem_of_map. eauto.
  - rewrite decide_False.
    + cbn. by rewrite fmap_app, set_map_union_L, set_map_singleton_L.
    + intros (y & Hy & Hin)%elem_of_map. apply Nat2Z.inj in Hy as <-. done.
Qed.

Lemma foldl_enfiler_z_nat (vs : list nat) (fv : list nat * gset nat) :
  foldl enfiler_z (Z.of_nat <$> fv.1, vers_Z fv.2) vs
  = (Z.of_nat <$> (foldl enfiler fv vs).1, vers_Z (foldl enfiler fv vs).2).
Proof.
  revert fv. induction vs as [|v vs IH]; intros fv; cbn; [done|].
  rewrite enfiler_z_nat. apply IH.
Qed.

(** On indices of [range], the traversal over Python integers is the
    traversal over [nat]. *)
Lemma parcours_z_nat (vz : Z → resultat (list nat)) (vn : nat → resultat (list nat)) :
  (∀ x, vz (Z.of_nat x) = vn x) →
  ∀ fuel file vus,
    parcours_z fuel vz (Z.of_nat <$> file) (vers_Z vus)
    = c ← parcours fuel vn file vus; Ok (vers_Z c).
Proof.
  intros Hv. induction fuel as [|fuel IH]; intros [|scour reste] vus; cbn; try done.
  rewrite Hv. destruct (vn scour) as [vs| |]; cbn; try done.
  pose proof (foldl_enfiler_z_nat vs (reste, vus)) as Hf. cbn [fst snd] in Hf.
  rewrite Hf. apply IH.
Qed.

Lemma vers_Z_vide : vers_Z ∅ = ∅.
Proof. unfold vers_Z. apply set_map_empty. Qed.

Lemma descendants_z_nat (g : GrapheValue) (i : nat) :
  descendants_z g (Z.of_nat i) = c ← descendants g i; Ok (vers_Z c).
Proof.
  unfold descendants_z, descendants. rewrite <- vers_Z_vide.
  by apply (parcours_z_nat (successeurs g) _) with (file := [i]).
Qed.

Lemma ascendants_z_nat (g : GrapheValue) (i : nat) :
  ascendants_z g (Z.of_nat i) = c ← ascendants g i; Ok (vers_Z c).
Proof.
  unfold ascendants_z, ascendants. rewrite <- vers_Z_vide.
  by apply (parcours_z_nat (predecesseurs g) _) with (file := [i]).
Qed.

Lemma cfc_sommet_z_nat (m : list (list poids)) (i : nat) :
  cfc_sommet_z m (Z.of_nat i) = c ← cfc_sommet m i; Ok (vers_Z c).
Proof.
  unfold cfc_sommet_z, cfc_sommet. rewrite descendants_z_nat, ascendants_z_nat.
  destruct (descendants {| matrice := m |} i) as [d| |]; [|done..]. rewrite !bind_Ok.
  destruct (ascendants {| matrice := m |} i) as [a| |]; [|done..]. rewrite !bind_Ok.
  f_equal. unfold vers_Z. apply set_eq. intros z.
  rewrite elem_of_union, elem_of_intersection, elem_of_singleton, !elem_of_map.
  split.
  - intros [[(x & -> & Hx) (y & Hy & Hy')]| ->].
    + apply Nat2Z.inj in Hy as <-. exists x. split; [done|].
      apply elem_of_union. left. by apply elem_of_intersection.
    + exists i. split; [done|]. apply elem_of_union. right. by apply elem_of_singleton.
  - intros (x & -> & [[Hd Ha]%elem_of_intersection| ->%elem_of_singleton]%elem_of_union).
    + left. split; eauto.
    + by right.
Qed.

Lemma cc_sommet_z_nat (g : GrapheValue) (i : nat) :
  cc_sommet_z g (Z.of_nat i) = c ← cc_sommet g i; Ok (vers_Z c).
Proof.
  unfold cc_sommet_z, cc_sommet. destruct (graphe_symetrique g) as [sym| |]; cbn; try done.
  apply cfc_sommet_z_nat.
Qed.

Lemma successeurs_z_hors (g : GrapheValue) (s : Z) :
  0 < nb_sommets g →
  (Z.of_nat (nb_sommets g) ≤ s ∨ s < - Z.of_nat (nb_sommets g))%Z →
  successeurs g s = Leve IndexError.
Proof.
  intros Hn Hs. unfold successeurs. apply pour_leve; [by apply seq_non_vide|].
  intros b i _. by rewrite lire_z_hors.
Qed.

Lemma predecesseurs_z_hors (g : GrapheValue) (s : Z) :
  carree g → 0 < nb_sommets g →
  (Z.of_nat (nb_sommets g) ≤ s ∨ s < - Z.of_nat (nb_sommets g))%Z →
  predecesseurs g s = Leve IndexError.
Proof.
  intros Hc Hn Hs. unfold predecesseurs. apply pour_leve; [by apply seq_non_vide|].
  intros b i Hi%elem_of_seq.
  destruct (lire_ligne g Hc i) as (ligne & -> & Hlen); [lia|].
  rewrite bind_Ok, lire_z_hors; [done | by rewrite Hlen].
Qed.

Lemma successeurs_z_negatif (g : GrapheValue) (s : Z) :
  (- Z.of_nat (nb_sommets g) ≤ s < 0)%Z →
  successeurs g s = successeurs g (Z.of_nat (nb_sommets g) + s).
Proof.
  intros Hs. unfold successeurs. apply pour_ext. intros b i _.
  by rewrite (lire_z_negatif (matrice g) s Hs).
Qed.

Lemma predecesseurs_z_negatif (g : GrapheValue) (s : Z) :
  carree g → (- Z.of_nat (nb_sommets g) ≤ s < 0)%Z →
  predecesseurs g s = predecesseurs g (Z.of_nat (nb_sommets g) + s).
Proof.
  intros Hc Hs. unfold predecesseurs. apply pour_ext. intros b i Hi%elem_of_seq.
  destruct (lire_ligne g Hc i) as (ligne & -> & Hlen); [lia|].
  rewrite !bind_Ok, lire_z_negatif by (by rewrite Hlen). by rewrite Hlen.
Qed.

(** The first turn of a traversal is the only one that reads the index of
    the caller. *)
Lemma parcours_z_debut (fuel : nat) (voisins : Z → resultat (list nat)) (s s' : Z) :
  voisins s = voisins s' →
  parcours_z fuel voisins [s] ∅ = parcours_z fuel voisins [s'] ∅.
Proof. intros Hv. destruct fuel as [|fuel]; cbn; [done|]. by rewrite Hv. Qed.

Lemma parcours_z_leve (fuel : nat) (voisins : Z → resultat (list nat)) (s : Z)
    (e : exception) :
  voisins s = Leve e → parcours_z (S fuel) voisins [s] ∅ = Leve e.
Proof. intros Hv. cbn. by rewrite Hv. Qed.

Lemma cfc_sommet_z_hors (m : list (list poids)) (s : Z) :
  0 < length m → (Z.of_nat (length m) ≤ s ∨ s < - Z.of_nat (length m))%Z →
  cfc_sommet_z m s = Leve IndexError.
Proof.
  intros Hn Hs. unfold cfc_sommet_z, descendants_z.
  rewrite parcours_z_leve with (e := IndexError); [done|].
  by apply successeurs_z_hors.
Qed.

(** With a negative index in range, [cfc_sommet] computes the descendants
    and ascendants of the vertex [n + s], and adds [s] itself. *)
Lemma cfc_sommet_z_negatif (m : list (list poids)) (s : Z) :
  dims (length m) m → (- Z.of_nat (length m) ≤ s < 0)%Z →
  ∃ D A, descendants_z {| matrice := m |} s = Ok D ∧
    ascendants_z {| matrice := m |} s = Ok A ∧
    descendants_z {| matrice := m |} (Z.of_nat (length m) + s) = Ok D ∧
    ascendants_z {| matrice := m |} (Z.of_nat (length m) + s) = Ok A ∧
    cfc_sommet_z m s = Ok (D ∩ A ∪ {[s]}) ∧
    cfc_sommet_z m (Z.of_nat (length m) + s)
    = Ok (D ∩ A ∪ {[(Z.of_nat (length m) + s)%Z]}).
Proof.
  intros Hd Hs. set (graphe := {| matrice := m |}).
  assert (carree graphe) as Hc by (by apply carree_dims).
  assert (∃ i, i < length m ∧ (Z.of_nat (length m) + s)%Z = Z.of_nat i) as (i & Hi & Hni).
  { exists (Z.to_nat (Z.of_nat (length m) + s)). lia. }
  destruct (cfc_sommet_ok m i Hd Hi) as (c & Hcfc & _).
  unfold cfc_sommet in Hcfc. fold graphe in Hcfc.
  apply bind_Ok_inv in Hcfc as (d & Hdesc & Hcfc).
  apply bind_Ok_inv in Hcfc as (a & Hasc & _).
  assert (descendants_z graphe s = Ok (vers_Z d)) as HD.
  { unfold descendants_z.
    rewrite (parcours_z_debut _ _ s (Z.of_nat i))
      by (rewrite <- Hni; by apply successeurs_z_negatif).
    fold (descendants_z graphe (Z.of_nat i)). by rewrite descendants_z_nat, Hdesc. }
  assert (ascendants_z graphe s = Ok (vers_Z a)) as HA.
  { unfold ascendants_z.
    rewrite (parcours_z_debut _ _ s (Z.of_nat i))
      by (rewrite <- Hni; by apply predecesseurs_z_negatif).
    fold (ascendants_z graphe (Z.of_nat i)). by rewrite ascendants_z_nat, Hasc. }
  exists (vers_Z d), (vers_Z a). rewrite Hni.
  assert (descendants_z graphe (Z.of_nat i) = Ok (vers_Z d)) as HD'
    by (by rewrite descendants_z_nat, Hdesc).
  assert (ascendants_z graphe (Z.of_nat i) = Ok (vers_Z a)) as HA'
    by (by rewrite ascendants_z_nat, Hasc).
  repeat split; try done.
  - unfold cfc_sommet_z. fold graphe. by rewrite HD, HA.
  - unfold cfc_sommet_z. fold graphe. by rewrite HD', HA'.
Qed.

(** C6, as the code has it. On a non-empty square matrix of [n] rows,
    the ten queries that take a vertex index ([degre_sommet],
    [successeurs], [predecesseurs], [descendants], [ascendants],
    [cfc_sommet] and [cc_sommet] of graphe.py, [calculPCCSommet], and
    [degre_sommet] and [proximite_sommet] of reseau.py) raise
    [IndexError] for an index [s >= n] or [s < -n]; an index
    [-n <= s < 0] is not rejected: [cfc_sommet] and [cc_sommet] return
    the common descendants and ascendants of the vertex [n + s] together
    with the negative integer [s] itself, and the eight other queries are
    answered as for the vertex [n + s]. *)
Theorem requetes_indice (g : GrapheValue) (s : Z) :
  carree g → 0 < nb_sommets g →
  let n := Z.of_nat (nb_sommets g) in
  ((n ≤ s ∨ s < - n)%Z →
     degre_sommet g s = Leve IndexError ∧
     successeurs g s = Leve IndexError ∧
     predecesseurs g s = Leve IndexError ∧
     reseau_degre_sommet g s = Leve IndexError ∧
     calculPCCSommet g s = Leve IndexError ∧
     proximite_sommet g s = Leve IndexError ∧
     descendants_z g s = Leve IndexError ∧
     ascendants_z g s = Leve IndexError ∧
     cfc_sommet_z (matrice g) s = Leve IndexError ∧
     cc_sommet_z g s = Leve IndexError) ∧
  ((- n ≤ s < 0)%Z →
     degre_sommet g s = degre_sommet g (n + s) ∧
     successeurs g s = successeurs g (n + s) ∧
     predecesseurs g s = predecesseurs g (n + s) ∧
     calculPCCSommet g s = calculPCCSommet g (n + s) ∧
     (∃ k, degre_sommet g s = Ok k) ∧
     (∃ l, successeurs g s = Ok l) ∧
     (∃ l, predecesseurs g s = Ok l) ∧
     (∃ d p, calculPCCSommet g s = Ok (d, p)) ∧
     reseau_degre_sommet g s = reseau_degre_sommet g (n + s) ∧
     (∃ k, reseau_degre_sommet g s = Ok k) ∧
     proximite_sommet g s = proximite_sommet g (n + s) ∧
     (2 ≤ nb_sommets g → ∃ x, proximite_sommet g s = Ok x) ∧
     (∃ D A, descendants_z g s = Ok D ∧ ascendants_z g s = Ok A ∧
        descendants_z g (n + s) = Ok D ∧ ascendants_z g (n + s) = Ok A ∧
        cfc_sommet_z (matrice g) s = Ok (D ∩ A ∪ {[s]}) ∧
        cfc_sommet_z (matrice g) (n + s) = Ok (D ∩ A ∪ {[(n + s)%Z]})) ∧
     (∃ sym D A, graphe_symetrique g = Ok sym ∧
        descendants_z sym (n + s) = Ok D ∧ ascendants_z sym (n + s) = Ok A ∧
        cc_sommet_z g s = Ok (D ∩ A ∪ {[s]}) ∧
        cc_sommet_z g (n + s) = Ok (D ∩ A ∪ {[(n + s)%Z]}))).
Proof.
  intros Hc Hn n. subst n. pose proof (seq_non_vide _ Hn) as Hseq.
  assert (∀ i, i ∈ seq 0 (nb_sommets g) →
            ∃ ligne, lire (matrice g) i = Ok ligne ∧ length ligne = nb_sommets g) as Hligne.
  { intros i Hi%elem_of_seq. apply lire_ligne; [done | lia]. }
  destruct (graphe_symetrique_pour (λ _ _, True) g) as (sym & Hsym & _); [done..| |].
  { unfold symetrique_pour. rewrite Forall_forall. intros i _.
    by rewrite Forall_forall. }
  pose proof (graphe_symetrique_dims g sym Hsym) as Hdsym.
  assert (length (matrice sym) = nb_sommets g) as Hlsym by apply Hdsym.
  assert (dims (length (matrice g)) (matrice g)) as Hdg by (by apply carree_dims).
  assert (∀ h : GrapheValue, {| matrice := matrice h |} = h) as Heta by (by intros []).
  split.
  - intros Hs.
    assert (lire_z (matrice g) s = Leve IndexError) as Hm by (by apply lire_z_hors).
    assert (calculPCCSommet g s = Leve IndexError) as Hcalc.
    { unfold calculPCCSommet. by rewrite indice_hors. }
    assert (successeurs g s = Leve IndexError) as Hsucc by (by apply successeurs_z_hors).
    assert (predecesseurs g s = Leve IndexError) as Hpred
      by (by apply predecesseurs_z_hors).
    repeat split.
    + unfold degre_sommet. by rewrite Hm.
    + done.
    + done.
    + unfold reseau_degre_sommet. rewrite pour_leve with (e := IndexError); [done..|].
      intros b i _. by rewrite Hm.
    + done.
    + unfold proximite_sommet. by rewrite Hcalc.
    + unfold descendants_z. by apply parcours_z_leve.
    + unfold ascendants_z. by apply parcours_z_leve.
    + by apply cfc_sommet_z_hors.
    + unfold cc_sommet_z. rewrite Hsym, bind_Ok.
      apply cfc_sommet_z_hors; by rewrite Hlsym.
  - intros Hs.
    assert (lire_z (matrice g) s = lire_z (matrice g) (Z.of_nat (nb_sommets g) + s)) as Hm
      by (by apply lire_z_negatif).
    assert (successeurs g s = successeurs g (Z.of_nat (nb_sommets g) + s)) as Hsucc
      by (by apply successeurs_z_negatif).
    assert (predecesseurs g s = predecesseurs g (Z.of_nat (nb_sommets g) + s)) as Hpred
      by (by apply predecesseurs_z_negatif).
    assert (calculPCCSommet g s = calculPCCSommet g (Z.of_nat (nb_sommets g) + s)) as Hcalc.
    { unfold calculPCCSommet. by destruct (indice_negatif _ s Hs) as [-> ->]. }
    assert (degre_sommet g s = degre_sommet g (Z.of_nat (nb_sommets g) + s)) as Hdeg.
    { unfold degre_sommet. by rewrite Hm. }
    assert (reseau_degre_sommet g s = reseau_degre_sommet g (Z.of_nat (nb_sommets g) + s))
      as Hrdeg.
    { unfold reseau_degre_sommet. f_equal. apply pour_ext. intros b i _. by rewrite Hm. }
    assert (proximite_sommet g s = proximite_sommet g (Z.of_nat (nb_sommets g) + s))
      as Hprox.
    { unfold proximite_sommet. by rewrite Hcalc. }
    assert (∃ i, i < nb_sommets g ∧ (Z.of_nat (nb_sommets g) + s)%Z = Z.of_nat i) as (i & Hi & Hni).
    { exists (Z.to_nat (Z.of_nat (nb_sommets g) + s)). lia. }
    destruct (calculPCCSommet_ok g i Hc Hi) as (d & p & Hdp & _).
    split; [done|]. split; [done|]. split; [done|]. split; [done|].
    split.
    { rewrite Hdeg, Hni. unfold degre_sommet. rewrite lire_z_nat.
      destruct (lire_lt (matrice g) i Hi) as (ligne & -> & _). cbn. eauto. }
    split. { rewrite Hsucc, Hni, successeurs_filtre by done. eauto. }
    split. { rewrite Hpred, Hni, predecesseurs_filtre by done. eauto. }
    split. { rewrite Hcalc, Hni, Hdp. eauto. }
    split; [done|].
    split.
    { rewrite Hrdeg, Hni. unfold reseau_degre_sommet.
      fold (successeurs g (Z.of_nat i)). rewrite successeurs_filtre by done. cbn. eauto. }
    split; [done|].
    split.
    { intros Hn2. rewrite Hprox, Hni. unfold proximite_sommet. rewrite Hdp, bind_Ok.
      destruct (nb_sommets g - 1) as [|k] eqn:Hk; [lia|].
      destruct (foldl plus_p (Fini 0) (d, p).1); cbn; eauto. }
    split.
    { destruct (cfc_sommet_z_negatif (matrice g) s Hdg Hs)
        as (D & A & HD & HA & HD' & HA' & Hcfc & Hcfc').
      rewrite Heta in HD, HA, HD', HA'. exists D, A. done. }
    destruct (cfc_sommet_z_negatif (matrice sym) s) as (D & A & _ & _ & HD & HA & Hcfc & Hcfc').
    { by rewrite Hlsym. }
    { by rewrite Hlsym. }
    rewrite Heta, Hlsym in HD, HA. rewrite Hlsym in Hcfc'.
    exists sym, D, A. unfold cc_sommet_z. rewrite Hsym, !bind_Ok. done.
Qed.

Lemma requetes_indice_witness :
  degre_sommet reseau7 7 = Leve IndexError ∧
  predecesseurs reseau7 (-8) = Leve IndexError ∧
  cfc_sommet_z (matrice reseau7) 7 = Leve IndexError ∧
  successeurs reseau7 (-1) = successeurs reseau7 6 ∧
  proximite_sommet reseau7 (-1) = proximite_sommet reseau7 6 ∧
  ∃ D A, descendants_z reseau7 6 = Ok D ∧ ascendants_z reseau7 6 = Ok A ∧
    cfc_sommet_z (matrice reseau7) (-1) = Ok (D ∩ A ∪ {[(-1)%Z]}).
Proof.
  destruct (requetes_indice reseau7 7 carree_reseau7 (Nat.lt_0_succ 6)) as [H7 _].
  destruct (requetes_indice reseau7 (-8) carree_reseau7 (Nat.lt_0_succ 6)) as [H8 _].
  destruct (requetes_indice reseau7 (-1) carree_reseau7 (Nat.lt_0_succ 6)) as [_ H1].
  destruct H7 as (Hdeg7 & _ & _ & _ & _ & _ & _ & _ & Hcfc7 & _);
    [left; vm_compute; discriminate|].
  destruct H8 as (_ & _ & Hpred8 & _); [right; vm_compute; reflexivity|].
  destruct H1 as (_ & Hsucc & _ & _ & _ & _ & _ & _ & _ & _ & Hprox & _ & H & _);
    [split; vm_compute; [discriminate | reflexivity]|].
  destruct H as (D & A & _ & _ & HD & HA & Hcfc & _).
  split; [exact Hdeg7|]. split; [exact Hpred8|]. split; [exact Hcfc7|].
  split; [exact Hsucc|]. split; [exact Hprox|].
  exists D, A. split; [exact HD|]. split; [exact HA | exact Hcfc].
Defined.

(** The claim C6 fails for the index -1 on the seven-vertex network: the
    queries answer for vertex 6, and the component queries return a set
    that holds -1.  On the graph without vertices, [successeurs],
    [predecesseurs] and the traversals read nothing and raise for no
    index. *)
Lemma requetes_indice_contre_exemple :
  degre_sommet reseau7 (-1) = Ok 1 ∧
  successeurs reseau7 (-1) = Ok [5] ∧
  predecesseurs reseau7 (-1) = Ok [5] ∧
  (∃ d p, calculPCCSommet reseau7 (-1) = Ok (d, p)) ∧
  successeurs {| matrice := [] |} 5 = Ok [] ∧
  predecesseurs {| matrice := [] |} 5 = Ok [] ∧
  reseau_degre_sommet reseau7 (-1) = Ok 1 ∧
  (∃ x, proximite_sommet reseau7 (-1) = Ok (Fini x)) ∧
  descendants_z reseau7 (-1) = Ok (list_to_set [0; 1; 2; 3; 4; 5; 6]%Z) ∧
  cfc_sommet_z (matrice reseau7) (-1) = Ok (list_to_set [-1; 0; 1; 2; 3; 4; 5; 6]%Z) ∧
  cc_sommet_z reseau7 (-1) = Ok (list_to_set [-1; 0; 1; 2; 3; 4; 5; 6]%Z) ∧
  descendants_z {| matrice := [] |} 5 = Ok ∅ ∧
  cfc_sommet_z [] 5 = Ok {[5%Z]}.
Proof.
  split; [vm_compute; reflexivity|].
  split; [vm_compute; reflexivity|].
  split; [vm_compute; reflexivity|].
  split; [eexists _, _; vm_compute; reflexivity|].
  split; [vm_compute; reflexivity|].
  split; [vm_compute; reflexivity|].
  split; [vm_compute; reflexivity|].
  split; [eexists; vm_compute; reflexivity|].
  split; [vm_compute; reflexivity|].
  split; [vm_compute; reflexivity|].
  split; [vm_compute; reflexivity|].
  split; vm_compute; reflexivity.
Qed.

(** ** Components *)

Lemma seq_decoupe (n x : nat) (l1 l2 : list nat) :
  seq 0 n = l1 ++ x :: l2 → x = length l1 ∧ x < n.
Proof.
  intros Hl. assert (seq 0 n !! length l1 = Some x) as Hx
    by (rewrite Hl; apply list_lookup_middle; done).
  apply lookup_seq in Hx. lia.
Qed.

(** Invariant rule for [for k in range(n)], indexed by the number of
    turns done. *)
Lemma pour_seq_inv {A : Type} (I : nat → A → Prop) (n : nat)
    (f : A → nat → resultat A) (a a' : A) :
  I 0 a →
  (∀ k b b', k < n → I k b → f b k = Ok b' → I (S k) b') →
  pour (seq 0 n) f a = Ok a' → I n a'.
Proof.
  intros H0 Hstep Hrun.
  apply (pour_prefixe_inv (λ l1, I (length l1))) in Hrun;
    [by rewrite length_seq in Hrun | done |].
  intros l1 x l2 b b' [-> Hx]%seq_decoupe Hb Hf.
  rewrite length_app. cbn. rewrite Nat.add_1_r. by eapply Hstep.
Qed.

Lemma compter_dans (l : list (gset nat)) (c : gset nat) :
  ¬ compter l c < 1 → c ∈ l.
Proof.
  unfold compter. intros Hn.
  destruct (filter (λ x, x = c) l) as [|x l'] eqn:Hf; [cbn in Hn; lia|].
  assert (x ∈ filter (λ x, x = c) l) as Hx by (rewrite Hf; constructor).
  by apply list_elem_of_filter in Hx as [-> Hx].
Qed.

Section SansDoublons.

Variables (n : nat) (f : nat → resultat (gset nat)).

Lemma avant_Ok (s : nat) (avant : list (gset nat)) :
  pour (seq 0 s) (λ l s_bis, c ← f s_bis; Ok (l ++ [c])) [] = Ok avant →
  ∀ c, c ∈ avant → ∃ t, t < s ∧ f t = Ok c.
Proof.
  apply (pour_seq_inv (λ k l, ∀ c, c ∈ l → ∃ t, t < k ∧ f t = Ok c)).
  - intros c Hc. by apply elem_of_nil in Hc.
  - intros k l l' Hk Hl Hstep.
    apply bind_Ok_inv in Hstep as (c & Hc & Hl'). injection Hl' as <-.
    intros c' [Hc'| ->%list_elem_of_singleton]%elem_of_app.
    + destruct (Hl c' Hc') as (t & Ht & Hft). exists t. split; [lia | done].
    + exists k. split; [lia | done].
Qed.

(** The list built by the comprehension holds the component of every
    vertex, and nothing else. *)
Lemma sans_doublons_Ok (ccs : list (gset nat)) :
  sans_doublons n f = Ok ccs →
  (∀ s, s < n → ∃ c, f s = Ok c ∧ c ∈ ccs) ∧
  (∀ c, c ∈ ccs → ∃ s, s < n ∧ f s = Ok c).
Proof.
  unfold sans_doublons.
  apply (pour_seq_inv (λ k res,
           (∀ s, s < k → ∃ c, f s = Ok c ∧ c ∈ res) ∧
           (∀ c, c ∈ res → ∃ s, s < k ∧ f s = Ok c))).
  - split; [intros s Hs; lia | intros c Hc; by apply elem_of_nil in Hc].
  - intros k res res' Hk [Htous Hseuls] Hstep.
    apply bind_Ok_inv in Hstep as (avant & Havant & Hstep).
    apply bind_Ok_inv in Hstep as (c & Hc & Hstep).
    pose proof (avant_Ok k avant Havant) as Hav.
    assert (∀ s, s < k → ∃ c0, f s = Ok c0 ∧ c0 ∈ res') as Hmono.
    { intros s Hs. destruct (Htous s Hs) as (c0 & Hc0 & Hin). exists c0.
      split; [done|]. case_decide; [|by injection Hstep as <-].
      apply bind_Ok_inv in Hstep as (c' & _ & Hres). injection Hres as <-.
      apply elem_of_app. by left. }
    split.
    + intros s Hs. destruct (decide (s = k)) as [->|Hne]; [|apply Hmono; lia].
      exists c. split; [done|]. case_decide as Hcompte.
      * apply bind_Ok_inv in Hstep as (c' & Hc' & Hres). injection Hres as <-.
        assert (c' = c) as -> by congruence.
        apply elem_of_app. right. constructor.
      * injection Hstep as <-. apply compter_dans in Hcompte.
        destruct (Hav c Hcompte) as (t & Ht & Hft).
        destruct (Htous t Ht) as (c0 & Hc0 & Hin). congruence.
    + intros c0 Hc0. case_decide.
      * apply bind_Ok_inv in Hstep as (c' & Hc' & Hres). injection Hres as <-.
        apply elem_of_app in Hc0 as [Hc0| ->%list_elem_of_singleton].
        -- destruct (Hseuls c0 Hc0) as (t & Ht & Hft). exists t. split; [lia | done].
        -- exists k. split; [lia | done].
      * injection Hstep as <-.
        destruct (Hseuls c0 Hc0) as (t & Ht & Hft). exists t. split; [lia | done].
Qed.

Lemma sans_doublons_ok :
  (∀ s, s < n → ∃ c, f s = Ok c) → ∃ ccs, sans_doublons n f = Ok ccs.
Proof.
  intros Hf. unfold sans_doublons.
  destruct (pour_ok (λ _, True) (seq 0 n)
    (λ res s,
       avant ← pour (seq 0 s) (λ l s_bis, c ← f s_bis; Ok (l ++ [c])) [];
       c ← f s;
       if decide (compter avant c < 1) then c' ← f s; Ok (res ++ [c'])
       else Ok res) []) as (ccs & Hccs & _); [done| |eauto].
  intros s res Hs%elem_of_seq _.
  destruct (pour_ok (λ _, True) (seq 0 s)
              (λ l s_bis, c ← f s_bis; Ok (l ++ [c])) []) as (avant & -> & _); [done| |].
  { intros t l Ht%elem_of_seq _. destruct (Hf t) as [c ->]; [lia|]. cbn. eauto. }
  rewrite bind_Ok. destruct (Hf s) as [c Hc]; [lia|]. rewrite Hc, bind_Ok.
  case_decide; [rewrite bind_Ok|]; eauto.
Qed.

End SansDoublons.

(** C7. [est_connexe] returns on every square matrix; whenever it
    returns, [cc_graphe] returns too, the answer is [True] exactly when
    the list of components has one element, and in that case this
    element has as many members as the graph has vertices. *)
Theorem est_connexe_composantes (g : GrapheValue) :
  (carree g → ∃ b, est_connexe g = Ok b) ∧
  (∀ b, est_connexe g = Ok b →
     ∃ ccs, cc_graphe g = Ok ccs ∧
       (b = true ↔ length ccs = 1) ∧
       (length ccs = 1 → ∃ c, ccs = [c] ∧ size c = nb_sommets g)).
Proof.
  split.
  - intros Hc. unfold est_connexe, cc_graphe.
    destruct (sans_doublons_ok (nb_sommets g) (cc_sommet g)) as [ccs ->];
      [intros s Hs; by apply cc_sommet_ok|].
    rewrite bind_Ok. eauto.
  - intros b H. unfold est_connexe in H.
    apply bind_Ok_inv in H as (ccs & Hccs & Hb). injection Hb as <-.
    exists ccs. split; [done|]. split.
    { split; [by intros ?%bool_decide_eq_true | by intros ?; apply bool_decide_eq_true]. }
    intros Hlen. destruct ccs as [|c [|]]; try done. exists c. split; [done|].
    apply sans_doublons_Ok in Hccs as [Htous Hseuls].
    destruct (Hseuls c) as (s0 & Hs0 & Hfs0); [constructor|].
    apply cc_sommet_Ok in Hfs0 as [_ Hborne]; [|done].
    assert (c = set_seq 0 (nb_sommets g)) as ->; [|apply size_set_seq].
    apply set_eq. intros x. rewrite elem_of_set_seq. split.
    + intros Hx%Hborne. lia.
    + intros [_ Hx]. destruct (Htous x) as (cx & Hcx & ->%list_elem_of_singleton); [lia|].
      apply cc_sommet_Ok in Hcx as [Hin _]; [done | lia].
Qed.

Lemma est_connexe_composantes_witness :
  ∃ b ccs, est_connexe reseau7 = Ok b ∧ cc_graphe reseau7 = Ok ccs ∧
    (b = true ↔ length ccs = 1) ∧
    (length ccs = 1 → ∃ c, ccs = [c] ∧ size c = 7).
Proof.
  destruct (est_connexe_composantes reseau7) as [Htot Hcc].
  destruct (Htot carree_reseau7) as [b Hb].
  destruct (Hcc b Hb) as (ccs & Hccs & Hrest).
  exists b, ccs. split; [exact Hb|]. split; [exact Hccs | exact Hrest].
Defined.

(** C2. The seven-vertex network of the [__main__] blocks is the graph of
    the nine unit edges 0-1, 0-3, 1-2, 1-3, 2-3, 2-4, 3-4, 4-5, 5-6; on
    it the distance from 0 to 6 is 4, the degree of 3 is 4, [nb_aretes]
    is 9 and [est_connexe] answers [True]. *)
Theorem reseau7_scenario :
  matrice reseau7
  = matrice_aretes 7 [(0,1); (0,3); (1,2); (1,3); (2,3); (2,4); (3,4); (4,5); (5,6)] ∧
  (∃ d p, calculPCCSommet reseau7 0 = Ok (d, p) ∧ d !! 6 = Some (Fini 4)) ∧
  degre_sommet reseau7 3 = Ok 4 ∧
  (nb_aretes reseau7 == 9)%Q ∧
  est_connexe reseau7 = Ok true.
Proof.
  split; [vm_compute; reflexivity|].
  split; [eexists _, _; split; vm_compute; reflexivity|].
  split; [vm_compute; reflexivity|].
  split; vm_compute; reflexivity.
Qed.

(** ** [plus_grosse_cc] *)

Lemma dict_enumerate_snoc (l : list nat) (y : nat) :
  dict_enumerate (l ++ [y]) = <[y := length l]> (dict_enumerate l).
Proof.
  unfold dict_enumerate. rewrite length_app. cbn [length].
  rewrite seq_app. cbn [seq].
  rewrite zip_with_app by (by rewrite length_seq).
  by rewrite foldl_app.
Qed.

(** On a list without repetition, the dictionary of [enumerate] maps each
    element to its position. *)
Lemma dict_enumerate_lookup (l : list nat) (x i : nat) :
  NoDup l → dict_enumerate l !! x = Some i ↔ l !! i = Some x.
Proof.
  revert x i. induction l as [|y l IH] using rev_ind; intros x i Hnd.
  - unfold dict_enumerate. cbn. rewrite lookup_empty, lookup_nil. split; discriminate.
  - apply NoDup_app in Hnd as (Hnd & Hy & _). rewrite dict_enumerate_snoc.
    assert (y ∉ l) as Hyl.
    { intros Hin. apply (Hy y Hin). constructor. }
    destruct (decide (x = y)) as [->|Hne].
    + rewrite lookup_insert_eq. split.
      * intros [= <-]. by apply list_lookup_middle.
      * intros Hi. f_equal. destruct (decide (i < length l)) as [Hlt|Hge].
        -- rewrite lookup_app_l in Hi by done. destruct Hyl.
           by eapply list_elem_of_lookup_2.
        -- apply lookup_lt_Some in Hi. rewrite length_app in Hi. cbn in Hi. lia.
    + rewrite lookup_insert_ne by done. rewrite (IH x i Hnd). split.
      * intros Hi. rewrite lookup_app_l; [done | by eapply lookup_lt_Some].
      * intros Hi. destruct (decide (i < length l)) as [Hlt|Hge].
        -- by rewrite lookup_app_l in Hi.
        -- rewrite lookup_app_r in Hi by lia.
           apply list_lookup_singleton_Some in Hi as [_ ?]. done.
Qed.

Lemma foldl_max_len (l : list (gset nat)) (c : gset nat) :
  let m := foldl (λ best x, if decide (size best < size x) then x else best) c l in
  m ∈ c :: l ∧ ∀ c', c' ∈ c :: l → size c' ≤ size m.
Proof.
  revert c. induction l as [|y l IH]; intros c; cbn.
  - split; [constructor|]. by intros c' ->%list_elem_of_singleton.
  - destruct (IH (if decide (size c < size y) then y else c)) as [Hin Hmax].
    cbn in Hin, Hmax. split.
    + apply elem_of_cons in Hin as [->|Hin]; [|do 2 constructor; done].
      case_decide; [constructor; constructor | constructor].
    + intros c' [->|[->|Hc']%elem_of_cons]%elem_of_cons.
      * etransitivity; [|apply Hmax; constructor]. case_decide; lia.
      * etransitivity; [|apply Hmax; constructor]. case_decide; lia.
      * apply Hmax. by constructor.
Qed.

Lemma max_len_ok (l : list (gset nat)) :
  l ≠ [] →
  ∃ c, max_len l = Ok c ∧ c ∈ l ∧ ∀ c', c' ∈ l → size c' ≤ size c.
Proof.
  destruct l as [|c l]; [done|]. intros _. cbn. eexists. split; [done|].
  apply foldl_max_len.
Qed.

Lemma taille_elements (c : gset nat) : size c = length (elements c).
Proof. reflexivity. Qed.

Section Copie.

Variables (g : GrapheValue) (c : gset nat) (ordre : list nat).
Hypothesis Hcarree : carree g.
Hypothesis Hborne : ∀ x, x ∈ c → x < nb_sommets g.
Hypothesis Hnodup : NoDup ordre.
Hypothesis Hmembres : ∀ x, x ∈ ordre ↔ x ∈ c.

Local Abbreviation k := (size c).
Local Abbreviation index_map := (dict_enumerate ordre).

Lemma taille_ordre : length ordre = size c.
Proof using Hnodup Hmembres.
  rewrite taille_elements.
  apply Permutation_length, NoDup_Permutation; [done | apply NoDup_elements |].
  intros x. by rewrite Hmembres, elem_of_elements.
Qed.

Lemma ordre_position (x : nat) :
  x ∈ c → ∃ i, i < k ∧ ordre !! i = Some x ∧ chercher index_map x = Ok i.
Proof using Hnodup Hmembres.
  intros Hx. apply Hmembres, list_elem_of_lookup in Hx as [i Hi].
  exists i. split; [rewrite <- taille_ordre; by eapply lookup_lt_Some|].
  split; [done|]. unfold chercher.
  by rewrite (proj2 (dict_enumerate_lookup ordre x i Hnodup) Hi).
Qed.

Lemma ordre_injectif (i j x : nat) :
  ordre !! i = Some x → ordre !! j = Some x → i = j.
Proof using Hnodup. apply NoDup_lookup, Hnodup. Qed.

(** Copy of the edges leaving [old_index], numbered [a], to row [a]. *)
Lemma copier_sommet_ok (l1 l2 : list nat) (old_index : nat) (mat : list (list poids)) :
  ordre = l1 ++ old_index :: l2 →
  rempli k eq (cible_cc g ordre) (λ a _, ∃ oa, ordre !! a = Some oa ∧ oa ∈ l1) mat →
  ∃ mat', copier_sommet g c index_map mat old_index = Ok mat' ∧
    rempli k eq (cible_cc g ordre)
      (λ a _, ∃ oa, ordre !! a = Some oa ∧ oa ∈ l1 ++ [old_index]) mat'.
Proof using Hcarree Hborne Hnodup Hmembres.
  intros Hordre Hrem.
  assert (old_index ∈ c) as Hold.
  { apply Hmembres. rewrite Hordre. apply elem_of_app. right. constructor. }
  destruct (ordre_position old_index Hold) as (a & Ha & Hoa & Hch).
  pose proof (Hborne old_index Hold) as Hold_n.
  unfold copier_sommet. rewrite Hch, bind_Ok.
  rewrite (successeurs_filtre g Hcarree old_index Hold_n), bind_Ok.
  set (succs := filter _ _).
  destruct (pour_prefixe_ok
    (λ c1 mat, rempli k eq (cible_cc g ordre)
       (λ a' b', (∃ oa, ordre !! a' = Some oa ∧ oa ∈ l1) ∨
                 (a' = a ∧ ∃ ob, ordre !! b' = Some ob ∧ ob ∈ c1)) mat)
    succs (copier_arete g c index_map old_index a) mat) as (mat' & Hrun & Hrem').
  - eapply rempli_affaiblir; [done..|].
    intros a' b' _ _ [?|(_ & ob & _ & Hob)]; [by left | by apply elem_of_nil in Hob].
  - intros c1 succ c2 mat0 Hsuccs Hrem0.
    assert (succ ∈ succs) as Hsucc
      by (rewrite Hsuccs; apply elem_of_app; right; constructor).
    apply list_elem_of_filter in Hsucc as [Hfini Hsucc_n%elem_of_seq].
    unfold copier_arete. destruct (decide (succ ∈ c)) as [Hin|Hnin].
    + destruct (lire_entree g Hcarree old_index succ) as (ligne & -> & Hw); [lia..|].
      rewrite bind_Ok, Hw, bind_Ok.
      destruct (ordre_position succ Hin) as (b & Hb & Hob & Hchb).
      rewrite Hchb, bind_Ok.
      destruct (rempli_ecrire k eq (cible_cc g ordre) _ mat0 a b
                  (entree (matrice g) old_index succ) Hrem0 Ha Hb)
        as (mat1 & -> & Hrem1).
      { unfold cible_cc. by rewrite Hoa, Hob. }
      exists mat1. split; [done|].
      eapply rempli_affaiblir; [done..|].
      intros a' b' _ _ [?|(-> & ob & Hob' & [?| ->%list_elem_of_singleton]%elem_of_app)].
      * left. left. by left.
      * left. left. right. eauto.
      * left. right. split; [done|]. by eapply ordre_injectif.
    + exists mat0. split; [done|].
      eapply rempli_affaiblir; [done..|].
      intros a' b' _ _ [?|(-> & ob & Hob' & [?| ->%list_elem_of_singleton]%elem_of_app)].
      * left. by left.
      * left. right. eauto.
      * destruct Hnin. apply Hmembres. by eapply list_elem_of_lookup_2.
  - exists mat'. split; [done|].
    eapply rempli_affaiblir; [done..|].
    intros a' b' _ Hb' (oa & Hoa' & [?| ->%list_elem_of_singleton]%elem_of_app).
    + left. left. eauto.
    + assert (a' = a) as -> by (by eapply ordre_injectif).
      rewrite <- taille_ordre in Hb'.
      destruct (lookup_lt_is_Some_2 ordre b' Hb') as [ob Hob].
      destruct (entree (matrice g) old_index ob) as [q|] eqn:He.
      * left. right. split; [done|]. exists ob. split; [done|].
        apply list_elem_of_filter. split; [by rewrite He|].
        apply elem_of_seq. split; [lia|]. cbn.
        apply Hborne, Hmembres. by eapply list_elem_of_lookup_2.
      * right. unfold cible_cc. by rewrite Hoa, Hob.
Qed.

Lemma copier_ok :
  ∃ mat, pour ordre (copier_sommet g c index_map) (graphe_vide k) = Ok mat ∧
    dims k mat ∧
    ∀ a b oa ob, ordre !! a = Some oa → ordre !! b = Some ob →
      entree mat a b = entree (matrice g) oa ob.
Proof using Hcarree Hborne Hnodup Hmembres.
  destruct (pour_prefixe_ok
    (λ l1 mat, rempli k eq (cible_cc g ordre)
       (λ a _, ∃ oa, ordre !! a = Some oa ∧ oa ∈ l1) mat)
    ordre (copier_sommet g c index_map) (graphe_vide k)) as (mat & Hrun & Hrem).
  - eapply rempli_affaiblir; [done | apply rempli_vide |].
    intros a b _ _ (oa & _ & Hoa). by apply elem_of_nil in Hoa.
  - intros l1 old_index l2 mat0 Hordre Hrem0. by eapply copier_sommet_ok.
  - exists mat. split; [done|]. split; [apply Hrem|].
    intros a b oa ob Hoa Hob.
    assert (a < k ∧ b < k) as [Ha Hb]
      by (rewrite <- taille_ordre; split; by eapply lookup_lt_Some).
    pose proof (rempli_fin k eq (cible_cc g ordre) _ mat Hrem) as Hfin.
    rewrite Hfin; [unfold cible_cc; by rewrite Hoa, Hob | | done..].
    intros a' b' Ha' _. rewrite <- taille_ordre in Ha'.
    destruct (lookup_lt_is_Some_2 ordre a' Ha') as [oa' Hoa'].
    exists oa'. split; [done | by eapply list_elem_of_lookup_2].
Qed.

End Copie.

Lemma croissant_iteration : ordre_iteration croissant.
Proof.
  intros c. unfold croissant. split.
  - rewrite merge_sort_Permutation. apply NoDup_elements.
  - intros x. by rewrite merge_sort_Permutation, elem_of_elements.
Defined.

(** On the graph [m3] of graphe.py, whose largest component [{0, 1, 2}] is
    iterated in increasing order. *)
Lemma plus_grosse_cc_m3 :
  plus_grosse_cc croissant graphe_m3 =
  Ok {| matrice := [[Infini; Fini 3; Fini 5];
                    [Fini 3; Infini; Fini 8];
                    [Fini 5; Fini 8; Infini]] |}.
Proof. vm_compute. reflexivity. Qed.

Lemma ordre_189_iteration : ordre_iteration ordre_189.
Proof.
  intros c. unfold ordre_189. case_decide as Hc; [|apply croissant_iteration].
  subst c. split.
  - apply (bool_decide_unpack _). vm_compute. exact I.
  - intros x. rewrite !elem_of_union, !elem_of_singleton, !elem_of_cons, elem_of_nil.
    tauto.
Qed.

(** On a component that CPython does not iterate in increasing order. *)
Lemma plus_grosse_cc_189 :
  plus_grosse_cc ordre_189 graphe_189 =
  Ok {| matrice := [[Infini; Fini 2; Fini 3];
                    [Fini 2; Infini; Infini];
                    [Fini 3; Infini; Infini]] |}.
Proof. vm_compute. reflexivity. Qed.

(** C8. On a non-empty square matrix and whatever the order [ordre] in
    which Python iterates a set, [plus_grosse_cc] returns a square graph
    [h] whose number of vertices is the size of a largest set [c] of
    [cc_graphe]; with the members of [c] numbered in the order in which
    the set is iterated, every member has a number, and the entry of [h]
    between the vertices numbered [a] and [b] is the entry of the original
    matrix between the corresponding members of [c]; [h] has no other
    vertex, hence no edge to a vertex outside [c]. *)
Theorem plus_grosse_cc_sous_graphe (ordre : gset nat → list nat) (g : GrapheValue) :
  ordre_iteration ordre → carree g → 0 < nb_sommets g →
  ∃ ccs c h, cc_graphe g = Ok ccs ∧ c ∈ ccs ∧
    (∀ c', c' ∈ ccs → size c' ≤ size c) ∧
    plus_grosse_cc ordre g = Ok h ∧
    nb_sommets h = size c ∧ carree h ∧
    (∀ a, a < nb_sommets h → ∃ oa, ordre c !! a = Some oa ∧ oa ∈ c) ∧
    (∀ oa, oa ∈ c → ∃ a, a < nb_sommets h ∧ ordre c !! a = Some oa) ∧
    (∀ a b oa ob, ordre c !! a = Some oa → ordre c !! b = Some ob →
       entree (matrice h) a b = entree (matrice g) oa ob).
Proof.
  intros Hord Hc Hn.
  destruct (sans_doublons_ok (nb_sommets g) (cc_sommet g)) as [ccs Hccs];
    [intros s Hs; by apply cc_sommet_ok|].
  pose proof (sans_doublons_Ok _ _ ccs Hccs) as [Htous Hseuls].
  destruct (max_len_ok ccs) as (c & Hmax & Hin & Hgrand).
  { destruct (Htous 0 Hn) as (c0 & _ & Hc0). intros ->. by apply elem_of_nil in Hc0. }
  assert (∀ x, x ∈ c → x < nb_sommets g) as Hborne.
  { destruct (Hseuls c Hin) as (s & Hs & Hfs). by apply cc_sommet_Ok in Hfs as [_ ?]. }
  destruct (Hord c) as [Hnd Hmem].
  destruct (copier_ok g c (ordre c) Hc Hborne Hnd Hmem) as (mat & Hmat & Hd & Hentrees).
  pose proof (taille_ordre c (ordre c) Hnd Hmem) as Htaille.
  exists ccs, c, {| matrice := mat |}.
  assert (length mat = size c) as Hlen by apply Hd.
  repeat split; try done.
  - unfold plus_grosse_cc. fold (cc_graphe g) in Hccs.
    by rewrite Hccs, bind_Ok, Hmax, bind_Ok, Hmat.
  - apply carree_dims. unfold nb_sommets. cbn. by rewrite Hlen.
  - intros a Ha. unfold nb_sommets in Ha. cbn in Ha. rewrite Hlen, <- Htaille in Ha.
    destruct (lookup_lt_is_Some_2 _ a Ha) as [oa Hoa]. exists oa. split; [done|].
    apply Hmem. by eapply list_elem_of_lookup_2.
  - intros oa Hoa. apply Hmem, list_elem_of_lookup in Hoa as [a Ha].
    exists a. split; [|done]. unfold nb_sommets. cbn. rewrite Hlen, <- Htaille.
    by eapply lookup_lt_Some.
Qed.

Lemma plus_grosse_cc_sous_graphe_witness :
  ∃ ccs c h, cc_graphe graphe_m3 = Ok ccs ∧ c ∈ ccs ∧
    (∀ c', c' ∈ ccs → size c' ≤ size c) ∧
    plus_grosse_cc croissant graphe_m3 = Ok h ∧
    nb_sommets h = size c ∧ carree h ∧
    (∀ a, a < nb_sommets h → ∃ oa, croissant c !! a = Some oa ∧ oa ∈ c) ∧
    (∀ oa, oa ∈ c → ∃ a, a < nb_sommets h ∧ croissant c !! a = Some oa) ∧
    (∀ a b oa ob, croissant c !! a = Some oa → croissant c !! b = Some ob →
       entree (matrice h) a b = entree (matrice graphe_m3) oa ob).
Proof.
  apply (plus_grosse_cc_sous_graphe croissant graphe_m3 croissant_iteration carree_m3).
  cbn. apply Nat.lt_0_succ.
Defined.

(** ** The bounds on the [while] loops are never reached *)

Lemma bind_pas_epuise {A B : Type} (m : resultat A) (f : A → resultat B) :
  m ≠ Epuise → (∀ a, m = Ok a → f a ≠ Epuise) → m ≫= f ≠ Epuise.
Proof. destruct m as [a| |]; cbn; [intros _ Hf; by apply Hf | done | done]. Qed.

Lemma lire_pas_epuise {A : Type} (l : list A) (i : nat) : lire l i ≠ Epuise.
Proof. unfold lire. by destruct (l !! i). Qed.

Lemma indice_pas_epuise (n : nat) (s : Z) : indice n s ≠ Epuise.
Proof. unfold indice. by repeat case_decide. Qed.

Lemma lire_z_pas_epuise {A : Type} (l : list A) (s : Z) : lire_z l s ≠ Epuise.
Proof.
  unfold lire_z. apply bind_pas_epuise; [apply indice_pas_epuise|].
  intros i _. apply lire_pas_epuise.
Qed.

Lemma pour_pas_epuise {A B : Type} (l : list B) (f : A → B → resultat A) (a : A) :
  (∀ b x, x ∈ l → f b x ≠ Epuise) → pour l f a ≠ Epuise.
Proof.
  revert a. induction l as [|x l IH]; intros a Hf; cbn; [done|].
  apply bind_pas_epuise; [apply Hf; constructor|].
  intros a' _. apply IH. intros b y Hy. apply Hf. by constructor.
Qed.

Lemma ecrire_pas_epuise (m : list (list poids)) (i j : nat) (w : poids) :
  ecrire m i j w ≠ Epuise.
Proof.
  unfold ecrire. apply bind_pas_epuise; [apply lire_pas_epuise|]. intros ligne _.
  apply bind_pas_epuise; [apply lire_pas_epuise | done].
Qed.

Lemma relacher_pas_epuise (g : GrapheValue) (c j : nat)
    (dp : list poids * list (option nat)) :
  relacher g c dp j ≠ Epuise.
Proof.
  unfold relacher. apply bind_pas_epuise; [apply lire_pas_epuise|]. intros ligne _.
  apply bind_pas_epuise; [apply lire_pas_epuise|]. intros w _.
  destruct (est_inf w); [done|].
  apply bind_pas_epuise; [apply lire_pas_epuise|]. intros dc _.
  apply bind_pas_epuise; [apply lire_pas_epuise|]. intros dn _.
  by destruct (ltb_p _ dn).
Qed.

Lemma min_cle_pas_epuise (d : list poids) (l : list nat) (best : nat) (cle : poids) :
  min_cle d best cle l ≠ Epuise.
Proof.
  revert best cle. induction l as [|x l IH]; intros best cle; cbn; [done|].
  apply bind_pas_epuise; [apply lire_pas_epuise|]. intros kx _.
  destruct (ltb_p kx cle); apply IH.
Qed.

Lemma iteration_pas_epuise (g : GrapheValue) (st : etat) : iteration g st ≠ Epuise.
Proof.
  unfold iteration. apply bind_pas_epuise.
  - unfold min_unvisited. destruct (unvisited st); [done|].
    apply bind_pas_epuise; [apply lire_pas_epuise|]. intros kx _.
    apply min_cle_pas_epuise.
  - intros c _. apply bind_pas_epuise; [|done].
    apply pour_pas_epuise. intros b j _. apply relacher_pas_epuise.
Qed.

(** Whatever the matrix, a bound of the size of [unvisited] is never
    exceeded by the loop of [calculPCCSommet]. *)
Lemma boucle_pas_epuise (g : GrapheValue) (fuel : nat) (st : etat) :
  NoDup (unvisited st) → length (unvisited st) ≤ fuel → boucle fuel g st ≠ Epuise.
Proof.
  revert st. induction fuel as [|fuel IH]; intros st Hnd Hlen; cbn.
  - destruct (unvisited st); [done | cbn in Hlen; lia].
  - destruct (unvisited st) as [|x l] eqn:Hunv; [done|]. rewrite <- Hunv in Hnd, Hlen.
    apply bind_pas_epuise; [apply iteration_pas_epuise|].
    intros st' (c & Hmin & _ & Hunv')%iteration_inv.
    apply min_unvisited_dans in Hmin.
    pose proof (length_retirer c _ Hnd Hmin) as Hl.
    apply IH; rewrite Hunv'; [by apply NoDup_retirer | lia].
Qed.

Lemma calculPCCSommet_pas_epuise (g : GrapheValue) (s : Z) :
  calculPCCSommet g s ≠ Epuise.
Proof.
  unfold calculPCCSommet. apply bind_pas_epuise; [apply indice_pas_epuise|].
  intros i _. apply bind_pas_epuise; [|done].
  apply boucle_pas_epuise; cbn; [apply NoDup_seq | by rewrite length_seq].
Qed.

Lemma successeurs_pas_epuise (g : GrapheValue) (s : Z) : successeurs g s ≠ Epuise.
Proof.
  unfold successeurs. apply pour_pas_epuise. intros b i _.
  apply bind_pas_epuise; [apply lire_z_pas_epuise|]. intros ligne _.
  apply bind_pas_epuise; [apply lire_pas_epuise | done].
Qed.

Lemma predecesseurs_pas_epuise (g : GrapheValue) (s : Z) : predecesseurs g s ≠ Epuise.
Proof.
  unfold predecesseurs. apply pour_pas_epuise. intros b i _.
  apply bind_pas_epuise; [apply lire_pas_epuise|]. intros ligne _.
  apply bind_pas_epuise; [apply lire_z_pas_epuise | done].
Qed.

Lemma successeurs_borne (g : GrapheValue) (s : Z) (l : list nat) :
  successeurs g s = Ok l → ∀ j, j ∈ l → j < nb_sommets g.
Proof.
  unfold successeurs.
  apply (pour_inv (λ l, ∀ j, j ∈ l → j < nb_sommets g)).
  - intros j Hj. by apply elem_of_nil in Hj.
  - intros i b b' Hi%elem_of_seq Hb H.
    apply bind_Ok_inv in H as (ligne & _ & H).
    apply bind_Ok_inv in H as (w & _ & H). injection H as <-.
    destruct (est_inf w); [done|].
    intros j [?| ->%list_elem_of_singleton]%elem_of_app; [by apply Hb | lia].
Qed.

Lemma predecesseurs_borne (g : GrapheValue) (s : Z) (l : list nat) :
  predecesseurs g s = Ok l → ∀ j, j ∈ l → j < nb_sommets g.
Proof.
  unfold predecesseurs.
  apply (pour_inv (λ l, ∀ j, j ∈ l → j < nb_sommets g)).
  - intros j Hj. by apply elem_of_nil in Hj.
  - intros i b b' Hi%elem_of_seq Hb H.
    apply bind_Ok_inv in H as (ligne & _ & H).
    apply bind_Ok_inv in H as (w & _ & H). injection H as <-.
    destruct (est_inf w); [done|].
    intros j [?| ->%list_elem_of_singleton]%elem_of_app; [by apply Hb | lia].
Qed.

(** Whatever the start of the traversal and whatever the neighbour
    function does, provided the neighbours it returns are in range. *)
Lemma parcours_pas_epuise (n : nat) (voisins : nat → resultat (list nat)) :
  (∀ x, voisins x ≠ Epuise) →
  (∀ x l, voisins x = Ok l → ∀ j, j ∈ l → j < n) →
  ∀ fuel file vus,
    (∀ x, x ∈ vus → x < n) → length file + n ≤ fuel + size vus →
    parcours fuel voisins file vus ≠ Epuise.
Proof.
  intros Hpas Hvois. induction fuel as [|fuel IH]; intros file vus Hvus Hfuel.
  - pose proof (taille_bornee n vus Hvus).
    destruct file; [done | cbn in Hfuel; lia].
  - destruct file as [|scour reste]; [done|]. cbn.
    apply bind_pas_epuise; [apply Hpas|]. intros vs Hvs.
    destruct (foldl_enfiler vs (reste, vus)) as (Hlen & _ & Hv). cbn in Hlen, Hv.
    apply IH.
    + intros x [?|?]%Hv; [by apply Hvus | by eapply Hvois].
    + cbn in Hfuel. lia.
Qed.

Lemma cfc_sommet_pas_epuise (m : list (list poids)) (s : nat) :
  cfc_sommet m s ≠ Epuise.
Proof.
  unfold cfc_sommet, descendants, ascendants.
  apply bind_pas_epuise.
  { apply (parcours_pas_epuise (length m)).
    - intros x. apply successeurs_pas_epuise.
    - intros x l. apply successeurs_borne.
    - intros x Hx. by apply not_elem_of_empty in Hx.
    - rewrite size_empty. unfold nb_sommets. cbn. lia. }
  intros d _. apply bind_pas_epuise; [|done].
  apply (parcours_pas_epuise (length m)).
  - intros x. apply predecesseurs_pas_epuise.
  - intros x l. apply predecesseurs_borne.
  - intros x Hx. by apply not_elem_of_empty in Hx.
  - rewrite size_empty. unfold nb_sommets. cbn. lia.
Qed.

Lemma graphe_symetrique_pas_epuise (g : GrapheValue) : graphe_symetrique g ≠ Epuise.
Proof.
  unfold graphe_symetrique. apply bind_pas_epuise; [|done].
  apply pour_pas_epuise. intros sym i _. apply pour_pas_epuise. intros sym' j _.
  apply bind_pas_epuise; [apply lire_pas_epuise|]. intros ligne _.
  apply bind_pas_epuise; [apply lire_pas_epuise|]. intros w _.
  destruct (est_inf w); [done|].
  apply bind_pas_epuise; [apply ecrire_pas_epuise|]. intros sym'' _.
  apply ecrire_pas_epuise.
Qed.

Lemma cc_sommet_pas_epuise (g : GrapheValue) (s : nat) : cc_sommet g s ≠ Epuise.
Proof.
  unfold cc_sommet. apply bind_pas_epuise; [apply graphe_symetrique_pas_epuise|].
  intros sym _. apply cfc_sommet_pas_epuise.
Qed.

Lemma sans_doublons_pas_epuise (n : nat) (f : nat → resultat (gset nat)) :
  (∀ s, f s ≠ Epuise) → sans_doublons n f ≠ Epuise.
Proof.
  intros Hf. unfold sans_doublons. apply pour_pas_epuise. intros res s _.
  apply bind_pas_epuise.
  { apply pour_pas_epuise. intros l t _. apply bind_pas_epuise; [apply Hf | done]. }
  intros avant _. apply bind_pas_epuise; [apply Hf|]. intros c _.
  case_decide; [|done]. apply bind_pas_epuise; [apply Hf | done].
Qed.

Lemma plus_grosse_cc_pas_epuise (ordre : gset nat → list nat) (g : GrapheValue) :
  plus_grosse_cc ordre g ≠ Epuise.
Proof.
  unfold plus_grosse_cc. apply bind_pas_epuise.
  { apply sans_doublons_pas_epuise, cc_sommet_pas_epuise. }
  intros ccs _. apply bind_pas_epuise; [by destruct ccs|].
  intros c _. apply bind_pas_epuise; [|done].
  apply pour_pas_epuise. intros mat old _. unfold copier_sommet.
  apply bind_pas_epuise; [unfold chercher; by destruct (_ !! _)|]. intros new _.
  apply bind_pas_epuise; [apply successeurs_pas_epuise|]. intros succs _.
  apply pour_pas_epuise. intros mat' succ _. unfold copier_arete.
  case_decide; [|done].
  apply bind_pas_epuise; [apply lire_pas_epuise|]. intros ligne _.
  apply bind_pas_epuise; [apply lire_pas_epuise|]. intros w _.
  apply bind_pas_epuise; [unfold chercher; by destruct (_ !! _)|]. intros k _.
  apply ecrire_pas_epuise.
Qed.

(** On every input, the calls of the embedding either return or raise:
    no bound placed on a [while] loop cuts a computation short. *)
Theorem jamais_epuise (ordre : gset nat → list nat) (g : GrapheValue) (s : Z) :
  calculPCCSommet g s ≠ Epuise ∧ calculPCCTousSommets g ≠ Epuise ∧
  diametre g ≠ Epuise ∧ graphe_symetrique g ≠ Epuise ∧
  cc_graphe g ≠ Epuise ∧ est_connexe g ≠ Epuise ∧ plus_grosse_cc ordre g ≠ Epuise.
Proof.
  assert (cc_graphe g ≠ Epuise) as Hcc
    by apply sans_doublons_pas_epuise, cc_sommet_pas_epuise.
  repeat split.
  - apply calculPCCSommet_pas_epuise.
  - unfold calculPCCTousSommets. apply pour_pas_epuise. intros acc x _.
    apply bind_pas_epuise; [apply calculPCCSommet_pas_epuise | done].
  - unfold diametre. apply pour_pas_epuise. intros acc x _.
    apply bind_pas_epuise; [apply calculPCCSommet_pas_epuise|]. intros dp _.
    apply bind_pas_epuise; [by destruct dp.1 | done].
  - apply graphe_symetrique_pas_epuise.
  - done.
  - unfold est_connexe. apply bind_pas_epuise; done.
  - apply plus_grosse_cc_pas_epuise.
Qed.

(** * Further properties of the code *)

(** ** Degrees and neighbours *)

Lemma nb_finis_indices (f : nat → poids) (ligne : list poids) (debut : nat) :
  (∀ j w, ligne !! j = Some w → f (debut + j) = w) →
  length (filter (λ j, est_inf (f j) = false) (seq debut (length ligne)))
  = nb_finis ligne.
Proof.
  unfold nb_finis. revert debut.
  induction ligne as [|x ligne IH]; intros debut Hf; [done|].
  cbn [length seq]. rewrite !filter_cons.
  assert (f debut = x) as Hx by (rewrite <- (Nat.add_0_r debut); by apply Hf).
  rewrite Hx. specialize (IH (S debut)).
  assert (∀ j w, ligne !! j = Some w → f (S debut + j) = w) as Hf'
    by (intros j w Hj; rewrite <- (Hf (S j) w Hj); f_equal; lia).
  specialize (IH Hf'). case_decide; cbn [length]; by rewrite IH.
Qed.

Lemma lire_z_indice {A : Type} (l : list A) (s : Z) (i : nat) :
  indice (length l) s = Ok i → lire_z l s = lire l i.
Proof. unfold lire_z. by intros ->. Qed.

Lemma indice_ok (n : nat) (s : Z) :
  (- Z.of_nat n ≤ s < Z.of_nat n)%Z → ∃ i, indice n s = Ok i ∧ i < n.
Proof.
  intros Hs. unfold indice. case_decide.
  - eexists. split; [done | lia].
  - rewrite decide_True by lia. eexists. split; [done | lia].
Qed.

Lemma successeurs_indice (g : GrapheValue) (s : Z) (i : nat) :
  indice (nb_sommets g) s = Ok i → successeurs g s = successeurs g (Z.of_nat i).
Proof.
  intros Hi. unfold successeurs. apply pour_ext. intros b j _.
  by rewrite (lire_z_indice _ s i Hi), lire_z_nat.
Qed.

Lemma predecesseurs_indice (g : GrapheValue) (s : Z) (i : nat) :
  carree g → indice (nb_sommets g) s = Ok i →
  predecesseurs g s = predecesseurs g (Z.of_nat i).
Proof.
  intros Hc Hi. unfold predecesseurs. apply pour_ext. intros b j Hj%elem_of_seq.
  destruct (lire_ligne g Hc j) as (ligne & -> & Hlen); [lia|].
  rewrite !bind_Ok, lire_z_nat. rewrite <- Hlen in Hi.
  by rewrite (lire_z_indice _ s i Hi).
Qed.

Lemma entree_ligne (m : list (list poids)) (i j : nat) (ligne : list poids) (w : poids) :
  m !! i = Some ligne → ligne !! j = Some w → entree m i j = w.
Proof. unfold entree. by intros -> ->. Qed.

Lemma filter_seq_trie (P : nat → Prop) `{∀ x, Decision (P x)} (debut n : nat) :
  StronglySorted lt (filter P (seq debut n)).
Proof.
  revert debut. induction n as [|n IH]; intros debut; cbn [seq]; [constructor|].
  rewrite filter_cons. case_decide; [|apply IH].
  apply StronglySorted_cons. split; [|apply IH].
  apply Forall_forall. intros x [_ Hx%elem_of_seq]%list_elem_of_filter. lia.
Qed.

(** X1. On a square matrix and for an index [-n <= s < n],
    [degre_sommet] and [successeurs] both return, and the degree is the
    number of successors. *)
Theorem degre_successeurs (g : GrapheValue) (s : Z) :
  carree g → (- Z.of_nat (nb_sommets g) ≤ s < Z.of_nat (nb_sommets g))%Z →
  ∃ l, degre_sommet g s = Ok (length l) ∧ successeurs g s = Ok l.
Proof.
  intros Hc Hs. destruct (indice_ok _ s Hs) as (i & Hi & Hin).
  rewrite (successeurs_indice g s i Hi), (successeurs_filtre g Hc i Hin).
  eexists. split; [|done].
  unfold degre_sommet. rewrite (lire_z_indice _ s i Hi).
  destruct (lire_ligne g Hc i Hin) as (ligne & Hl & Hlen). rewrite Hl, bind_Ok.
  f_equal. rewrite <- Hlen. symmetry. apply nb_finis_indices.
  intros j w Hj. apply lire_Ok in Hl. by apply (entree_ligne _ _ _ ligne).
Qed.

Lemma degre_successeurs_witness :
  ∃ l, degre_sommet reseau7 (-4) = Ok (length l) ∧ successeurs reseau7 (-4) = Ok l.
Proof.
  apply (degre_successeurs reseau7 (-4) carree_reseau7).
  split; vm_compute; [discriminate | reflexivity].
Defined.

(** X2. On a square matrix, [successeurs(i)] and [predecesseurs(j)] list,
    in increasing order and without repetition, the vertices at the other
    end of an edge leaving [i], respectively entering [j]; so [j] is a
    successor of [i] exactly when [i] is a predecessor of [j]. *)
Theorem successeurs_predecesseurs (g : GrapheValue) (i j : nat) :
  carree g → i < nb_sommets g → j < nb_sommets g →
  ∃ succs preds,
    successeurs g (Z.of_nat i) = Ok succs ∧
    predecesseurs g (Z.of_nat j) = Ok preds ∧
    (j ∈ succs ↔ arete g i j) ∧ (i ∈ preds ↔ arete g i j) ∧
    (∀ v, v ∈ succs ↔ v < nb_sommets g ∧ arete g i v) ∧
    (∀ u, u ∈ preds ↔ u < nb_sommets g ∧ arete g u j) ∧
    StronglySorted lt succs ∧ StronglySorted lt preds.
Proof.
  intros Hc Hi Hj.
  rewrite (successeurs_filtre g Hc i Hi), (predecesseurs_filtre g Hc j Hj).
  assert (∀ a b, est_inf (entree (matrice g) a b) = false ↔ arete g a b) as Har.
  { intros a b. unfold arete. destruct (entree (matrice g) a b); cbn.
    - split; [eauto | done].
    - split; [done | by intros [q ?]]. }
  eexists _, _. split; [done|]. split; [done|].
  split; [rewrite list_elem_of_filter, elem_of_seq, Har; intuition lia|].
  split; [rewrite list_elem_of_filter, elem_of_seq, Har; intuition lia|].
  split; [intros v; rewrite list_elem_of_filter, elem_of_seq, Har; intuition lia|].
  split; [intros u; rewrite list_elem_of_filter, elem_of_seq, Har; intuition lia|].
  split; apply filter_seq_trie.
Qed.

Lemma successeurs_predecesseurs_witness :
  ∃ succs preds,
    successeurs reseau7 3 = Ok succs ∧ predecesseurs reseau7 4 = Ok preds ∧
    (4 ∈ succs ↔ arete reseau7 3 4) ∧ (3 ∈ preds ↔ arete reseau7 3 4).
Proof.
  destruct (successeurs_predecesseurs reseau7 3 4 carree_reseau7)
    as (succs & preds & H1 & H2 & H3 & H4 & _); [vm_compute; lia..|].
  exists succs, preds. split; [exact H1|]. split; [exact H2|]. split; [exact H3 | exact H4].
Defined.

Lemma degre_sommet_nat (g : GrapheValue) (i : nat) (ligne : list poids) :
  matrice g !! i = Some ligne → degre_sommet g (Z.of_nat i) = Ok (nb_finis ligne).
Proof.
  intros Hl. unfold degre_sommet. rewrite lire_z_nat.
  by rewrite (proj2 (lire_Ok _ _ _) Hl).
Qed.

Lemma nb_entrees_finies_snoc (m : list (list poids)) (ligne : list poids) :
  nb_entrees_finies (m ++ [ligne]) = nb_entrees_finies m + nb_finis ligne.
Proof. unfold nb_entrees_finies. by rewrite foldl_app. Qed.

Lemma nb_entrees_finies_somme (m : list (list poids)) :
  nb_entrees_finies m = somme_nat (nb_finis <$> m).
Proof. unfold nb_entrees_finies, somme_nat. by rewrite foldl_fmap. Qed.

(** X3. Whatever the matrix, [degres_sommets] returns the list of the [n]
    degrees, in vertex order, and their sum is twice [nb_aretes]. *)
Theorem degres_sommets_poignees (g : GrapheValue) :
  ∃ l, degres_sommets g = Ok l ∧ length l = nb_sommets g ∧
    (∀ i d, l !! i = Some d → degre_sommet g (Z.of_nat i) = Ok d) ∧
    (nb_aretes g == inject_Z (Z.of_nat (somme_nat l)) / 2)%Q.
Proof.
  unfold degres_sommets.
  destruct (pour_prefixe_ok
    (λ l1 lst, lst = nb_finis <$> take (length l1) (matrice g))
    (seq 0 (nb_sommets g))
    (λ lst i, d ← degre_sommet g (Z.of_nat i); Ok (lst ++ [d])) [])
    as (l & -> & Hl).
  - by rewrite take_0.
  - intros l1 i l2 lst [-> Hi]%seq_decoupe ->.
    destruct (lookup_lt_is_Some_2 (matrice g) (length l1) Hi) as [ligne Hligne].
    rewrite (degre_sommet_nat g _ ligne Hligne), bind_Ok.
    eexists. split; [done|].
    rewrite length_app. cbn. rewrite Nat.add_1_r.
    by rewrite (take_S_r _ _ _ Hligne), fmap_app.
  - rewrite length_seq, take_ge in Hl by done. subst l.
    exists (nb_finis <$> matrice g). split; [done|].
    split; [by rewrite length_fmap|]. split.
    + intros i d Hd. rewrite list_lookup_fmap in Hd.
      destruct (matrice g !! i) as [ligne|] eqn:Hligne; [|done].
      injection Hd as <-. by apply degre_sommet_nat.
    + unfold nb_aretes. by rewrite nb_entrees_finies_somme.
Qed.

Lemma degre_sommet_filtre (g : GrapheValue) (s : Z) (i : nat) :
  carree g → indice (nb_sommets g) s = Ok i →
  degre_sommet g s
  = Ok (length (filter (λ j, est_inf (entree (matrice g) i j) = false)
                       (seq 0 (nb_sommets g)))).
Proof.
  intros Hc Hi. pose proof (indice_Ok _ _ _ Hi) as Hin.
  unfold degre_sommet. rewrite (lire_z_indice _ s i Hi).
  destruct (lire_ligne g Hc i Hin) as (ligne & Hl & Hlen). rewrite Hl, bind_Ok.
  f_equal. rewrite <- Hlen. symmetry. apply nb_finis_indices.
  intros j w Hj. apply lire_Ok in Hl. by apply (entree_ligne _ _ _ ligne).
Qed.

(** X4. On a non-empty square matrix the degree computed by
    [ReseauSocial] is, for every index, the outcome of
    [GrapheValue.degre_sommet]; on the graph without vertices the former
    returns 0 for every index, where the latter raises [IndexError]. *)
Theorem reseau_degre_sommet_degre (g : GrapheValue) (s : Z) :
  carree g →
  (0 < nb_sommets g → reseau_degre_sommet g s = degre_sommet g s) ∧
  (nb_sommets g = 0 →
     reseau_degre_sommet g s = Ok 0 ∧ degre_sommet g s = Leve IndexError).
Proof.
  intros Hc.
  assert (reseau_degre_sommet g s = successeurs g s ≫= λ lst, Ok (length lst)) as ->
    by reflexivity.
  split.
  - intros Hn.
    destruct (decide (- Z.of_nat (nb_sommets g) ≤ s < Z.of_nat (nb_sommets g))%Z)
      as [Hs|Hs].
    + destruct (indice_ok _ s Hs) as (i & Hi & Hin).
      rewrite (degre_sommet_filtre g s i Hc Hi), (successeurs_indice g s i Hi).
      by rewrite (successeurs_filtre g Hc i Hin).
    + assert (lire_z (matrice g) s = Leve IndexError) as Hm
        by (apply lire_z_hors; unfold nb_sommets in Hs; lia).
      unfold degre_sommet, successeurs. rewrite Hm.
      rewrite pour_leve with (e := IndexError); [done | by apply seq_non_vide | done].
  - intros Hn. split.
    + unfold successeurs. by rewrite Hn.
    + unfold degre_sommet. rewrite lire_z_hors; [done|].
      unfold nb_sommets in Hn. rewrite Hn. lia.
Qed.

Lemma reseau_degre_sommet_degre_witness :
  reseau_degre_sommet reseau7 3 = degre_sommet reseau7 3.
Proof.
  apply (reseau_degre_sommet_degre reseau7 3 carree_reseau7). cbn. apply Nat.lt_0_succ.
Defined.

(** ** Density and mean degree *)

Lemma reseau_degre_sommet_nat (g : GrapheValue) (i : nat) (ligne : list poids) :
  carree g → matrice g !! i = Some ligne →
  reseau_degre_sommet g (Z.of_nat i) = Ok (nb_finis ligne).
Proof.
  intros Hc Hl. pose proof (lookup_lt_Some _ _ _ Hl) as Hi.
  assert (reseau_degre_sommet g (Z.of_nat i)
          = successeurs g (Z.of_nat i) ≫= λ lst, Ok (length lst)) as -> by reflexivity.
  rewrite (successeurs_filtre g Hc i Hi), bind_Ok. f_equal.
  unfold carree in Hc. rewrite Forall_lookup in Hc. rewrite <- (Hc i ligne Hl).
  apply nb_finis_indices. intros j w Hj. by apply (entree_ligne _ _ _ ligne).
Qed.

Lemma somme_degres (g : GrapheValue) :
  carree g →
  pour (seq 0 (nb_sommets g))
       (λ total i, d ← reseau_degre_sommet g (Z.of_nat i); Ok (total + d)) 0
  = Ok (nb_entrees_finies (matrice g)).
Proof.
  intros Hc.
  destruct (pour_prefixe_ok
    (λ l1 total, total = nb_entrees_finies (take (length l1) (matrice g)))
    (seq 0 (nb_sommets g))
    (λ total i, d ← reseau_degre_sommet g (Z.of_nat i); Ok (total + d)) 0)
    as (total & -> & Htotal).
  - by rewrite take_0.
  - intros l1 i l2 total [-> Hi]%seq_decoupe ->.
    destruct (lookup_lt_is_Some_2 (matrice g) (length l1) Hi) as [ligne Hligne].
    rewrite (reseau_degre_sommet_nat g _ ligne Hc Hligne), bind_Ok.
    eexists. split; [done|].
    rewrite length_app. cbn. rewrite Nat.add_1_r.
    by rewrite (take_S_r _ _ _ Hligne), nb_entrees_finies_snoc.
  - rewrite length_seq, take_ge in Htotal by done. by subst total.
Qed.

(** Without self-loops, a row of a square matrix has at most [n - 1]
    entries that are not [math.inf]. *)
Lemma nb_entrees_finies_borne (g : GrapheValue) :
  carree g → (∀ i, entree (matrice g) i i = Infini) →
  nb_entrees_finies (matrice g) ≤ nb_sommets g * (nb_sommets g - 1).
Proof.
  intros Hc Hdiag.
  enough (∀ k, k ≤ nb_sommets g →
            nb_entrees_finies (take k (matrice g)) ≤ k * (nb_sommets g - 1)) as H.
  { specialize (H (nb_sommets g)). rewrite take_ge in H by done. by apply H. }
  induction k as [|k IH]; intros Hk; [by rewrite take_0|].
  destruct (lookup_lt_is_Some_2 (matrice g) k) as [ligne Hligne]; [done|].
  rewrite (take_S_r _ _ _ Hligne), nb_entrees_finies_snoc.
  unfold carree in Hc. rewrite Forall_lookup in Hc. pose proof (Hc k ligne Hligne) as Hlen.
  destruct (lookup_lt_is_Some_2 ligne k) as [w Hw]; [lia|].
  assert (w = Infini) as -> by (by rewrite <- (Hdiag k), (entree_ligne _ _ _ _ _ Hligne Hw)).
  assert (nb_finis ligne < length ligne) as Hlt.
  { unfold nb_finis. eapply length_filter_lt; [by eapply list_elem_of_lookup_2 | done]. }
  specialize (IH ltac:(lia)). lia.
Qed.

(** X5. [densite] raises [ZeroDivisionError] on a graph of at most one
    vertex, and [degre_moyen] on the graph without vertices.  On a square
    matrix of [n >= 1] rows [degre_moyen] returns the quotient of twice
    [nb_aretes] by [n], which is not negative; on a square matrix of
    [n >= 2] rows [densite] returns a value that is not negative, and at
    most 1 when no vertex has a self-loop. *)
Theorem densite_degre_moyen (g : GrapheValue) :
  carree g →
  let n := inject_Z (Z.of_nat (nb_sommets g)) in
  (nb_sommets g ≤ 1 → densite g = Leve ZeroDivisionError) ∧
  (nb_sommets g = 0 → degre_moyen g = Leve ZeroDivisionError) ∧
  (1 ≤ nb_sommets g →
     ∃ m, degre_moyen g = Ok m ∧ (m == 2 * nb_aretes g / n)%Q ∧ (0 <= m)%Q) ∧
  (2 ≤ nb_sommets g →
     ∃ d, densite g = Ok d ∧ (0 <= d)%Q ∧
       ((∀ i, entree (matrice g) i i = Infini) → (d <= 1)%Q)).
Proof.
  intros Hc n.
  set (c := inject_Z (Z.of_nat (nb_entrees_finies (matrice g)))).
  assert (0 <= c)%Q as Hc0.
  { unfold c. change 0%Q with (inject_Z 0). rewrite <- Zle_Qle. lia. }
  split; [|split; [|split]].
  - intros Hn. unfold densite.
    assert (nb_sommets g = 0 ∨ nb_sommets g = 1) as [-> | ->] by lia; done.
  - intros Hn. unfold degre_moyen. rewrite Hn. done.
  - intros Hn. unfold degre_moyen, nb_aretes.
    rewrite (somme_degres g Hc), bind_Ok. rewrite decide_False by lia.
    fold c. fold n.
    assert (1 <= n)%Q as Hn1.
    { unfold n. change 1%Q with (inject_Z 1). rewrite <- Zle_Qle. lia. }
    eexists. split; [done|]. split.
    + field. lra.
    + apply Qle_shift_div_l; lra.
  - intros Hn. unfold densite, nb_aretes. fold c.
    rewrite inject_Z_mult. unfold Z.sub. rewrite inject_Z_plus. fold n.
    change (inject_Z (Z.opp 1)) with (-1)%Q.
    assert (2 <= n)%Q as Hn2.
    { unfold n. change 2%Q with (inject_Z 2). rewrite <- Zle_Qle. lia. }
    assert (0 < n * (n + -1))%Q as Hpos by nra.
    assert (n * (n + -1) == n * n - n)%Q as Hp by ring.
    set (p := (n * (n + -1))%Q) in *.
    assert (¬ (p / 2 == 0)%Q) as Hmax.
    { intros H0. assert (p == p / 2 * 2)%Q as H1 by field. rewrite H0 in H1. lra. }
    destruct (Qeq_bool (p / 2) 0) eqn:Hb; [by apply Qeq_bool_iff in Hb|].
    eexists. split; [done|].
    assert (c / 2 / (p / 2) == c / p)%Q as Hd by (field; lra).
    split.
    + rewrite Hd. apply Qle_shift_div_l; [done | lra].
    + intros Hdiag. rewrite Hd. apply Qle_shift_div_r; [done|].
      pose proof (nb_entrees_finies_borne g Hc Hdiag) as Hb'.
      assert (c <= inject_Z (Z.of_nat (nb_sommets g * (nb_sommets g - 1))))%Q as Hle.
      { unfold c. rewrite <- Zle_Qle. lia. }
      rewrite Nat2Z.inj_mul, Nat2Z.inj_sub, inject_Z_mult in Hle by lia.
      unfold Z.sub in Hle. rewrite inject_Z_plus in Hle. fold n in Hle.
      change (inject_Z (- Z.of_nat 1)) with (-1)%Q in Hle. fold p in Hle. lra.
Qed.

Lemma densite_degre_moyen_witness :
  ∃ d m, densite reseau7 = Ok d ∧ degre_moyen reseau7 = Ok m ∧
    (m == 2 * nb_aretes reseau7 / 7)%Q ∧ (0 <= d)%Q ∧ (d <= 1)%Q.
Proof.
  destruct (densite_degre_moyen reseau7 carree_reseau7) as (_ & _ & Hm & Hd).
  destruct Hm as (m & Hm & Hmq & _); [vm_compute; lia|].
  destruct Hd as (d & Hd & Hd0 & Hd1); [vm_compute; lia|].
  exists d, m. split; [exact Hd|]. split; [exact Hm|]. split; [exact Hmq|].
  split; [exact Hd0|].
  apply Hd1. intros i. do 7 (destruct i as [|i]; [reflexivity|]). reflexivity.
Defined.

(** ** Dijkstra: the distances are minimal *)

Lemma relacher_cas_fin (g : GrapheValue) (c j : nat) (dp dp' : list poids * list (option nat)) :
  relacher g c dp j = Ok dp' →
  (entree (matrice g) c j = Infini ∧ dp' = dp) ∨
  (∃ q dc dn, entree (matrice g) c j = Fini q ∧ dp.1 !! c = Some dc ∧
     dp.1 !! j = Some dn ∧ ltb_p (plus_p dc (Fini q)) dn = false ∧ dp' = dp) ∨
  (∃ q dc dn, entree (matrice g) c j = Fini q ∧ dp.1 !! c = Some dc ∧
     dp.1 !! j = Some dn ∧ ltb_p (plus_p dc (Fini q)) dn = true ∧
     dp' = (<[j := plus_p dc (Fini q)]> dp.1, <[j := Some c]> dp.2)).
Proof.
  unfold relacher. intros H.
  apply bind_Ok_inv in H as (ligne & Hl & H).
  apply bind_Ok_inv in H as (w & Hw & H).
  pose proof (entree_lire _ _ _ _ _ Hl Hw) as He.
  destruct w as [q|]; cbn in H; [|left; split; congruence].
  apply bind_Ok_inv in H as (dc & Hdc & H).
  apply bind_Ok_inv in H as (dn & Hdn & H).
  apply lire_Ok in Hdc, Hdn. right.
  destruct (ltb_p (plus_p dc (Fini q)) dn) eqn:Hlt; [right | left];
    exists q, dc, dn; repeat split; try done; congruence.
Qed.

Lemma le_p_plus_mono (a b w : poids) : le_p a b → le_p (plus_p a w) (plus_p b w).
Proof. destruct a, b, w; cbn; try done; lra. Qed.

Section Minimalite.

Variables (g : GrapheValue) (s : nat).
Hypothesis Hpos : poids_positifs g.

(** A relaxation from [c] leaves relaxed the edges out of the selected
    vertices that were, and relaxes the edge from [c] to [j]. *)
Lemma relacher_detendue (vis unv : list nat) (c j : nat)
    (dp dp' : list poids * list (option nat)) :
  c ∈ vis →
  inv_dijkstra g s vis unv dp → plus_loin vis c dp.1 →
  relacher g c dp j = Ok dp' →
  (∀ u v, u ∈ vis → detendue g dp.1 u v → detendue g dp'.1 u v) ∧
  detendue g dp'.1 c j.
Proof using Hpos.
  intros Hc Hinv Hloin H.
  apply relacher_cas_fin in H
    as [[He ->]|[(q & dc & dn & He & Hdc & Hdn & Hlt & ->)
                |(q & dc & dn & He & Hdc & Hdn & Hlt & ->)]].
  - split; [done|]. intros du dv q _ _ Hq. congruence.
  - split; [done|]. intros du dv q' Hdu Hdv Hq'.
    assert (q' = q) as -> by congruence.
    assert (du = dc) as -> by congruence. assert (dv = dn) as -> by congruence.
    by apply ltb_p_false.
  - destruct (ltb_p_fini _ _ Hlt) as [x Hx].
    assert (∃ xc, dc = Fini xc) as [xc ->] by (destruct dc; [eauto | done]).
    clear x Hx.
    pose proof (poids_positifs_entree g c j q Hpos He) as Hq.
    pose proof (ltb_p_true _ _ Hlt) as [Hle Hnle].
    assert (j < length dp.1) as Hj by (by eapply lookup_lt_Some).
    assert (j ∉ vis) as Hjvis.
    { intros Hjv. apply Hnle. eapply le_p_trans; [by eapply (Hloin j)|]. cbn. lra. }
    assert (∀ u, u ∈ vis → u ≠ j) as Hvis by congruence.
    cbn. split.
    + intros u v Hu Hdet du dv q' Hdu Hdv Hq'.
      rewrite list_lookup_insert_ne in Hdu by (symmetry; by apply Hvis).
      destruct (decide (v = j)) as [->|Hne].
      * rewrite list_lookup_insert_eq in Hdv by done. injection Hdv as <-.
        eapply le_p_trans; [done|]. by eapply Hdet.
      * rewrite list_lookup_insert_ne in Hdv by done. by eapply Hdet.
    + intros du dv q' Hdu Hdv Hq'. assert (q' = q) as -> by congruence.
      rewrite list_lookup_insert_ne in Hdu by (symmetry; by apply Hvis).
      rewrite list_lookup_insert_eq in Hdv by done.
      assert (du = Fini xc) as -> by congruence. injection Hdv as <-. apply le_p_refl.
Qed.

(** Selection of [c]: the invariant with [c] moved to the selected
    vertices, before any relaxation from [c]. *)
Lemma selection_inv_dijkstra (vis : list nat) (st : etat) (c : nat) :
  inv_dijkstra g s vis (unvisited st) (distances st, preds st) →
  min_unvisited (distances st) (unvisited st) = Ok c →
  inv_dijkstra g s (c :: vis) (retirer c (unvisited st)) (distances st, preds st) ∧
  plus_loin (c :: vis) c (distances st).
Proof.
  intros Hinv Hmin.
  pose proof (min_unvisited_dans _ _ _ Hmin) as Hc.
  destruct (min_unvisited_ok (distances st) (unvisited st))
    as (c' & kc & Hmin' & _ & Hkc & Hall).
  { intros Hnil. rewrite Hnil in Hc. by apply elem_of_nil in Hc. }
  { intros x Hx. pose proof (inv_len_d _ _ _ _ _ Hinv) as Hlen. cbn in Hlen.
    rewrite Hlen. by apply (inv_borne _ _ _ _ _ Hinv). }
  assert (c' = c) as -> by congruence.
  split.
  - pose proof (length_retirer c _ (inv_nodup _ _ _ _ _ Hinv) Hc) as Hlen.
    destruct Hinv. constructor; cbn in *; try done.
    + intros x Hx. destruct (decide (x = c)) as [->|Hne]; [left; by constructor|].
      destruct (inv_couvre0 x Hx); [left; by constructor|].
      right. by apply elem_of_retirer.
    + intros x [->|Hx]%elem_of_cons [Hx' Hne]%elem_of_retirer; [done|].
      by eapply inv_disjoint0.
    + lia.
    + intros x [Hx _]%elem_of_retirer. by apply inv_borne0.
    + by apply NoDup_retirer.
    + intros u v du dv [->|Hu]%elem_of_cons [Hv Hne]%elem_of_retirer Hdu Hdv.
      * destruct (Hall v Hv) as (kx & Hkx & Hle). congruence.
      * by eapply inv_ordre0.
    + intros v u Hv. destruct (inv_pred0 v u Hv) as [Hu Hrest].
      split; [by constructor | done].
    + constructor; [done|]. intros u Hu. by apply (inv_pred0 c u Hu).
  - intros u du dc [->|Hu]%elem_of_cons Hdu Hdc; cbn in *.
    + assert (du = dc) as -> by congruence. apply le_p_refl.
    + by eapply (inv_ordre _ _ _ _ _ Hinv u c).
Qed.

(** One turn of the loop: every edge out of a selected vertex is relaxed
    once the relaxations from the new one are done. *)
Lemma iteration_detendue (vis : list nat) (st st' : etat) :
  inv_dijkstra g s vis (unvisited st) (distances st, preds st) →
  (∀ u v, u ∈ vis → detendue g (distances st) u v) →
  iteration g st = Ok st' →
  ∃ c, inv_dijkstra g s (c :: vis) (unvisited st') (distances st', preds st') ∧
    ∀ u v, u ∈ c :: vis → detendue g (distances st') u v.
Proof using Hpos.
  intros Hinv Hdet Hit. apply iteration_inv in Hit as (c & Hmin & Hrel & Hunv).
  exists c. rewrite Hunv.
  destruct (selection_inv_dijkstra vis st c Hinv Hmin) as [Hinv0 Hloin0].
  apply (pour_prefixe_inv (λ c1 dp,
           inv_dijkstra g s (c :: vis) (retirer c (unvisited st)) dp ∧
           plus_loin (c :: vis) c dp.1 ∧
           (∀ u v, u ∈ vis → detendue g dp.1 u v) ∧
           (∀ j, j ∈ c1 → detendue g dp.1 c j))) in Hrel.
  - destruct Hrel as (Hinv' & _ & Hvis & Hc). split; [done|].
    intros u v [->|Hu]%elem_of_cons; [|by apply Hvis].
    intros du dv q Hdu Hdv Hq. eapply (Hc v); [|done..].
    apply elem_of_seq. apply lookup_lt_Some in Hdv.
    pose proof (inv_len_d _ _ _ _ _ Hinv') as Hlen. cbn in Hlen. lia.
  - split; [done|]. split; [done|]. split; [done|].
    intros j Hj. by apply elem_of_nil in Hj.
  - intros c1 j c2 b b' _ (Hb & Hloin & Hvis & Hc1) Hr.
    assert (c ∈ c :: vis) as Hcin by constructor.
    destruct (relacher_inv_dijkstra g s Hpos _ _ c j b b' Hcin Hb Hloin Hr) as [Hb' Hloin'].
    destruct (relacher_detendue _ _ c j b b' Hcin Hb Hloin Hr) as [Hmono Hj].
    split; [done|]. split; [done|]. split.
    + intros u v Hu. apply Hmono; [by constructor | by apply Hvis].
    + intros j' [Hj'| ->%list_elem_of_singleton]%elem_of_app; [|done].
      apply Hmono; [done | by apply Hc1].
Qed.

End Minimalite.

(** The state in which [calculPCCSommet] leaves its loop. *)
Lemma calculPCCSommet_final (g : GrapheValue) (s : nat) :
  carree g → poids_positifs g → s < nb_sommets g →
  ∃ d p vis, calculPCCSommet g (Z.of_nat s) = Ok (d, p) ∧
    inv_dijkstra g s vis [] (d, p) ∧
    inv_accessible g s (d, p) ∧
    ∀ u v, detendue g d u v.
Proof.
  intros Hc Hpos Hs.
  destruct (boucle_iterer g Hc (nb_sommets g) _ (etat_initial_ok g s))
    as (st & Hb & _ & _ & _); [cbn; by rewrite length_seq|].
  exists (distances st), (preds st).
  pose proof Hb as Hb2.
  apply (boucle_inv g (λ st, ∃ vis,
           inv_dijkstra g s vis (unvisited st) (distances st, preds st) ∧
           ∀ u v, u ∈ vis → detendue g (distances st) u v)) in Hb
    as [(vis & Hinv & Hdet) Hnil].
  - exists vis. rewrite Hnil in Hinv. split; [|split; [done|split]].
    + unfold calculPCCSommet. by rewrite (indice_nat _ s Hs), bind_Ok, Hb2.
    + apply (boucle_inv g (λ st, inv_accessible g s (distances st, preds st))) in Hb2
        as [Hacc _]; [done| |apply etat_initial_accessible].
      intros st0 st1 Hinv0 Hit. apply iteration_inv in Hit as (c & _ & Hrel & _).
      revert Hrel. apply (pour_inv (inv_accessible g s)); [done|].
      intros j b b' _ Hb0 Hr. by eapply relacher_accessible.
    + intros u v du dv q Hdu Hdv Hq. eapply Hdet; [|done..].
      destruct (inv_couvre _ _ _ _ _ Hinv u) as [?|Hn]; [|done|by apply elem_of_nil in Hn].
      pose proof (inv_len_d _ _ _ _ _ Hinv) as Hlen. cbn in Hlen.
      rewrite <- Hlen. by eapply lookup_lt_Some.
  - intros st0 st1 (vis & Hinv & Hdet) Hit.
    destruct (iteration_detendue g s Hpos vis st0 st1 Hinv Hdet Hit) as (c & ? & ?).
    by exists (c :: vis).
  - exists []. split; [by apply etat_initial_inv_dijkstra|].
    intros u v Hu. by apply elem_of_nil in Hu.
Qed.

Lemma chemin_dans_snoc_inv (g : GrapheValue) (a c : nat) (l : list nat) :
  chemin_dans g a (l ++ [c]) →
  ∃ u, last (a :: l) = Some u ∧ chemin_dans g a l ∧ arete g u c.
Proof.
  revert a. induction l as [|b l IH]; intros a; cbn.
  - intros [Hac _]. by exists a.
  - intros [Hab (u & Hu & Hl & Huc)%IH]. exists u. repeat split; done.
Qed.

Lemma entree_finie_bornes (g : GrapheValue) (u v : nat) (q : Q) :
  carree g → entree (matrice g) u v = Fini q → u < nb_sommets g ∧ v < nb_sommets g.
Proof.
  intros Hc%carree_dims He.
  destruct (decide (u < nb_sommets g ∧ v < nb_sommets g)) as [?|Hn]; [done|].
  rewrite (entree_hors_dims _ _ u v Hc Hn) in He. done.
Qed.

(** When every edge is relaxed, no walk from the source is shorter than
    the distance of its end. *)
Lemma detendue_chemins (g : GrapheValue) (s : nat) (d : list poids) :
  carree g → length d = nb_sommets g → d !! s = Some (Fini 0) →
  (∀ u v, detendue g d u v) →
  ∀ v l, last (s :: l) = Some v → chemin_dans g s l →
    ∃ dv, d !! v = Some dv ∧ le_p dv (poids_chemin g (Fini 0) s l).
Proof.
  intros Hc Hlen Hsd Hdet v l. revert v.
  induction l as [|c l IH] using rev_ind; intros v Hlast Hch.
  - injection Hlast as <-. exists (Fini 0). split; [done | cbn; lra].
  - rewrite app_comm_cons, last_snoc in Hlast. injection Hlast as <-.
    apply chemin_dans_snoc_inv in Hch as (u & Hu & Hch & q & Hq).
    destruct (IH u Hu Hch) as (du & Hdu & Hle).
    destruct (entree_finie_bornes g u c q Hc Hq) as [_ Hcn].
    destruct (lookup_lt_is_Some_2 d c) as [dc Hdc]; [lia|].
    exists dc. split; [done|].
    rewrite (poids_chemin_snoc g _ s u c l Hu), Hq.
    apply (le_p_trans _ (plus_p du (Fini q)));
      [by apply (Hdet u c) | by apply le_p_plus_mono].
Qed.

(** X6. On a square matrix with non-negative weights, the distance that
    [calculPCCSommet] returns for a vertex [v] is at most the weight of
    any walk of the graph from the source to [v]: with the walk that the
    predecessor pointers retrace, it is the weight of a shortest one. *)
Theorem calculPCCSommet_minimal (g : GrapheValue) (s : nat) :
  carree g → poids_positifs g → s < nb_sommets g →
  ∃ d p, calculPCCSommet g (Z.of_nat s) = Ok (d, p) ∧
    ∀ v l, last (s :: l) = Some v → chemin_dans g s l →
      ∃ dv, d !! v = Some dv ∧ le_p dv (poids_chemin g (Fini 0) s l).
Proof.
  intros Hc Hpos Hs.
  destruct (calculPCCSommet_final g s Hc Hpos Hs) as (d & p & vis & Hcalc & Hinv & _ & Hdet).
  exists d, p. split; [done|].
  apply detendue_chemins; [done | | | done].
  - apply (inv_len_d _ _ _ _ _ Hinv).
  - apply (inv_source_d _ _ _ _ _ Hinv).
Qed.

Lemma calculPCCSommet_minimal_witness :
  ∃ d p dv, calculPCCSommet reseau7 0 = Ok (d, p) ∧
    d !! 4 = Some dv ∧ le_p dv (poids_chemin reseau7 (Fini 0) 0 [1; 2; 4]).
Proof.
  destruct (calculPCCSommet_minimal reseau7 0 carree_reseau7 poids_positifs_reseau7)
    as (d & p & Hcalc & Hmin); [cbn; apply Nat.lt_0_succ|].
  destruct (Hmin 4 [1; 2; 4]) as (dv & Hdv & Hle); [reflexivity| |].
  { repeat split; by exists 1%Q. }
  exists d, p, dv. split; [exact Hcalc|]. split; [exact Hdv | exact Hle].
Defined.

(** ** Dijkstra: the walks behind the distances *)

(** C1, as the code has it.  On a square matrix with non-negative weights
    and for a source [s] in range, [calculPCCSommet] returns two vectors
    [d], [p] of length [n] such that, (i) from every vertex [v] of finite
    distance, the predecessor pointers lead back to [s] along a walk
    [s, ..., v] of the graph whose weights, added from [s] on, give
    exactly [d[v]]; and (ii) every vertex [v] that a walk from [s]
    reaches with a finite sum of weights, added from [s] on, has a finite
    distance, at most that sum.  In this exact arithmetic every walk has
    a finite sum, so that every vertex reachable from [s] is concerned. *)
Theorem calculPCCSommet_chemin (g : GrapheValue) (s : nat) :
  carree g → poids_positifs g → s < nb_sommets g →
  ∃ d p, calculPCCSommet g (Z.of_nat s) = Ok (d, p) ∧
    length d = nb_sommets g ∧ length p = nb_sommets g ∧
    (∀ v x, d !! v = Some (Fini x) →
       ∃ l, remonter p (nb_sommets g) v [] = Some (s :: l) ∧
         last (s :: l) = Some v ∧ chemin_dans g s l ∧
         poids_chemin g (Fini 0) s l = Fini x) ∧
    (∀ v l w, last (s :: l) = Some v → chemin_dans g s l →
       poids_chemin g (Fini 0) s l = Fini w →
       ∃ x, d !! v = Some (Fini x) ∧ (x <= w)%Q).
Proof.
  intros Hc Hpos Hs.
  destruct (calculPCCSommet_final g s Hc Hpos Hs) as (d & p & vis & Hcalc & Hinv & _ & Hdet).
  pose proof (inv_len_d _ _ _ _ _ Hinv) as Hlen. cbn in Hlen.
  exists d, p. split; [done|]. split; [done|].
  split; [apply (inv_len_p _ _ _ _ _ Hinv)|]. split.
  - intros v x Hv.
    assert (v ∈ vis) as Hvis.
    { destruct (inv_couvre _ _ _ _ _ Hinv v) as [?|Hn]; [|done|by apply elem_of_nil in Hn].
      rewrite <- Hlen. by eapply lookup_lt_Some. }
    destruct (remonter_bien_fonde g s d p vis) with (v := v) (x := x)
      as (l & Hrem & Hrest); try done.
    + apply (inv_bien_fonde _ _ _ _ _ Hinv).
    + intros w u Hw. by destruct (inv_pred _ _ _ _ _ Hinv w u Hw).
    + apply (inv_source_d _ _ _ _ _ Hinv).
    + apply (inv_source_p _ _ _ _ _ Hinv).
    + apply (inv_atteint _ _ _ _ _ Hinv).
    + exists l. split; [|done].
      rewrite (Hrem (nb_sommets g) []); [by rewrite app_nil_r|].
      pose proof (inv_taille _ _ _ _ _ Hinv) as Ht. cbn in Ht. lia.
  - intros v l w Hlast Hch Hw.
    destruct (detendue_chemins g s d Hc Hlen (inv_source_d _ _ _ _ _ Hinv) Hdet v l Hlast Hch)
      as (dv & Hdv & Hle).
    rewrite Hw in Hle. destruct dv as [x|]; [|done]. by exists x.
Qed.

Lemma calculPCCSommet_chemin_witness :
  ∃ d p x l, calculPCCSommet reseau7 0 = Ok (d, p) ∧
    length d = 7 ∧ length p = 7 ∧
    d !! 6 = Some (Fini x) ∧ (x <= 4)%Q ∧
    remonter p 7 6 [] = Some (0 :: l) ∧ last (0 :: l) = Some 6 ∧
    chemin_dans reseau7 0 l ∧ poids_chemin reseau7 (Fini 0) 0 l = Fini x.
Proof.
  destruct (calculPCCSommet_chemin reseau7 0 carree_reseau7 poids_positifs_reseau7)
    as (d & p & Hcalc & Hd & Hp & Hch & Hmin); [cbn; apply Nat.lt_0_succ|].
  destruct (Hmin 6 [3; 4; 5; 6] 4%Q) as (x & Hx & Hle).
  { reflexivity. }
  { repeat split; by exists 1%Q. }
  { vm_compute. reflexivity. }
  destruct (Hch 6 x Hx) as (l & Hrem & Hlast & Hchem & Hw).
  exists d, p, x, l. split; [exact Hcalc|]. split; [exact Hd|]. split; [exact Hp|].
  split; [exact Hx|]. split; [exact Hle|]. split; [exact Hrem|].
  split; [exact Hlast|]. split; [exact Hchem | exact Hw].
Defined.

(** On the graphs of the [__main__] blocks, whose weights and distances
    are small integers, the loop on binary64 floats returns the floats of
    the distances of the exact loop, and the same predecessors. *)
Lemma binaire64_accord :
  (∃ d p, calculPCCSommet reseau7 0 = Ok (d, p) ∧
     Binaire64.calculPCCSommet (binaire64_de_graphe reseau7) 0
     = Ok (binaire64_de_poids <$> d, p)) ∧
  (∃ d p, calculPCCSommet graphe_m3 0 = Ok (d, p) ∧
     Binaire64.calculPCCSommet (binaire64_de_graphe graphe_m3) 0
     = Ok (binaire64_de_poids <$> d, p)).
Proof.
  split; eexists _, _; (split; [vm_compute; reflexivity|]); vm_compute; reflexivity.
Qed.

(** The claim C1 fails on binary64 floats when it is read of every
    reachable vertex.  On the path [0 - 1 - 2] whose two edges weigh
    [1e308], all weights are finite and positive and vertex 2 is reached
    from 0 through 1; but [1e308 + 1e308] overflows to [math.inf], which is
    not smaller than the [math.inf] that vertex 2 starts with: vertex 2
    keeps the distance [math.inf] and the predecessor [None]. *)
Lemma calculPCCSommet_chemin_contre_exemple :
  Binaire64.ltb Binaire64.zero Binaire64.f1e308 = true ∧
  Binaire64.ltb Binaire64.f1e308 Binaire64.inf = true ∧
  Binaire64.plus Binaire64.f1e308 Binaire64.f1e308 = Binaire64.inf ∧
  Binaire64.calculPCCSommet Binaire64.chemin_lourd 0
  = Ok ([Binaire64.zero; Binaire64.f1e308; Binaire64.inf], [None; Some 0; None]).
Proof. repeat split; vm_compute; reflexivity. Qed.

Lemma calculPCCSommet_accessibles (g : GrapheValue) (s : nat) :
  carree g → poids_positifs g → s < nb_sommets g →
  ∃ d p, calculPCCSommet g (Z.of_nat s) = Ok (d, p) ∧
    length d = nb_sommets g ∧
    (∀ v x, d !! v = Some (Fini x) → (0 <= x)%Q) ∧
    ∀ v, (∃ x, d !! v = Some (Fini x)) ↔ accessible g s v.
Proof.
  intros Hc Hpos Hs.
  destruct (calculPCCSommet_final g s Hc Hpos Hs)
    as (d & p & vis & Hcalc & Hinv & Hacc & Hdet).
  exists d, p. split; [done|].
  split; [apply (inv_len_d _ _ _ _ _ Hinv)|].
  split; [apply (inv_positif _ _ _ _ _ Hinv)|].
  intros v. split.
  - intros [x Hx]. destruct Hacc as (_ & _ & Hacc & _). by eapply Hacc.
  - revert v. apply (rtc_ind_r (λ v, ∃ x, d !! v = Some (Fini x)) s).
    + exists 0%Q. apply (inv_source_d _ _ _ _ _ Hinv).
    + intros u c Hsu [q Hq] [xu Hxu].
      destruct (entree_finie_bornes g u c q Hc Hq) as [_ Hcn].
      destruct (lookup_lt_is_Some_2 d c) as [dc Hdc].
      { pose proof (inv_len_d _ _ _ _ _ Hinv) as Hlen. cbn in Hlen. lia. }
      pose proof (Hdet u c _ _ _ Hxu Hdc Hq) as Hle.
      destruct dc as [x|]; [eauto | done].
Qed.

(** X8. On a square matrix with non-negative weights, in the vectors
    returned by [calculPCCSommet]: the source has distance 0 and no
    predecessor; no distance is negative; a vertex other than the source
    has a predecessor exactly when its distance is finite; and a
    predecessor [u] of [v] is a vertex of finite distance with an edge to
    [v] such that the distance of [v] is that of [u] plus the weight of
    the edge. *)
Theorem calculPCCSommet_vecteurs (g : GrapheValue) (s : nat) :
  carree g → poids_positifs g → s < nb_sommets g →
  ∃ d p, calculPCCSommet g (Z.of_nat s) = Ok (d, p) ∧
    d !! s = Some (Fini 0) ∧ p !! s = Some None ∧
    (∀ v x, d !! v = Some (Fini x) → (0 <= x)%Q) ∧
    (∀ v, v ≠ s → (∃ u, p !! v = Some (Some u)) ↔ (∃ x, d !! v = Some (Fini x))) ∧
    (∀ v u, p !! v = Some (Some u) →
       ∃ du q, d !! u = Some (Fini du) ∧ entree (matrice g) u v = Fini q ∧
         d !! v = Some (Fini (du + q)%Q)).
Proof.
  intros Hc Hpos Hs.
  destruct (calculPCCSommet_final g s Hc Hpos Hs)
    as (d & p & vis & Hcalc & Hinv & Hacc & Hdet).
  exists d, p. split; [done|]. destruct Hinv; cbn in *.
  repeat split; try done.
  - intros [u Hu]. destruct (inv_pred0 v u Hu) as (_ & du & q & _ & _ & Hv). eauto.
  - intros [x Hx]. by eapply inv_atteint0.
  - intros v u Hu. by destruct (inv_pred0 v u Hu).
Qed.

Lemma calculPCCSommet_vecteurs_witness :
  ∃ d p, calculPCCSommet reseau7 0 = Ok (d, p) ∧
    d !! 0 = Some (Fini 0) ∧ p !! 0 = Some None.
Proof.
  destruct (calculPCCSommet_vecteurs reseau7 0 carree_reseau7 poids_positifs_reseau7)
    as (d & p & Hcalc & Hd & Hp & _); [cbn; apply Nat.lt_0_succ|].
  exists d, p. split; [exact Hcalc|]. split; [exact Hd | exact Hp].
Defined.

(** ** Traversals compute reachability *)

Lemma foldl_enfiler_elem (vs : list nat) (fv0 : list nat * gset nat) :
  let fv := foldl enfiler fv0 vs in
  (∀ x, x ∈ fv.2 ↔ x ∈ fv0.2 ∨ x ∈ vs) ∧
  (∀ x, x ∈ fv.1 ↔ x ∈ fv0.1 ∨ (x ∈ vs ∧ x ∉ fv0.2)).
Proof.
  revert fv0. induction vs as [|v vs IH]; intros fv0; cbn.
  - split; intros x; rewrite elem_of_nil; tauto.
  - destruct (IH (enfiler fv0 v)) as [Hv Hf]. split; intros x.
    + rewrite Hv, elem_of_cons. unfold enfiler. case_decide; cbn.
      * split; [tauto|]. intros [?|[->|?]]; tauto.
      * rewrite elem_of_union, elem_of_singleton. tauto.
    + rewrite Hf, elem_of_cons. unfold enfiler. case_decide as Hin; cbn.
      * split; [tauto|]. intros [?|[[->|?] ?]]; tauto.
      * rewrite elem_of_app, list_elem_of_singleton, elem_of_union, elem_of_singleton.
        destruct (decide (x = v)) as [->|Hne]; tauto.
Qed.

Section Parcours.

Variables (voisins : nat → resultat (list nat)) (s : nat).

Lemma inv_parcours_debut : inv_parcours voisins s [s] ∅.
Proof.
  repeat split.
  - intros x Hx. by apply not_elem_of_empty in Hx.
  - intros x ->%list_elem_of_singleton. by left.
  - intros x [->|Hx]; [left; constructor | by apply not_elem_of_empty in Hx].
Qed.

Lemma inv_parcours_tour (scour : nat) (reste vs : list nat) (vus : gset nat) :
  inv_parcours voisins s (scour :: reste) vus →
  voisins scour = Ok vs →
  inv_parcours voisins s (foldl enfiler (reste, vus) vs).1
                         (foldl enfiler (reste, vus) vs).2.
Proof.
  intros (Hvus & Hfile & Hclos) Hvs.
  destruct (foldl_enfiler_elem vs (reste, vus)) as [Hv Hf]. cbn in Hv, Hf.
  assert (∀ y, y ∈ vs → tc (voisin voisins) s y) as Hnouv.
  { intros y Hy. assert (voisin voisins scour y) as Hsy by (by exists vs).
    destruct (Hfile scour) as [->|Hsc]; [constructor|by apply tc_once|].
    eapply tc_r; [by apply Hvus | done]. }
  repeat split.
  - intros x [?|?]%Hv; [by apply Hvus | by apply Hnouv].
  - intros x [Hx|[Hx _]]%Hf; [|right; apply Hv; by right].
    destruct (Hfile x) as [?|?]; [by constructor | by left |].
    right. apply Hv. by left.
  - intros x Hx. destruct (decide (x = scour)) as [->|Hne].
    + right. intros y (l & Hl & Hy). apply Hv. right. congruence.
    + assert (x = s ∨ x ∈ vus ∨ (x ∈ vs ∧ x ∉ vus)) as [Hs|[Hs|Hs]].
      { destruct Hx as [?|[?|?]%Hv]; [tauto | tauto |].
        destruct (decide (x ∈ vus)); tauto. }
      * destruct (Hclos x) as [[?|?]%elem_of_cons|Hy]; [by left | done | |].
        -- left. apply Hf. by left.
        -- right. intros y Hxy. apply Hv. left. by apply Hy.
      * destruct (Hclos x) as [[?|?]%elem_of_cons|Hy]; [by right | done | |].
        -- left. apply Hf. by left.
        -- right. intros y Hxy. apply Hv. left. by apply Hy.
      * left. apply Hf. by right.
Qed.

(** When the queue is empty, the set holds what is reached from [s] by at
    least one step, and nothing else. *)
Lemma parcours_correct (fuel : nat) (file : list nat) (vus r : gset nat) :
  inv_parcours voisins s file vus →
  parcours fuel voisins file vus = Ok r →
  ∀ v, v ∈ r ↔ tc (voisin voisins) s v.
Proof.
  revert file vus. induction fuel as [|fuel IH]; intros file vus Hinv Hrun.
  all: destruct file as [|scour reste]; cbn in Hrun; try done.
  1,2: injection Hrun as <-; destruct Hinv as (Hvus & _ & Hclos); intros v;
    (split; [by apply Hvus|]);
    apply (tc_ind_r (λ v, v ∈ vus) s);
    [ intros y Hy; destruct (Hclos s) as [Hn|Hc]; [by left | by apply elem_of_nil in Hn | by apply Hc]
    | intros y z _ Hyz Hy; destruct (Hclos y) as [Hn|Hc];
        [by right | by apply elem_of_nil in Hn | by apply Hc] ].
  apply bind_Ok_inv in Hrun as (vs & Hvs & Hrun).
  exact (IH _ _ (inv_parcours_tour scour reste vs vus Hinv Hvs) Hrun).
Qed.

End Parcours.

Lemma arete_est_inf (g : GrapheValue) (a b : nat) :
  est_inf (entree (matrice g) a b) = false ↔ arete g a b.
Proof.
  unfold arete. destruct (entree (matrice g) a b); cbn.
  - split; [eauto | done].
  - split; [done | by intros [q ?]].
Qed.

Lemma successeurs_hors (g : GrapheValue) (x : nat) :
  nb_sommets g ≤ x → 0 < nb_sommets g →
  successeurs g (Z.of_nat x) = Leve IndexError.
Proof.
  intros Hx Hn. unfold successeurs. apply pour_leve; [by apply seq_non_vide|].
  intros b i _. rewrite lire_z_hors; [done|]. unfold nb_sommets in Hx. lia.
Qed.

Lemma predecesseurs_hors (g : GrapheValue) (x : nat) :
  carree g → nb_sommets g ≤ x → 0 < nb_sommets g →
  predecesseurs g (Z.of_nat x) = Leve IndexError.
Proof.
  intros Hc Hx Hn. unfold predecesseurs. apply pour_leve; [by apply seq_non_vide|].
  intros b i Hi%elem_of_seq.
  destruct (lire_ligne g Hc i) as (ligne & -> & Hlen); [lia|].
  rewrite bind_Ok, lire_z_hors; [done | lia].
Qed.

(** On a square matrix the neighbours enumerated by the traversals are the
    ends of the edges of the graph. *)
Lemma voisin_successeurs (g : GrapheValue) (x y : nat) :
  carree g → voisin (λ x, successeurs g (Z.of_nat x)) x y ↔ arete g x y.
Proof.
  intros Hc. unfold voisin. split.
  - intros (l & Hl & Hy). pose proof (successeurs_borne g _ l Hl y Hy) as Hyn.
    destruct (decide (x < nb_sommets g)) as [Hx|Hx].
    + rewrite (successeurs_filtre g Hc x Hx) in Hl. injection Hl as <-.
      apply list_elem_of_filter in Hy as [Hy _]. by apply arete_est_inf.
    + rewrite successeurs_hors in Hl by lia. done.
  - intros [q Hq]. destruct (entree_finie_bornes g x y q Hc Hq) as [Hx Hy].
    eexists. split; [by apply successeurs_filtre|].
    apply list_elem_of_filter. split; [by rewrite Hq | apply elem_of_seq; lia].
Qed.

Lemma voisin_predecesseurs (g : GrapheValue) (x y : nat) :
  carree g → voisin (λ x, predecesseurs g (Z.of_nat x)) x y ↔ arete g y x.
Proof.
  intros Hc. unfold voisin. split.
  - intros (l & Hl & Hy). pose proof (predecesseurs_borne g _ l Hl y Hy) as Hyn.
    destruct (decide (x < nb_sommets g)) as [Hx|Hx].
    + rewrite (predecesseurs_filtre g Hc x Hx) in Hl. injection Hl as <-.
      apply list_elem_of_filter in Hy as [Hy _]. by apply arete_est_inf.
    + rewrite predecesseurs_hors in Hl by (done || lia). done.
  - intros [q Hq]. destruct (entree_finie_bornes g y x q Hc Hq) as [Hy Hx].
    eexists. split; [by apply predecesseurs_filtre|].
    apply list_elem_of_filter. split; [by rewrite Hq | apply elem_of_seq; lia].
Qed.

Lemma tc_iff {A : Type} (R R' : relation A) (x y : A) :
  (∀ a b, R a b ↔ R' a b) → tc R x y ↔ tc R' x y.
Proof.
  intros H. split; apply (tc_congruence id); intros a b; by apply H.
Qed.

Lemma rtc_iff {A : Type} (R R' : relation A) (x y : A) :
  (∀ a b, R a b ↔ R' a b) → rtc R x y ↔ rtc R' x y.
Proof.
  intros H. split; apply (rtc_congruence id); intros a b; by apply H.
Qed.

Lemma tc_flip {A : Type} (R : relation A) (x y : A) :
  tc (λ a b, R b a) x y ↔ tc R y x.
Proof.
  split.
  - induction 1 as [a b Hab|a b c Hab _ IH]; [by apply tc_once|].
    eapply tc_r; [done | done].
  - induction 1 as [a b Hab|a b c Hab _ IH]; [by apply tc_once|].
    eapply tc_r; [done | done].
Qed.

Lemma parcours_descendants (g : GrapheValue) (s : nat) :
  carree g → s < nb_sommets g →
  ∃ D, descendants g s = Ok D ∧ ∀ v, v ∈ D ↔ tc (arete g) s v.
Proof.
  intros Hc Hs. unfold descendants.
  destruct (parcours_ok (nb_sommets g) (λ x, successeurs g (Z.of_nat x)))
    with (fuel := S (nb_sommets g)) (file := [s]) (vus := (∅ : gset nat))
    as (D & HD & _).
  { intros x Hx. rewrite (successeurs_filtre g Hc x Hx). eexists. split; [done|].
    intros j [_ Hj%elem_of_seq]%list_elem_of_filter. apply Hj. }
  { by intros x ->%list_elem_of_singleton. }
  { intros x Hx. by apply not_elem_of_empty in Hx. }
  { rewrite size_empty. cbn. lia. }
  exists D. split; [done|]. intros v.
  rewrite (parcours_correct _ s _ _ _ _ (inv_parcours_debut _ s) HD).
  apply tc_iff. intros a b. by apply voisin_successeurs.
Qed.

Lemma parcours_ascendants (g : GrapheValue) (s : nat) :
  carree g → s < nb_sommets g →
  ∃ A, ascendants g s = Ok A ∧ ∀ v, v ∈ A ↔ tc (arete g) v s.
Proof.
  intros Hc Hs. unfold ascendants.
  destruct (parcours_ok (nb_sommets g) (λ x, predecesseurs g (Z.of_nat x)))
    with (fuel := S (nb_sommets g)) (file := [s]) (vus := (∅ : gset nat))
    as (A & HA & _).
  { intros x Hx. rewrite (predecesseurs_filtre g Hc x Hx). eexists. split; [done|].
    intros j [_ Hj%elem_of_seq]%list_elem_of_filter. apply Hj. }
  { by intros x ->%list_elem_of_singleton. }
  { intros x Hx. by apply not_elem_of_empty in Hx. }
  { rewrite size_empty. cbn. lia. }
  exists A. split; [done|]. intros v.
  rewrite (parcours_correct _ s _ _ _ _ (inv_parcours_debut _ s) HA).
  rewrite <- tc_flip. apply tc_iff. intros a b. by apply voisin_predecesseurs.
Qed.

(** X9. On a square matrix and for a vertex [s] in range, [descendants]
    returns the set of the vertices that a walk of at least one edge
    reaches from [s], [ascendants] the set of those from which such a
    walk reaches [s]; [s] itself belongs to them only when it lies on a
    cycle. *)
Theorem descendants_ascendants (g : GrapheValue) (s : nat) :
  carree g → s < nb_sommets g →
  ∃ D A, descendants g s = Ok D ∧ ascendants g s = Ok A ∧
    (∀ v, v ∈ D ↔ tc (arete g) s v) ∧
    (∀ v, v ∈ A ↔ tc (arete g) v s) ∧
    (s ∈ D ↔ s ∈ A).
Proof.
  intros Hc Hs.
  destruct (parcours_descendants g s Hc Hs) as (D & HD & HDv).
  destruct (parcours_ascendants g s Hc Hs) as (A & HA & HAv).
  exists D, A. repeat split; try done; try apply HDv; try apply HAv.
  - intros ?%HDv. by apply HAv.
  - intros ?%HAv. by apply HDv.
Qed.

Lemma descendants_ascendants_witness :
  ∃ D A, descendants graphe_m3 0 = Ok D ∧ ascendants graphe_m3 0 = Ok A ∧
    (2 ∈ D ↔ tc (arete graphe_m3) 0 2) ∧ (2 ∈ A ↔ tc (arete graphe_m3) 2 0).
Proof.
  destruct (descendants_ascendants graphe_m3 0 carree_m3)
    as (D & A & HD & HA & HDv & HAv & _); [cbn; apply Nat.lt_0_succ|].
  exists D, A. split; [exact HD|]. split; [exact HA|].
  split; [exact (HDv 2) | exact (HAv 2)].
Defined.

Lemma cfc_sommet_classe (m : list (list poids)) (s : nat) :
  dims (length m) m → s < length m →
  ∃ c, cfc_sommet m s = Ok c ∧
    ∀ v, v ∈ c ↔ accessible {| matrice := m |} s v ∧ accessible {| matrice := m |} v s.
Proof.
  intros Hd Hs. unfold cfc_sommet.
  set (graphe := {| matrice := m |}).
  assert (carree graphe) as Hc by (by apply carree_dims).
  destruct (parcours_descendants graphe s Hc Hs) as (D & -> & HDv).
  destruct (parcours_ascendants graphe s Hc Hs) as (A & -> & HAv).
  rewrite !bind_Ok. eexists. split; [done|]. intros v.
  rewrite elem_of_union, elem_of_intersection, elem_of_singleton, HDv, HAv.
  unfold accessible. rewrite !rtc_tc. split.
  - intros [[? ?]| ->]; split; auto.
  - intros [[->|?] [?|?]]; auto.
Qed.

(** X10. On a square matrix and for a vertex [s] in range, [cfc_sommet]
    returns the set of the vertices [v] such that walks of the graph lead
    from [s] to [v] and from [v] to [s]. *)
Theorem cfc_sommet_mutuellement_accessibles (g : GrapheValue) (s : nat) :
  carree g → s < nb_sommets g →
  ∃ c, cfc_sommet (matrice g) s = Ok c ∧
    ∀ v, v ∈ c ↔ accessible g s v ∧ accessible g v s.
Proof.
  intros Hc%carree_dims Hs.
  destruct (cfc_sommet_classe (matrice g) s Hc Hs) as (c & Hcfc & Hv).
  exists c. split; [done|]. by destruct g.
Qed.

Lemma cfc_sommet_mutuellement_accessibles_witness :
  ∃ c, cfc_sommet (matrice graphe_m3) 1 = Ok c ∧
    (2 ∈ c ↔ accessible graphe_m3 1 2 ∧ accessible graphe_m3 2 1).
Proof.
  destruct (cfc_sommet_mutuellement_accessibles graphe_m3 1 carree_m3)
    as (c & Hc & Hv); [cbn; repeat constructor|].
  exists c. split; [exact Hc | exact (Hv 2)].
Defined.

(** ** The lists of components are partitions *)

Lemma compter_absent (l : list (gset nat)) (c : gset nat) :
  compter l c < 1 → c ∉ l.
Proof.
  unfold compter. intros Hn Hc.
  assert (c ∈ filter (λ x, x = c) l) as Hf by (by apply list_elem_of_filter).
  destruct (filter (λ x, x = c) l); [by apply elem_of_nil in Hf | cbn in Hn; lia].
Qed.

Lemma avant_complet (f : nat → resultat (gset nat)) (s : nat) (avant : list (gset nat)) :
  pour (seq 0 s) (λ l s_bis, c ← f s_bis; Ok (l ++ [c])) [] = Ok avant →
  ∀ t, t < s → ∃ c, f t = Ok c ∧ c ∈ avant.
Proof.
  apply (pour_seq_inv (λ k l, ∀ t, t < k → ∃ c, f t = Ok c ∧ c ∈ l)).
  - intros t Ht. lia.
  - intros k l l' Hk Hl Hstep.
    apply bind_Ok_inv in Hstep as (c & Hc & Hl'). injection Hl' as <-.
    intros t Ht. destruct (decide (t = k)) as [->|Hne].
    + exists c. split; [done|]. apply elem_of_app. right. constructor.
    + destruct (Hl t) as (c' & Hc' & Hin); [lia|]. exists c'. split; [done|].
      apply elem_of_app. by left.
Qed.

(** The comprehension keeps one copy of each set. *)
Lemma sans_doublons_NoDup (n : nat) (f : nat → resultat (gset nat))
    (ccs : list (gset nat)) :
  sans_doublons n f = Ok ccs → NoDup ccs.
Proof.
  unfold sans_doublons. intros H.
  apply (pour_seq_inv (λ k res,
           NoDup res ∧ ∀ c, c ∈ res → ∃ t, t < k ∧ f t = Ok c)) in H; [apply H| |].
  - split; [constructor|]. intros c Hc. by apply elem_of_nil in Hc.
  - intros k res res' Hk [Hnd Hseuls] Hstep.
    apply bind_Ok_inv in Hstep as (avant & Havant & Hstep).
    apply bind_Ok_inv in Hstep as (c & Hc & Hstep).
    case_decide as Hcompte.
    + apply bind_Ok_inv in Hstep as (c' & Hc' & Hres). injection Hres as <-.
      assert (c' = c) as -> by congruence. split.
      * apply NoDup_app. split; [done|]. split; [|apply NoDup_singleton].
        intros x Hx ->%list_elem_of_singleton.
        destruct (Hseuls c Hx) as (t & Ht & Hft).
        destruct (avant_complet f k avant Havant t Ht) as (c0 & Hc0 & Hin).
        apply compter_absent in Hcompte. congruence.
      * intros x [Hx| ->%list_elem_of_singleton]%elem_of_app.
        -- destruct (Hseuls x Hx) as (t & Ht & Hft). exists t. split; [lia | done].
        -- exists k. split; [lia | done].
    + injection Hstep as <-. split; [done|]. intros x Hx.
      destruct (Hseuls x Hx) as (t & Ht & Hft). exists t. split; [lia | done].
Qed.

(** What makes the list built from the classes of an equivalence a
    partition. *)
Lemma sans_doublons_partition (n : nat) (f : nat → resultat (gset nat))
    (E : relation nat) (ccs : list (gset nat)) :
  Equivalence E →
  (∀ s c, s < n → f s = Ok c → ∀ v, v ∈ c ↔ E s v) →
  (∀ s v, s < n → E s v → v < n) →
  sans_doublons n f = Ok ccs →
  NoDup ccs ∧
  (∀ v, v < n → ∃ c, c ∈ ccs ∧ v ∈ c) ∧
  (∀ c u v, c ∈ ccs → u ∈ c → (v ∈ c ↔ E u v)) ∧
  (∀ c v, c ∈ ccs → v ∈ c → v < n) ∧
  (∀ c, c ∈ ccs → c ≠ ∅) ∧
  (∀ c1 c2 v, c1 ∈ ccs → c2 ∈ ccs → v ∈ c1 → v ∈ c2 → c1 = c2).
Proof.
  intros HE Hclasse Hborne Hccs.
  pose proof (sans_doublons_NoDup n f ccs Hccs) as Hnd.
  apply sans_doublons_Ok in Hccs as [Htous Hseuls].
  assert (∀ c u v, c ∈ ccs → u ∈ c → (v ∈ c ↔ E u v)) as Hmeme.
  { intros c u v (s & Hs & Hfs)%Hseuls Hu.
    rewrite (Hclasse s c Hs Hfs v). apply (Hclasse s c Hs Hfs) in Hu.
    split; intros Hv; [by rewrite <- Hu | by rewrite Hu]. }
  split; [done|]. split; [|split; [done|split; [|split]]].
  - intros v Hv. destruct (Htous v Hv) as (c & Hc & Hin). exists c. split; [done|].
    by apply (Hclasse v c Hv Hc).
  - intros c v (s & Hs & Hfs)%Hseuls Hv. apply (Hborne s v Hs).
    by apply (Hclasse s c Hs Hfs).
  - intros c (s & Hs & Hfs)%Hseuls ->.
    assert (s ∈ (∅ : gset nat)) as Hin by (by apply (Hclasse s ∅ Hs Hfs)).
    by apply not_elem_of_empty in Hin.
  - intros c1 c2 v H1 H2 Hv1 Hv2. apply set_eq. intros x.
    by rewrite (Hmeme c1 v x H1 Hv1), (Hmeme c2 v x H2 Hv2).
Qed.

Lemma accessible_borne (g : GrapheValue) (s v : nat) :
  carree g → s < nb_sommets g → accessible g s v → v < nb_sommets g.
Proof.
  intros Hc Hs. revert v. apply (rtc_ind_r (λ v, v < nb_sommets g) s); [done|].
  intros u v _ [q Hq] _. by destruct (entree_finie_bornes g u v q Hc Hq).
Qed.

Lemma mutuellement_accessibles_equiv (g : GrapheValue) :
  Equivalence (λ u v, accessible g u v ∧ accessible g v u).
Proof.
  split.
  - intros u. split; apply rtc_refl.
  - intros u v [? ?]. done.
  - intros u v w [? ?] [? ?]. split; by eapply rtc_trans.
Qed.

(** X11. On a square matrix, [cfc_graphe] returns the strongly connected
    components as a partition of the vertices: sets without repetition in
    the list, none empty, holding vertices of the graph only, every
    vertex in one of them, two of them sharing a vertex being the same,
    and a set holding [u] holding exactly the vertices [v] such that walks
    lead from [u] to [v] and from [v] to [u]. *)
Theorem cfc_graphe_partition (g : GrapheValue) :
  carree g →
  ∃ ccs, cfc_graphe g = Ok ccs ∧ NoDup ccs ∧
    (∀ v, v < nb_sommets g → ∃ c, c ∈ ccs ∧ v ∈ c) ∧
    (∀ c u v, c ∈ ccs → u ∈ c → (v ∈ c ↔ accessible g u v ∧ accessible g v u)) ∧
    (∀ c v, c ∈ ccs → v ∈ c → v < nb_sommets g) ∧
    (∀ c, c ∈ ccs → c ≠ ∅) ∧
    (∀ c1 c2 v, c1 ∈ ccs → c2 ∈ ccs → v ∈ c1 → v ∈ c2 → c1 = c2).
Proof.
  intros Hc. pose proof Hc as Hd%carree_dims.
  assert (∀ s c, s < nb_sommets g → cfc_sommet (matrice g) s = Ok c →
            ∀ v, v ∈ c ↔ accessible g s v ∧ accessible g v s) as Hclasse.
  { intros s c Hs Hcfc.
    destruct (cfc_sommet_classe (matrice g) s Hd Hs) as (c' & Hc' & Hv).
    assert (c' = c) as -> by congruence. by destruct g. }
  destruct (sans_doublons_ok (nb_sommets g) (cfc_sommet (matrice g))) as [ccs Hccs].
  { intros s Hs. destruct (cfc_sommet_classe (matrice g) s Hd Hs) as (c & Hcfc & _). eauto. }
  exists ccs. split; [done|].
  apply (sans_doublons_partition (nb_sommets g) (cfc_sommet (matrice g))
           (λ u v, accessible g u v ∧ accessible g v u)); try done.
  - apply mutuellement_accessibles_equiv.
  - intros s v Hs [Hsv _]. by eapply accessible_borne.
Qed.

Lemma cfc_graphe_partition_witness :
  ∃ ccs, cfc_graphe graphe_m3 = Ok ccs ∧ NoDup ccs ∧
    (∀ v, v < 4 → ∃ c, c ∈ ccs ∧ v ∈ c).
Proof.
  destruct (cfc_graphe_partition graphe_m3 carree_m3) as (ccs & H1 & H2 & H3 & _).
  exists ccs. split; [exact H1|]. split; [exact H2 | exact H3].
Defined.

(** ** [graphe_symetrique] on any square matrix *)

Lemma inv_symetrique_affaiblir (g : GrapheValue) (S S' : nat → nat → Prop)
    (sym : list (list poids)) :
  inv_symetrique g S sym →
  (∀ a b, S' a b → S a b ∨ entree (matrice g) a b = Infini) →
  inv_symetrique g S' sym.
Proof.
  intros [Hd H] HS. split; [done|]. intros a b.
  destruct (H a b) as (H1 & H2 & H3). repeat split; [done..|].
  intros [?|?]%HS ?; [by apply H3 | done].
Qed.

Lemma inv_symetrique_ecrire (g : GrapheValue) (S : nat → nat → Prop)
    (sym : list (list poids)) (i j : nat) (q : Q) :
  inv_symetrique g S sym → i < nb_sommets g → j < nb_sommets g →
  entree (matrice g) i j = Fini q →
  ∃ sym'', (sym' ← ecrire sym i j (Fini q); ecrire sym' j i (Fini q)) = Ok sym'' ∧
    inv_symetrique g (λ a b, S a b ∨ (a = i ∧ b = j)) sym''.
Proof.
  intros [Hd H] Hi Hj Hq.
  destruct (ecrire_dims _ sym i j (Fini q) Hd Hi Hj) as [sym' Hsym'].
  pose proof (ecrire_Ok _ _ _ _ _ Hsym') as (Hl1 & Ha1 & He1).
  assert (dims (nb_sommets g) sym') as Hd'
    by (destruct Hd as [? ?]; split; [lia | by apply Ha1]).
  destruct (ecrire_dims _ sym' j i (Fini q) Hd' Hj Hi) as [sym'' Hsym''].
  pose proof (ecrire_Ok _ _ _ _ _ Hsym'') as (Hl2 & Ha2 & He2).
  exists sym''. rewrite Hsym', bind_Ok. split; [done|].
  split; [destruct Hd' as [? ?]; split; [lia | by apply Ha2]|].
  intros a b. rewrite !He2, !He1. destruct (H a b) as (H1 & H2 & H3).
  assert (entree sym b a = entree sym a b) as H1' by done.
  repeat case_decide; repeat split; try done; try tauto;
    intuition (subst; first [congruence | tauto | (right; left; congruence)
                            | (right; right; congruence)]).
Qed.

(** The loops of [graphe_symetrique] on a square matrix. *)
Lemma graphe_symetrique_general (g : GrapheValue) :
  carree g →
  ∃ h, graphe_symetrique g = Ok h ∧ inv_symetrique g (λ _ _, True) (matrice h).
Proof.
  intros Hc. unfold graphe_symetrique.
  set (n := nb_sommets g).
  destruct (pour_prefixe_ok (λ l1 sym, inv_symetrique g (λ a _, a ∈ l1) sym)
              (seq 0 n)
              (λ sym i, pour (seq 0 n)
                 (λ sym j, ligne ← lire (matrice g) i; w ← lire ligne j;
                    if est_inf w then Ok sym
                    else sym' ← ecrire sym i j w; ecrire sym' j i w) sym)
              (graphe_vide n)) as (sym & -> & Hsym_fin).
  - split; [apply dims_graphe_vide|]. intros a b.
    rewrite !entree_graphe_vide. repeat split; [by left|].
    intros Ha. by apply elem_of_nil in Ha.
  - intros l1 i l2 sym Hl Hrem.
    assert (i < n) as Hi.
    { assert (i ∈ seq 0 n) as Hin by (rewrite Hl; apply elem_of_app; right; constructor).
      apply elem_of_seq in Hin. lia. }
    destruct (pour_prefixe_ok
                (λ c1 sym, inv_symetrique g (λ a b, a ∈ l1 ∨ (a = i ∧ b ∈ c1)) sym)
                (seq 0 n)
                (λ sym j, ligne ← lire (matrice g) i; w ← lire ligne j;
                   if est_inf w then Ok sym
                   else sym' ← ecrire sym i j w; ecrire sym' j i w) sym)
      as (sym1 & Hrun & Hsym1).
    + eapply inv_symetrique_affaiblir; [done|].
      intros a b [?|[_ Hb]]; [by left | by apply elem_of_nil in Hb].
    + intros c1 j c2 sym0 Hc1 Hrem0.
      assert (j < n) as Hj.
      { assert (j ∈ seq 0 n) as Hin by (rewrite Hc1; apply elem_of_app; right; constructor).
        apply elem_of_seq in Hin. lia. }
      destruct (lire_entree g Hc i j Hi Hj) as (ligne & -> & Hw).
      rewrite bind_Ok, Hw, bind_Ok.
      destruct (entree (matrice g) i j) as [q|] eqn:Hij; cbn.
      * destruct (inv_symetrique_ecrire g _ sym0 i j q Hrem0 Hi Hj Hij)
          as (sym'' & -> & Hrem'').
        exists sym''. split; [done|].
        eapply inv_symetrique_affaiblir; [done|].
        intros a b [?|[-> [Hb|Hb%list_elem_of_singleton]%elem_of_app]];
          [tauto | tauto | subst; tauto].
      * exists sym0. split; [done|].
        eapply inv_symetrique_affaiblir; [done|].
        intros a b [?|[-> [Hb|Hb%list_elem_of_singleton]%elem_of_app]];
          [tauto | tauto | subst; tauto].
    + exists sym1. split; [done|].
      eapply inv_symetrique_affaiblir; [done|].
      intros a b [Ha|Ha%list_elem_of_singleton]%elem_of_app; [tauto|].
      destruct (decide (b < n)) as [Hb|Hb]; [left; right; split; [done|]; apply elem_of_seq; lia|].
      right. apply carree_dims in Hc. apply (entree_hors_dims _ _ a b Hc). tauto.
  - rewrite bind_Ok. eexists. split; [done|]. cbn.
    eapply inv_symetrique_affaiblir; [done|].
    intros a b _. destruct (decide (a < n)) as [Ha|Ha]; [left; apply elem_of_seq; lia|].
    right. apply carree_dims in Hc. apply (entree_hors_dims _ _ a b Hc). tauto.
Qed.

(** X12. On every square matrix, [graphe_symetrique] returns a square
    graph with the same number of vertices whose matrix is symmetric;
    there is an edge between [a] and [b] in it exactly when the original
    graph has an edge from [a] to [b] or from [b] to [a], and its weight
    is that of one of the two. *)
Theorem graphe_symetrique_non_oriente (g : GrapheValue) :
  carree g →
  ∃ h, graphe_symetrique g = Ok h ∧
    nb_sommets h = nb_sommets g ∧ carree h ∧
    (∀ a b, entree (matrice h) a b = entree (matrice h) b a) ∧
    (∀ a b, arete h a b ↔ arete g a b ∨ arete g b a) ∧
    (∀ a b, entree (matrice h) a b = entree (matrice g) a b
            ∨ entree (matrice h) a b = entree (matrice g) b a).
Proof.
  intros Hc. destruct (graphe_symetrique_general g Hc) as (h & Hh & Hd & H).
  exists h. split; [done|].
  assert (nb_sommets h = nb_sommets g) as Hn by apply Hd.
  assert (∀ a b, entree (matrice h) a b = Infini →
            entree (matrice g) a b = Infini ∧ entree (matrice g) b a = Infini) as Hinf.
  { intros a b Hab. destruct (H a b) as (H1 & _ & H3). destruct (H b a) as (_ & _ & H3').
    split.
    - destruct (entree (matrice g) a b) eqn:E; [|done]. by destruct H3.
    - destruct (entree (matrice g) b a) eqn:E; [|done]. destruct H3'; [done..|congruence]. }
  repeat split; [done | apply carree_dims; by rewrite Hn | apply H | | |].
  - intros [q Hq]. destruct (H a b) as (_ & [H2|[H2|H2]] & _); [congruence | |].
    + left. exists q. congruence.
    + right. exists q. congruence.
  - intros Hab. destruct (entree (matrice h) a b) as [q|] eqn:E; [by exists q|].
    destruct (Hinf a b E) as [H1 H2]. destruct Hab as [[q Hq]|[q Hq]]; congruence.
  - intros a b. destruct (H a b) as (_ & [H2|[H2|H2]] & _); [|tauto..].
    left. destruct (Hinf a b H2) as [-> _]. done.
Qed.

Lemma graphe_symetrique_non_oriente_witness :
  ∃ h, graphe_symetrique graphe_m3 = Ok h ∧
    (∀ a b, entree (matrice h) a b = entree (matrice h) b a) ∧
    (∀ a b, arete h a b ↔ arete graphe_m3 a b ∨ arete graphe_m3 b a).
Proof.
  destruct (graphe_symetrique_non_oriente graphe_m3 carree_m3)
    as (h & H1 & _ & _ & H2 & H3 & _).
  exists h. split; [exact H1|]. split; [exact H2 | exact H3].
Defined.

(** ** Connected components and connectivity *)

Lemma cc_sommet_classe (g : GrapheValue) (s : nat) :
  carree g → s < nb_sommets g →
  ∃ c, cc_sommet g s = Ok c ∧ ∀ v, v ∈ c ↔ rtsc (arete g) s v.
Proof.
  intros Hc Hs. unfold cc_sommet.
  destruct (graphe_symetrique_general g Hc) as (h & Hh & Hd & H).
  rewrite Hh, bind_Ok.
  assert (length (matrice h) = nb_sommets g) as Hlen by apply Hd.
  rewrite <- Hlen in Hd, Hs.
  destruct (cfc_sommet_classe (matrice h) s Hd Hs) as (c & Hcfc & Hv).
  exists c. split; [done|]. intros v. rewrite Hv.
  assert (∀ a b, arete {| matrice := matrice h |} a b ↔ sc (arete g) a b) as Har.
  { intros a b. unfold sc, arete. cbn. destruct (H a b) as (_ & H2 & H3).
    destruct (H b a) as (H1' & _ & H3'). split.
    - intros [q Hq]. destruct H2 as [H2|[H2|H2]]; [congruence | |].
      + left. exists q. congruence.
      + right. exists q. congruence.
    - intros Hab. destruct (entree (matrice h) a b) as [q|] eqn:E; [by exists q|].
      destruct Hab as [[q Hq]|[q Hq]].
      + destruct H3; [done | congruence | done].
      + destruct H3'; [done | congruence | congruence]. }
  unfold accessible, rtsc. rewrite !(rtc_iff _ _ _ _ Har). split; [tauto|].
  intros Hsv. split; [done|]. by symmetry.
Qed.

Lemma rtsc_borne (g : GrapheValue) (s v : nat) :
  carree g → s < nb_sommets g → rtsc (arete g) s v → v < nb_sommets g.
Proof.
  intros Hc Hs. revert v. apply (rtc_ind_r (λ v, v < nb_sommets g) s); [done|].
  intros u v _ [[q Hq]|[q Hq]] _; by destruct (entree_finie_bornes g _ _ q Hc Hq).
Qed.

Lemma cc_graphe_classes (g : GrapheValue) :
  carree g →
  ∃ ccs, cc_graphe g = Ok ccs ∧ NoDup ccs ∧
    (∀ v, v < nb_sommets g → ∃ c, c ∈ ccs ∧ v ∈ c) ∧
    (∀ c u v, c ∈ ccs → u ∈ c → (v ∈ c ↔ rtsc (arete g) u v)) ∧
    (∀ c v, c ∈ ccs → v ∈ c → v < nb_sommets g) ∧
    (∀ c, c ∈ ccs → c ≠ ∅) ∧
    (∀ c1 c2 v, c1 ∈ ccs → c2 ∈ ccs → v ∈ c1 → v ∈ c2 → c1 = c2).
Proof.
  intros Hc.
  destruct (sans_doublons_ok (nb_sommets g) (cc_sommet g)) as [ccs Hccs].
  { intros s Hs. by apply cc_sommet_ok. }
  exists ccs. split; [done|].
  apply (sans_doublons_partition (nb_sommets g) (cc_sommet g) (rtsc (arete g)));
    try done.
  - apply rtsc_equivalence.
  - intros s c Hs Hcc. destruct (cc_sommet_classe g s Hc Hs) as (c' & Hc' & Hv).
    by assert (c' = c) as -> by congruence.
  - intros s v Hs Hsv. by eapply rtsc_borne.
Qed.

(** X13. On a square matrix, [cc_graphe] returns the connected components
    as a partition of the vertices: sets without repetition in the list,
    none empty, holding vertices of the graph only, every vertex in one of
    them, two of them sharing a vertex being the same, and a set holding
    [u] holding exactly the vertices joined to [u] by a chain of edges
    taken in either direction. *)
Theorem cc_graphe_partition (g : GrapheValue) :
  carree g →
  ∃ ccs, cc_graphe g = Ok ccs ∧ NoDup ccs ∧
    (∀ v, v < nb_sommets g → ∃ c, c ∈ ccs ∧ v ∈ c) ∧
    (∀ c u v, c ∈ ccs → u ∈ c → (v ∈ c ↔ rtsc (arete g) u v)) ∧
    (∀ c v, c ∈ ccs → v ∈ c → v < nb_sommets g) ∧
    (∀ c, c ∈ ccs → c ≠ ∅) ∧
    (∀ c1 c2 v, c1 ∈ ccs → c2 ∈ ccs → v ∈ c1 → v ∈ c2 → c1 = c2).
Proof. apply cc_graphe_classes. Qed.

Lemma cc_graphe_partition_witness :
  ∃ ccs, cc_graphe graphe_m3 = Ok ccs ∧ NoDup ccs ∧
    (∀ v, v < 4 → ∃ c, c ∈ ccs ∧ v ∈ c).
Proof.
  destruct (cc_graphe_partition graphe_m3 carree_m3) as (ccs & H1 & H2 & H3 & _).
  exists ccs. split; [exact H1|]. split; [exact H2 | exact H3].
Defined.

Lemma est_connexe_rtsc (g : GrapheValue) :
  carree g →
  ∃ b, est_connexe g = Ok b ∧
    (b = true ↔
     0 < nb_sommets g ∧
     ∀ u v, u < nb_sommets g → v < nb_sommets g → rtsc (arete g) u v).
Proof.
  intros Hc.
  destruct (cc_graphe_classes g Hc)
    as (ccs & Hccs & Hnd & Hcouvre & Hclasse & Hborne & Hvide & Hmeme).
  unfold est_connexe. rewrite Hccs, bind_Ok. eexists. split; [done|].
  rewrite bool_decide_eq_true. split.
  - intros Hlen. destruct ccs as [|c [|]]; try done.
    assert (∃ w, w ∈ c) as [w Hw].
    { apply set_choose_L, Hvide. constructor. }
    split; [pose proof (Hborne c w ltac:(constructor) Hw); lia|].
    intros u v Hu Hv.
    destruct (Hcouvre u Hu) as (cu & ->%list_elem_of_singleton & Hcu).
    destruct (Hcouvre v Hv) as (cv & ->%list_elem_of_singleton & Hcv).
    by apply (Hclasse c u v ltac:(constructor) Hcu).
  - intros [Hn Htous]. destruct (Hcouvre 0 Hn) as (c0 & Hc0 & H0).
    assert (∀ c, c ∈ ccs → c = c0) as Hegal.
    { intros c Hcin. assert (∃ w, w ∈ c) as [w Hw] by (by apply set_choose_L, Hvide).
      apply (Hmeme c c0 w Hcin Hc0 Hw). apply (Hclasse c0 0 w Hc0 H0).
      apply Htous; [done|]. by eapply Hborne. }
    destruct ccs as [|c1 [|c2 rest]]; [by apply elem_of_nil in Hc0 | done |].
    apply NoDup_cons in Hnd as [Hnot _]. destruct Hnot.
    rewrite (Hegal c1), <- (Hegal c2); constructor; constructor.
Qed.

(** X14. On a square matrix, [est_connexe] answers [True] exactly when
    the graph has a vertex and any two of its vertices are joined by a
    chain of edges taken in either direction; on the graph without
    vertices it answers [False]. *)
Theorem est_connexe_chaines (g : GrapheValue) :
  carree g →
  ∃ b, est_connexe g = Ok b ∧
    (b = true ↔
     0 < nb_sommets g ∧
     ∀ u v, u < nb_sommets g → v < nb_sommets g → rtsc (arete g) u v).
Proof. apply est_connexe_rtsc. Qed.

Lemma est_connexe_chaines_witness :
  ∃ b, est_connexe reseau7 = Ok b ∧
    (b = true ↔
     0 < nb_sommets reseau7 ∧
     ∀ u v, u < nb_sommets reseau7 → v < nb_sommets reseau7 →
       rtsc (arete reseau7) u v).
Proof. exact (est_connexe_chaines reseau7 carree_reseau7). Defined.

(** ** Closeness and mean length *)

Lemma foldl_plus_p_infini (l : list poids) (acc : poids) :
  foldl plus_p acc l = Infini ↔ acc = Infini ∨ Infini ∈ l.
Proof.
  revert acc. induction l as [|w l IH]; intros acc; cbn.
  - rewrite elem_of_nil. tauto.
  - rewrite IH, elem_of_cons. destruct acc, w; cbn; split; intros [?|?]; try tauto;
      try done; try (right; by left); destruct H as [?|?]; try done; tauto.
Qed.

Lemma foldl_plus_p_positif (l : list poids) (acc : poids) :
  le_p (Fini 0) acc → (∀ w, w ∈ l → le_p (Fini 0) w) →
  le_p (Fini 0) (foldl plus_p acc l).
Proof.
  revert acc. induction l as [|w l IH]; intros acc Hacc Hl; cbn; [done|].
  apply IH; [|intros w' Hw'; apply Hl; by constructor].
  specialize (Hl w ltac:(constructor)). destruct acc, w; cbn in *; try done. lra.
Qed.

Lemma diviser_ok (a : poids) (k : nat) :
  0 < k →
  ∃ x, diviser a k = Ok x ∧ (x = Infini ↔ a = Infini) ∧
    (le_p (Fini 0) a → le_p (Fini 0) x).
Proof.
  intros Hk. destruct k as [|k]; [lia|]. destruct a as [q|]; cbn.
  - eexists. split; [done|]. split; [done|]. intros Hq.
    apply Qle_shift_div_l; [|lra].
    change 0%Q with (inject_Z 0). rewrite <- Zlt_Qlt. lia.
  - eexists. split; [done|]. done.
Qed.

(** The infinite entries of a distance vector are the unreachable vertices. *)
Lemma distances_infinies (g : GrapheValue) (s : nat) :
  carree g → poids_positifs g → s < nb_sommets g →
  ∃ d p, calculPCCSommet g (Z.of_nat s) = Ok (d, p) ∧
    le_p (Fini 0) (somme d) ∧
    (somme d = Infini ↔ ∃ v, v < nb_sommets g ∧ ¬ accessible g s v).
Proof.
  intros Hc Hpos Hs.
  destruct (calculPCCSommet_accessibles g s Hc Hpos Hs) as (d & p & Hcalc & Hlen & Hpos' & Hacc).
  exists d, p. split; [done|]. split.
  - apply foldl_plus_p_positif; [cbn; lra|].
    intros w [v Hv]%list_elem_of_lookup. destruct w as [x|]; [|done]. by eapply Hpos'.
  - unfold somme. rewrite foldl_plus_p_infini. split.
    + intros [?|[v Hv]%list_elem_of_lookup]; [done|]. exists v.
      split; [rewrite <- Hlen; by eapply lookup_lt_Some|].
      intros [x Hx]%Hacc. congruence.
    + intros (v & Hv & Hna). right.
      destruct (lookup_lt_is_Some_2 d v) as [w Hw]; [lia|].
      destruct w as [x|]; [destruct Hna; apply Hacc; eauto|].
      by eapply list_elem_of_lookup_2.
Qed.

(** X15. On a square matrix with non-negative weights and for a vertex
    [s] in range: [proximite_sommet] raises [ZeroDivisionError] when the
    graph has one vertex; otherwise it returns a value that is not
    negative, and that is [math.inf] as soon as some vertex of the graph
    is not reachable from [s]. *)
Theorem proximite_sommet_accessibles (g : GrapheValue) (s : nat) :
  carree g → poids_positifs g → s < nb_sommets g →
  (nb_sommets g = 1 → proximite_sommet g (Z.of_nat s) = Leve ZeroDivisionError) ∧
  (2 ≤ nb_sommets g →
     ∃ x, proximite_sommet g (Z.of_nat s) = Ok x ∧ le_p (Fini 0) x ∧
       ((∃ v, v < nb_sommets g ∧ ¬ accessible g s v) → x = Infini)).
Proof.
  intros Hc Hpos Hs.
  destruct (distances_infinies g s Hc Hpos Hs) as (d & p & Hcalc & Hpos' & Hinf).
  unfold proximite_sommet. rewrite Hcalc, bind_Ok. fold (somme d). split.
  - intros ->. by destruct (somme d).
  - intros Hn. destruct (diviser_ok (somme d) (nb_sommets g - 1)) as (x & Hx & Hxi & Hxp); [lia|].
    exists x. split; [done|]. split; [by apply Hxp|]. by rewrite Hxi, Hinf.
Qed.

Lemma proximite_sommet_accessibles_witness :
  ∃ x, proximite_sommet reseau7 0 = Ok x ∧ le_p (Fini 0) x ∧
    ((∃ v, v < nb_sommets reseau7 ∧ ¬ accessible reseau7 0 v) → x = Infini).
Proof.
  destruct (proximite_sommet_accessibles reseau7 0 carree_reseau7 poids_positifs_reseau7)
    as [_ H]; [cbn; apply Nat.lt_0_succ|].
  apply H. vm_compute. lia.
Defined.

Lemma longueur_moyenne_infinie (g : GrapheValue) :
  carree g → poids_positifs g →
  (nb_sommets g ≤ 1 → longueur_moyenne g = Leve ZeroDivisionError) ∧
  (2 ≤ nb_sommets g →
     ∃ x, longueur_moyenne g = Ok x ∧ le_p (Fini 0) x ∧
       (x = Infini ↔
        ∃ s v, s < nb_sommets g ∧ v < nb_sommets g ∧ ¬ accessible g s v)).
Proof.
  intros Hc Hpos. unfold longueur_moyenne.
  destruct (pour_prefixe_ok
    (λ l1 total, le_p (Fini 0) total ∧
       (total = Infini ↔ ∃ s v, s ∈ l1 ∧ v < nb_sommets g ∧ ¬ accessible g s v))
    (seq 0 (nb_sommets g))
    (λ total_distance s, dp ← calculPCCSommet g (Z.of_nat s);
       Ok (plus_p total_distance (somme dp.1))) (Fini 0))
    as (total & -> & Hpos' & Hinf).
  - split; [cbn; lra|]. split; [done|]. intros (s & v & Hs & _). by apply elem_of_nil in Hs.
  - intros l1 s l2 total [-> Hs]%seq_decoupe [Htp Hti].
    destruct (distances_infinies g (length l1) Hc Hpos Hs) as (d & p & -> & Hdp & Hdi).
    rewrite bind_Ok. eexists. split; [done|]. cbn [fst]. split.
    + destruct total, (somme d); cbn in *; try done. lra.
    + assert (plus_p total (somme d) = Infini ↔ total = Infini ∨ somme d = Infini) as ->.
      { destruct total, (somme d); cbn; split; try tauto; try done; intros [?|?]; done. }
      rewrite Hti, Hdi. split.
      * intros [(s & v & Hsl & Hv)|(v & Hv)].
        -- exists s, v. split; [apply elem_of_app; by left | done].
        -- exists (length l1), v. split; [|done]. apply elem_of_app. right. constructor.
      * intros (s & v & [Hsl| ->%list_elem_of_singleton]%elem_of_app & Hv).
        -- left. by exists s, v.
        -- right. by exists v.
  - rewrite bind_Ok. split.
    + intros Hn. assert (nb_sommets g * (nb_sommets g - 1) = 0) as -> by nia.
      by destruct total.
    + intros Hn.
      destruct (diviser_ok total (nb_sommets g * (nb_sommets g - 1)))
        as (x & Hx & Hxi & Hxp); [nia|].
      exists x. split; [done|]. split; [by apply Hxp|]. rewrite Hxi, Hinf.
      split; intros (s & v & Hs & Hv); exists s, v; (split; [|done]).
      * apply elem_of_seq in Hs. lia.
      * apply elem_of_seq. lia.
Qed.

(** X16. On a square matrix with non-negative weights:
    [longueur_moyenne] raises [ZeroDivisionError] when the graph has at
    most one vertex; otherwise it returns a value that is not negative,
    and that is [math.inf] as soon as some vertex is not reachable from
    some other. *)
Theorem longueur_moyenne_accessibles (g : GrapheValue) :
  carree g → poids_positifs g →
  (nb_sommets g ≤ 1 → longueur_moyenne g = Leve ZeroDivisionError) ∧
  (2 ≤ nb_sommets g →
     ∃ x, longueur_moyenne g = Ok x ∧ le_p (Fini 0) x ∧
       ((∃ s v, s < nb_sommets g ∧ v < nb_sommets g ∧ ¬ accessible g s v) →
        x = Infini)).
Proof.
  intros Hc Hpos. destruct (longueur_moyenne_infinie g Hc Hpos) as [H1 H2].
  split; [done|]. intros Hn. destruct (H2 Hn) as (x & Hx & Hx0 & Hxi).
  exists x. split; [done|]. split; [done|]. apply Hxi.
Qed.

Lemma longueur_moyenne_accessibles_witness :
  ∃ x, longueur_moyenne graphe_m3 = Ok x ∧ le_p (Fini 0) x ∧
    ((∃ s v, s < nb_sommets graphe_m3 ∧ v < nb_sommets graphe_m3 ∧
        ¬ accessible graphe_m3 s v) → x = Infini).
Proof.
  destruct (longueur_moyenne_accessibles graphe_m3 carree_m3) as [_ H].
  - apply (bool_decide_unpack _). vm_compute. exact I.
  - apply H. vm_compute. lia.
Defined.

(** ** The largest component is connected *)

(** X17. On a non-empty square matrix and whatever the order in which
    Python iterates a set, the graph returned by [plus_grosse_cc] is
    connected: [est_connexe] answers [True] on it. *)
Theorem plus_grosse_cc_connexe (ordre : gset nat → list nat) (g : GrapheValue) :
  ordre_iteration ordre → carree g → 0 < nb_sommets g →
  ∃ h, plus_grosse_cc ordre g = Ok h ∧ est_connexe h = Ok true.
Proof.
  intros Hord Hc Hn.
  destruct (cc_graphe_classes g Hc)
    as (ccs & Hccs & Hnd & Hcouvre & Hclasse & Hborne & Hvide & Hmeme).
  destruct (max_len_ok ccs) as (c & Hmax & Hin & _).
  { destruct (Hcouvre 0 Hn) as (c0 & Hc0 & _). intros ->. by apply elem_of_nil in Hc0. }
  destruct (Hord c) as [Hndc Hmem].
  destruct (copier_ok g c (ordre c) Hc (λ x, Hborne c x Hin) Hndc Hmem)
    as (mat & Hmat & Hd & Hentrees).
  pose proof (taille_ordre c (ordre c) Hndc Hmem) as Htaille.
  exists {| matrice := mat |}. split.
  { unfold plus_grosse_cc. by rewrite Hccs, bind_Ok, Hmax, bind_Ok, Hmat. }
  assert (length mat = size c) as Hlen by apply Hd.
  assert (carree {| matrice := mat |}) as Hch
    by (apply carree_dims; unfold nb_sommets; cbn; by rewrite Hlen).
  destruct (est_connexe_rtsc _ Hch) as (b & Hb & Hiff).
  rewrite Hb. f_equal. apply Hiff. unfold nb_sommets. cbn. rewrite Hlen.
  assert (∃ w, w ∈ c) as [w Hw] by (by apply set_choose_L, Hvide).
  split.
  { rewrite <- Htaille. apply Hmem, list_elem_of_lookup in Hw as [i Hi].
    apply lookup_lt_Some in Hi. lia. }
  intros a b' Ha Hb'. rewrite <- Htaille in Ha, Hb'.
  destruct (lookup_lt_is_Some_2 _ a Ha) as [oa Hoa].
  destruct (lookup_lt_is_Some_2 _ b' Hb') as [ob Hob].
  assert (oa ∈ c) as Hoac by (apply Hmem; by eapply list_elem_of_lookup_2).
  assert (ob ∈ c) as Hobc by (apply Hmem; by eapply list_elem_of_lookup_2).
  assert (∀ w, rtsc (arete g) oa w →
            ∃ pw, ordre c !! pw = Some w ∧ rtsc (arete {| matrice := mat |}) a pw)
    as Hchaine.
  { apply (rtc_ind_r (λ w, ∃ pw, ordre c !! pw = Some w
                            ∧ rtsc (arete {| matrice := mat |}) a pw) oa).
    - exists a. split; [done | reflexivity].
    - intros y z Hy Hyz (py & Hpy & Hapy).
      assert (z ∈ c) as Hz.
      { apply (Hclasse c oa z Hin Hoac). eapply rtc_r; [exact Hy | exact Hyz]. }
      apply Hmem, list_elem_of_lookup in Hz as [pz Hpz].
      exists pz. split; [done|]. eapply rtc_r; [exact Hapy|].
      unfold sc, arete in *. cbn.
      rewrite (Hentrees py pz y z Hpy Hpz), (Hentrees pz py z y Hpz Hpy). done. }
  destruct (Hchaine ob) as (pb & Hpb & Hapb).
  { by apply (Hclasse c oa ob Hin Hoac). }
  by rewrite (ordre_injectif (ordre c) Hndc b' pb ob Hob Hpb).
Qed.

Lemma plus_grosse_cc_connexe_witness :
  ∃ h, plus_grosse_cc croissant graphe_m3 = Ok h ∧ est_connexe h = Ok true.
Proof.
  apply (plus_grosse_cc_connexe croissant graphe_m3 croissant_iteration carree_m3).
  cbn. apply Nat.lt_0_succ.
Defined.

(** ** Metrics and connectivity *)

Lemma max_liste_infini (d : list poids) :
  d ≠ [] → ∃ m, max_liste d = Ok m ∧ (m = Infini ↔ Infini ∈ d).
Proof.
  destruct d as [|x l]; [done|]. intros _. cbn. eexists. split; [done|].
  destruct (foldl_max_p l x) as [Hin Hmax]. split.
  - intros Hm. by rewrite Hm in Hin.
  - intros Hi. specialize (Hmax Infini Hi). by destruct (foldl max_p x l).
Qed.

Lemma max_p_infini (a b : poids) : max_p a b = Infini ↔ a = Infini ∨ b = Infini.
Proof.
  unfold max_p. destruct a as [x|], b as [y|]; cbn; try destruct (negb _);
    intuition congruence.
Qed.

Lemma diametre_infini (g : GrapheValue) :
  carree g → poids_positifs g →
  ∃ m, diametre g = Ok m ∧
    (m = Infini ↔
     ∃ s v, s < nb_sommets g ∧ v < nb_sommets g ∧ ¬ accessible g s v).
Proof.
  intros Hc Hpos. unfold diametre.
  destruct (pour_prefixe_ok
    (λ l1 m, m = Infini ↔ ∃ s v, s ∈ l1 ∧ v < nb_sommets g ∧ ¬ accessible g s v)
    (seq 0 (nb_sommets g))
    (λ max_distance s, dp ← calculPCCSommet g (Z.of_nat s);
       m ← max_liste dp.1; Ok (max_p max_distance m)) (Fini 0))
    as (m & -> & Hinf).
  - split; [done|]. intros (s & v & Hs & _). by apply elem_of_nil in Hs.
  - intros l1 s l2 m [-> Hs]%seq_decoupe Hm.
    destruct (calculPCCSommet_accessibles g (length l1) Hc Hpos Hs)
      as (d & p & -> & Hlen & _ & Hacc).
    rewrite bind_Ok. cbn [fst].
    destruct (max_liste_infini d) as (md & -> & Hmd).
    { intros ->. cbn in Hlen. lia. }
    rewrite bind_Ok. eexists. split; [done|].
    rewrite max_p_infini, Hm, Hmd. split.
    + intros [(s & v & Hsl & Hv)|[v Hv]%list_elem_of_lookup].
      * exists s, v. split; [apply elem_of_app; by left | done].
      * exists (length l1), v. split; [apply elem_of_app; right; constructor|].
        split; [rewrite <- Hlen; by eapply lookup_lt_Some|].
        intros [x Hx]%Hacc. congruence.
    + intros (s & v & [Hsl| ->%list_elem_of_singleton]%elem_of_app & Hv & Hna).
      * left. by exists s, v.
      * right. destruct (lookup_lt_is_Some_2 d v) as [w Hw]; [lia|].
        destruct w as [x|]; [destruct Hna; apply Hacc; eauto|].
        by eapply list_elem_of_lookup_2.
  - exists m. split; [done|]. rewrite Hinf.
    split; intros (s & v & Hs & Hv); exists s, v; (split; [|done]).
    + apply elem_of_seq in Hs. lia.
    + apply elem_of_seq. lia.
Qed.

(** X18. On a square matrix with non-negative weights, [diametre]
    returns [math.inf] as soon as some vertex is not reachable from some
    other, and [0] on the graph without vertices. *)
Theorem diametre_accessibles (g : GrapheValue) :
  carree g → poids_positifs g →
  ∃ m, diametre g = Ok m ∧
    ((∃ s v, s < nb_sommets g ∧ v < nb_sommets g ∧ ¬ accessible g s v) →
     m = Infini) ∧
    (nb_sommets g = 0 → m = Fini 0).
Proof.
  intros Hc Hpos. destruct (diametre_infini g Hc Hpos) as (m & Hm & Hmi).
  exists m. split; [done|]. split; [apply Hmi|].
  intros Hn. unfold diametre in Hm. rewrite Hn in Hm. cbn in Hm. congruence.
Qed.

Lemma diametre_accessibles_witness :
  ∃ m, diametre graphe_m3 = Ok m ∧
    ((∃ s v, s < nb_sommets graphe_m3 ∧ v < nb_sommets graphe_m3 ∧
        ¬ accessible graphe_m3 s v) → m = Infini) ∧
    (nb_sommets graphe_m3 = 0 → m = Fini 0).
Proof.
  apply (diametre_accessibles graphe_m3 carree_m3).
  apply (bool_decide_unpack _). vm_compute. exact I.
Defined.

Lemma symetrique_arete (g : GrapheValue) (u v : nat) :
  carree g → symetrique g → arete g u v → arete g v u.
Proof.
  intros Hc Hsym [q Hq]. destruct (entree_finie_bornes g u v q Hc Hq) as [Hu Hv].
  pose proof (symetrique_pour_entree eq_p g u v Hsym Hu Hv) as He.
  rewrite Hq in He. unfold arete.
  destruct (entree (matrice g) v u) as [q'|]; [by exists q' | done].
Qed.

Lemma symetrique_rtsc (g : GrapheValue) (u v : nat) :
  carree g → symetrique g → rtsc (arete g) u v ↔ accessible g u v.
Proof.
  intros Hc Hsym. unfold rtsc, accessible. apply rtc_iff. intros a b. unfold sc.
  split; [|tauto]. intros [?|?]; [done | by apply symetrique_arete].
Qed.

(** X19. On a square, symmetric matrix of at least two rows with
    non-negative weights, [est_connexe] answers [True] whenever [diametre]
    is finite, and whenever [longueur_moyenne] is finite: on a graph that
    [est_connexe] finds disconnected, both metrics are [math.inf]. *)
Theorem est_connexe_metriques_finies (g : GrapheValue) :
  carree g → poids_positifs g → symetrique g → 2 ≤ nb_sommets g →
  ∃ b m x, est_connexe g = Ok b ∧ diametre g = Ok m ∧ longueur_moyenne g = Ok x ∧
    (m ≠ Infini → b = true) ∧ (x ≠ Infini → b = true) ∧
    (b = false → m = Infini ∧ x = Infini).
Proof.
  intros Hc Hpos Hsym Hn.
  destruct (est_connexe_rtsc g Hc) as (b & Hb & Hbi).
  destruct (diametre_infini g Hc Hpos) as (m & Hm & Hmi).
  destruct (longueur_moyenne_infinie g Hc Hpos) as [_ Hl].
  destruct (Hl Hn) as (x & Hx & _ & Hxi).
  exists b, m, x. split; [done|]. split; [done|]. split; [done|].
  assert (b = true ↔
          ¬ ∃ s v, s < nb_sommets g ∧ v < nb_sommets g ∧ ¬ accessible g s v) as Hb'.
  { rewrite Hbi. split.
    - intros [_ Htous] (s & v & Hs & Hv & Hna). apply Hna.
      apply symetrique_rtsc; [done..|]. by apply Htous.
    - intros Hnon. split; [lia|]. intros u v Hu Hv.
      apply symetrique_rtsc; [done..|].
      destruct (calculPCCSommet_accessibles g u Hc Hpos Hu) as (d & p & _ & Hlen & _ & Hacc).
      destruct (lookup_lt_is_Some_2 d v) as [w Hw]; [lia|].
      destruct w as [q|]; [apply Hacc; eauto|].
      destruct Hnon. exists u, v. split; [done|]. split; [done|].
      intros [q Hq]%Hacc. congruence. }
  assert ((b = true ↔ m ≠ Infini) ∧ (b = true ↔ x ≠ Infini)) as [H1 H2]
    by (by rewrite Hb', Hmi, Hxi).
  split; [apply H1|]. split; [apply H2|].
  intros ->. split.
  - destruct m as [q|]; [|done]. assert (false = true) by (by apply H1). done.
  - destruct x as [q|]; [|done]. assert (false = true) by (by apply H2). done.
Qed.

Lemma est_connexe_metriques_finies_witness :
  ∃ b m x, est_connexe reseau7 = Ok b ∧ diametre reseau7 = Ok m ∧
    longueur_moyenne reseau7 = Ok x ∧
    (m ≠ Infini → b = true) ∧ (x ≠ Infini → b = true) ∧
    (b = false → m = Infini ∧ x = Infini).
Proof.
  apply (est_connexe_metriques_finies reseau7 carree_reseau7 poids_positifs_reseau7
           symetrique_reseau7).
  vm_compute. lia.
Defined.

(** ** Matrices that are not square *)

Lemma bind_seule {A B : Type} (m : resultat A) (f : A → resultat B) :
  seule_IndexError m → (∀ a, m = Ok a → seule_IndexError (f a)) →
  seule_IndexError (m ≫= f).
Proof.
  intros Hm Hf e. destruct m as [a|e'|]; cbn; [by apply Hf | | done].
  intros [= <-]. by apply Hm.
Qed.

Lemma lire_seule {A : Type} (l : list A) (i : nat) : seule_IndexError (lire l i).
Proof. unfold lire. intros e. destruct (l !! i); congruence. Qed.

Lemma indice_seule (n : nat) (s : Z) : seule_IndexError (indice n s).
Proof. unfold indice. intros e. repeat case_decide; congruence. Qed.

Lemma Ok_seule {A : Type} (a : A) : seule_IndexError (Ok a).
Proof. intros e. done. Qed.

Lemma pour_seule {A B : Type} (l : list B) (f : A → B → resultat A) (a : A) :
  (∀ b x, x ∈ l → seule_IndexError (f b x)) → seule_IndexError (pour l f a).
Proof.
  revert a. induction l as [|x l IH]; intros a Hf; cbn; [apply Ok_seule|].
  apply bind_seule; [apply Hf; constructor|].
  intros a' _. apply IH. intros b y Hy. apply Hf. by constructor.
Qed.

Lemma relacher_seule (g : GrapheValue) (c j : nat) (dp : list poids * list (option nat)) :
  seule_IndexError (relacher g c dp j).
Proof.
  unfold relacher. apply bind_seule; [apply lire_seule|]. intros ligne _.
  apply bind_seule; [apply lire_seule|]. intros w _.
  destruct (est_inf w); [apply Ok_seule|].
  apply bind_seule; [apply lire_seule|]. intros dc _.
  apply bind_seule; [apply lire_seule|]. intros dn _.
  destruct (ltb_p _ dn); apply Ok_seule.
Qed.

Lemma min_cle_seule (d : list poids) (l : list nat) (best : nat) (cle : poids) :
  seule_IndexError (min_cle d best cle l).
Proof.
  revert best cle. induction l as [|x l IH]; intros best cle; cbn; [apply Ok_seule|].
  apply bind_seule; [apply lire_seule|]. intros kx _.
  destruct (ltb_p kx cle); apply IH.
Qed.

(** The loop of [calculPCCSommet] never asks for the minimum of an empty
    set: it raises nothing but [IndexError]. *)
Lemma boucle_seule (g : GrapheValue) (fuel : nat) (st : etat) :
  seule_IndexError (boucle fuel g st).
Proof.
  revert st. induction fuel as [|fuel IH]; intros st; cbn.
  - destruct (unvisited st); [apply Ok_seule | done].
  - destruct (unvisited st) as [|x l] eqn:Hunv; [apply Ok_seule|].
    apply bind_seule; [|intros st' _; apply IH].
    unfold iteration. rewrite Hunv. apply bind_seule.
    + cbn. apply bind_seule; [apply lire_seule|]. intros kx _. apply min_cle_seule.
    + intros c _. apply bind_seule; [|intros; apply Ok_seule].
      apply pour_seule. intros b j _. apply relacher_seule.
Qed.

Lemma pour_Ok_tous {A B : Type} (l : list B) (f : A → B → resultat A) (a a' : A) :
  pour l f a = Ok a' → ∀ x, x ∈ l → ∃ b b', f b x = Ok b'.
Proof.
  revert a. induction l as [|y l IH]; intros a Hrun x Hx; [by apply elem_of_nil in Hx|].
  cbn in Hrun. apply bind_Ok_inv in Hrun as (a1 & Hf & Hrun).
  apply elem_of_cons in Hx as [->|Hx]; [eauto | by eapply IH].
Qed.

(** A vertex leaves [unvisited] only after all the entries of its row
    have been read. *)
Lemma iteration_lignes_lues (g : GrapheValue) (st st' : etat) :
  (∀ x ligne, x ∉ unvisited st → matrice g !! x = Some ligne →
     nb_sommets g ≤ length ligne) →
  iteration g st = Ok st' →
  ∀ x ligne, x ∉ unvisited st' → matrice g !! x = Some ligne →
    nb_sommets g ≤ length ligne.
Proof.
  intros Hinv (c & _ & Hrel & Hunv)%iteration_inv x ligne Hx Hligne.
  destruct (decide (x ∈ unvisited st)) as [Hin|Hnin]; [|by eapply Hinv].
  assert (x = c) as ->.
  { destruct (decide (x = c)); [done|]. destruct Hx. rewrite Hunv.
    by apply elem_of_retirer. }
  destruct (nb_sommets g) as [|k] eqn:Hn; [lia|].
  destruct (pour_Ok_tous _ _ _ _ Hrel k) as (b & b' & Hr); [apply elem_of_seq; lia|].
  unfold relacher in Hr. apply bind_Ok_inv in Hr as (ligne' & Hl%lire_Ok & Hr).
  apply bind_Ok_inv in Hr as (w & Hw%lire_Ok & _).
  assert (ligne' = ligne) as -> by congruence.
  apply lookup_lt_Some in Hw. lia.
Qed.

(** X20. Whatever the matrix, [calculPCCSommet] raises no other exception
    than [IndexError]; and it raises it, for every source index, when
    some row of the matrix has fewer entries than the matrix has rows. *)
Theorem calculPCCSommet_ligne_courte (g : GrapheValue) (s : Z) :
  seule_IndexError (calculPCCSommet g s) ∧
  (∀ i ligne, matrice g !! i = Some ligne → length ligne < nb_sommets g →
     calculPCCSommet g s = Leve IndexError).
Proof.
  assert (seule_IndexError (calculPCCSommet g s)) as Hseule.
  { unfold calculPCCSommet. apply bind_seule; [apply indice_seule|]. intros i _.
    apply bind_seule; [apply boucle_seule | intros; apply Ok_seule]. }
  split; [done|]. intros i ligne Hligne Hlen.
  destruct (calculPCCSommet g s) as [[d p]|e|] eqn:Hcalc.
  - exfalso. unfold calculPCCSommet in Hcalc.
    apply bind_Ok_inv in Hcalc as (i0 & Hi0 & Hcalc).
    apply bind_Ok_inv in Hcalc as (st & Hb & _).
    apply (boucle_inv g (λ st, ∀ x ligne, x ∉ unvisited st →
             matrice g !! x = Some ligne → nb_sommets g ≤ length ligne)) in Hb
      as [Hinv Hnil].
    + specialize (Hinv i ligne). rewrite Hnil in Hinv.
      specialize (Hinv ltac:(apply not_elem_of_nil) Hligne). lia.
    + intros st0 st1. apply iteration_lignes_lues.
    + intros x l Hx Hl. destruct Hx. cbn. apply elem_of_seq.
      apply lookup_lt_Some in Hl. unfold nb_sommets. lia.
  - by rewrite (Hseule e eq_refl).
  - by destruct (calculPCCSommet_pas_epuise g s).
Qed.

Lemma calculPCCSommet_ligne_courte_witness :
  calculPCCSommet {| matrice := [[Infini; Fini 1]; [Fini 1]] |} 0 = Leve IndexError.
Proof.
  destruct (calculPCCSommet_ligne_courte {| matrice := [[Infini; Fini 1]; [Fini 1]] |} 0)
    as [_ H].
  apply (H 1 [Fini 1]); [reflexivity | cbn; repeat constructor].
Defined.

(** ** The size of the largest component *)

(** X23. On a square matrix and whatever the order in which Python
    iterates a set, [plus_grosse_cc] raises [ValueError] on the graph with
    no vertex; on any other graph it returns a graph with at least one
    vertex and at most as many vertices as the original, and with as many
    exactly when [est_connexe] answers [True]. *)
Theorem plus_grosse_cc_taille (ordre : gset nat → list nat) (g : GrapheValue) :
  ordre_iteration ordre → carree g →
  (nb_sommets g = 0 → plus_grosse_cc ordre g = Leve ValueError) ∧
  (0 < nb_sommets g →
     ∃ h b, plus_grosse_cc ordre g = Ok h ∧ est_connexe g = Ok b ∧
       0 < nb_sommets h ∧ nb_sommets h ≤ nb_sommets g ∧
       (b = true ↔ nb_sommets h = nb_sommets g)).
Proof.
  intros Hord Hc. split.
  - intros Hn. unfold plus_grosse_cc, cc_graphe. by rewrite Hn.
  - intros Hn.
    destruct (cc_graphe_classes g Hc)
      as (ccs & Hccs & Hnd & Hcouv & _ & Hborne & Hne & Hdisj).
    destruct (max_len_ok ccs) as (c & Hmax & Hin & Hgrand).
    { destruct (Hcouv 0 Hn) as (c0 & Hc0 & _). intros ->. by apply elem_of_nil in Hc0. }
    destruct (Hord c) as [Hndc Hmem].
    destruct (copier_ok g c (ordre c) Hc (λ x Hx, Hborne c x Hin Hx) Hndc Hmem)
      as (mat & Hmat & Hd & _).
    assert (length mat = size c) as Hlen by apply Hd.
    exists {| matrice := mat |}, (bool_decide (length ccs = 1)).
    split. { unfold plus_grosse_cc. by rewrite Hccs, bind_Ok, Hmax, bind_Ok, Hmat. }
    split. { unfold est_connexe. by rewrite Hccs. }
    change (nb_sommets {| matrice := mat |}) with (length mat). rewrite Hlen.
    assert (c ⊆ set_seq 0 (nb_sommets g)) as Hsub.
    { intros x Hx. apply elem_of_set_seq. split; [lia | by apply (Hborne c)]. }
    assert (size c ≤ nb_sommets g) as Hle.
    { apply subseteq_size in Hsub. by rewrite size_set_seq in Hsub. }
    split.
    { destruct (decide (size c = 0)) as [H0|]; [|lia].
      apply size_empty_inv, leibniz_equiv in H0. by destruct (Hne c Hin). }
    split; [done|]. rewrite bool_decide_eq_true. split.
    + intros H1. destruct ccs as [|c0 [|]]; try done.
      apply list_elem_of_singleton in Hin as ->.
      apply Nat.le_antisymm; [done|].
      rewrite <- (size_set_seq (C := gset nat) 0 (nb_sommets g)) at 1.
      apply subseteq_size. intros x [_ Hx]%elem_of_set_seq.
      destruct (Hcouv x) as (c' & Hc' & Hxc); [lia|].
      by apply list_elem_of_singleton in Hc' as ->.
    + intros Hsz.
      assert (∀ c', c' ∈ ccs → c' = c) as Huniq.
      { assert (c ≡ set_seq 0 (nb_sommets g)) as Heq.
        { apply set_subseteq_size_equiv; [done | rewrite size_set_seq; lia]. }
        intros c' Hc'. destruct (set_choose_L c' (Hne c' Hc')) as [v Hv].
        apply (Hdisj c' c v); try done.
        apply Heq, elem_of_set_seq. split; [lia | by apply (Hborne c')]. }
      destruct ccs as [|a [|b l]]; [by apply elem_of_nil in Hin | done |].
      assert (a = c) as -> by (apply Huniq; left).
      assert (b = c) as -> by (apply Huniq; right; left).
      apply NoDup_cons in Hnd as [Hnd _]. destruct Hnd. left.
Qed.

Lemma plus_grosse_cc_taille_witness :
  (nb_sommets graphe_m3 = 0 → plus_grosse_cc croissant graphe_m3 = Leve ValueError) ∧
  (0 < nb_sommets graphe_m3 →
     ∃ h b, plus_grosse_cc croissant graphe_m3 = Ok h ∧ est_connexe graphe_m3 = Ok b ∧
       0 < nb_sommets h ∧ nb_sommets h ≤ nb_sommets graphe_m3 ∧
       (b = true ↔ nb_sommets h = nb_sommets graphe_m3)).
Proof. apply (plus_grosse_cc_taille croissant graphe_m3 croissant_iteration carree_m3). Defined.

(** ** Rounding *)

(** X24. On binary64 floats, the distances that [calculPCCSommet] returns
    on a symmetric matrix with positive weights need not be symmetric,
    nor satisfy the triangle inequality.  On the path [0 - 1 - 2 - 3] of
    weights [1 + 2^-52], [2^-53] and [2^-52], the distance from 0 to 3 is
    [1 + 3 * 2^-52]; the distance from 3 to 0 is [1 + 2 * 2^-52], and so is
    the sum of the distances from 0 to 1 and from 1 to 3: the sums are
    made in another order, and each is rounded. *)
Theorem calculPCCSommet_arrondi :
  let f m := SpecFloat.S754_finite false m (-52) in
  ∃ d0 p0 d1 p1 d3 p3 d13,
    Binaire64.calculPCCSommet Binaire64.chemin_arrondi 0 = Ok (d0, p0) ∧
    Binaire64.calculPCCSommet Binaire64.chemin_arrondi 1 = Ok (d1, p1) ∧
    Binaire64.calculPCCSommet Binaire64.chemin_arrondi 3 = Ok (d3, p3) ∧
    d0 !! 1 = Some Binaire64.un_plus_ulp ∧
    d0 !! 3 = Some (f 4503599627370499%positive) ∧
    d3 !! 0 = Some (f 4503599627370498%positive) ∧
    d1 !! 3 = Some d13 ∧
    Binaire64.plus Binaire64.un_plus_ulp d13 = f 4503599627370498%positive ∧
    Binaire64.ltb (f 4503599627370498%positive) (f 4503599627370499%positive) = true.
Proof.
  intros f. eexists _, _, _, _, _, _, _.
  split; [vm_compute; reflexivity|].
  split; [vm_compute; reflexivity|].
  split; [vm_compute; reflexivity|].
  repeat split; vm_compute; reflexivity.
Qed.
